(** * tdc: dynamic predecessor search by universe-based sampling

    A shallow embedding of

    - [tdc::intrisics::pcmpgtub] (parallel unsigned byte comparison),
    - [tdc::math::bit_mask],
    - [tdc::pred::dynamic::DynIndex<t_list, t_sampling>] with its two bucket
      representations [bucket_bv] and [bucket_list],
    - [tdc::hash::Map<K, V>] (module [Hash]),
    - [tdc::io::BitOStream] (module [Io]),

    with the properties of these that the specification states and further
    properties read off the code.

    Unsigned 64-bit integers are values of [Z] in [0, 2^64); arithmetic that
    can leave this range is wrapped with [u64].  Pointers to buckets are
    indices into the free store of the index ([m_heap]); a nullable pointer
    is an [option].  Undefined behaviour of the C++ code (dereferencing a
    null pointer, indexing a vector out of range) is the error of the
    monad [M] in which [insert] runs. *)

From Stdlib Require Import ZArith List Lia Bool Permutation Sorted.
From stdpp Require Import base list.

Unset Default Proof Using.
Local Open Scope Z_scope.

(** ** Machine integers *)

Definition u64 (x : Z) : Z := x mod 2 ^ 64.
Definition u16 (x : Z) : Z := x mod 2 ^ 16.

Definition add64 (x y : Z) : Z := u64 (x + y).
Definition shl64 (x n : Z) : Z := u64 (Z.shiftl x n).

Definition is_u64 (x : Z) : Prop := 0 <= x < 2 ^ 64.

Lemma u64_small x : is_u64 x -> u64 x = x.
Proof. intros H. apply Z.mod_small, H. Qed.

Lemma u64_range x : is_u64 (u64 x).
Proof. apply Z.mod_pos_bound. lia. Qed.

(** ** Packed bytes and [pcmpgtub] *)

Module Intrinsics.

(** Byte [i] of a packed word. *)
Definition byte (w i : Z) : Z := Z.land (Z.shiftr w (8 * i)) 255.

(** An unsigned byte read as a signed 8-bit integer. *)
Definition signed8 (x : Z) : Z := if x <? 128 then x else x - 256.

(** Little-endian packing of a list of bytes into a word. *)
Fixpoint pack_bytes (l : list Z) : Z :=
  match l with
  | [] => 0
  | b :: r => Z.lor b (Z.shiftl (pack_bytes r) 8)
  end.

(** [_mm_xor_si64]: bitwise xor of two 64-bit MMX values. *)
Definition _mm_xor_si64 (a b : Z) : Z := Z.lxor a b.

(** [_m_pcmpgtb]: lane-wise SIGNED greater-than of 8 packed bytes; a lane of
    the result is all ones when the comparison holds and zero otherwise. *)
Definition _m_pcmpgtb (a b : Z) : Z :=
  pack_bytes
    (map (fun i => if signed8 (byte a i) >? signed8 (byte b i) then 255 else 0)
         [0; 1; 2; 3; 4; 5; 6; 7]).

Definition XOR_MASK : Z := 0x8080808080808080.

Definition pcmpgtub (a b : Z) : Z :=
  _m_pcmpgtb (_mm_xor_si64 a XOR_MASK) (_mm_xor_si64 b XOR_MASK).

Lemma byte_range w i : 0 <= byte w i < 256.
Proof.
  unfold byte. change 255 with (Z.ones 8). rewrite Z.land_ones by lia.
  apply Z.mod_pos_bound. lia.
Qed.

Lemma byte_pack_0 b r : 0 <= b < 256 -> byte (Z.lor b (Z.shiftl r 8)) 0 = b.
Proof.
  intros Hb. unfold byte. rewrite Z.shiftr_0_r.
  change 255 with (Z.ones 8). rewrite Z.land_ones by lia.
  apply Z.bits_inj'. intros n Hn.
  destruct (Z.ltb_spec n 8).
  - rewrite Z.mod_pow2_bits_low by lia.
    rewrite Z.lor_spec, Z.shiftl_spec_low by lia. apply orb_false_r.
  - rewrite Z.mod_pow2_bits_high by lia.
    symmetry. destruct (Z.eq_dec b 0) as [->|]; [apply Z.bits_0|].
    apply Z.bits_above_log2; [lia|].
    assert (Z.log2 b < 8) by (apply Z.log2_lt_pow2; lia). lia.
Qed.

Lemma byte_pack_S b r i :
  0 <= b < 256 -> 0 <= i -> byte (Z.lor b (Z.shiftl r 8)) (i + 1) = byte r i.
Proof.
  intros Hb Hi. unfold byte. f_equal.
  rewrite Z.shiftr_lor.
  replace (Z.shiftr b (8 * (i + 1))) with 0.
  - rewrite Z.lor_0_l. rewrite Z.shiftr_shiftl_r by lia. f_equal. lia.
  - symmetry. destruct (Z.eq_dec b 0) as [->|]; [apply Z.shiftr_0_l|].
    apply Z.shiftr_eq_0; [lia|].
    assert (Z.log2 b < 8) by (apply Z.log2_lt_pow2; lia). lia.
Qed.

Lemma byte_pack_bytes l :
  Forall (fun b => 0 <= b < 256) l ->
  forall i : nat, byte (pack_bytes l) (Z.of_nat i) = nth i l 0.
Proof.
  induction 1 as [|b r Hb Hr IH]; intros i; simpl.
  - unfold byte. rewrite Z.shiftr_0_l. now destruct i.
  - destruct i as [|i].
    + now apply byte_pack_0.
    + rewrite Nat2Z.inj_succ, <- Z.add_1_r.
      rewrite byte_pack_S by lia. apply IH.
Qed.

Lemma pack_bytes_range l :
  Forall (fun b => 0 <= b < 256) l ->
  0 <= pack_bytes l < 2 ^ (8 * Z.of_nat (length l)).
Proof.
  induction 1 as [|b r Hb Hr IH]; simpl pack_bytes; simpl length.
  - simpl. lia.
  - rewrite Nat2Z.inj_succ.
    replace (8 * Z.succ (Z.of_nat (length r))) with (8 * Z.of_nat (length r) + 8) by lia.
    rewrite Z.pow_add_r by lia.
    set (p := 2 ^ (8 * Z.of_nat (length r))) in *.
    assert (Hs : Z.shiftl (pack_bytes r) 8 = pack_bytes r * 2 ^ 8)
      by (apply Z.shiftl_mul_pow2; lia).
    assert (Hd : Z.land b (Z.shiftl (pack_bytes r) 8) = 0).
    { apply Z.bits_inj'. intros n Hn. rewrite Z.land_spec, Z.bits_0.
      destruct (Z.ltb_spec n 8).
      - rewrite Z.shiftl_spec_low by lia. apply andb_false_r.
      - destruct (Z.eq_dec b 0) as [->|]; [now rewrite Z.bits_0|].
        rewrite Z.bits_above_log2; [easy|lia|].
        assert (Z.log2 b < 8) by (apply Z.log2_lt_pow2; lia). lia. }
    rewrite <- Z.add_nocarry_lor by exact Hd. rewrite Hs. nia.
Qed.

Lemma byte_lxor a m i : byte (Z.lxor a m) i = Z.lxor (byte a i) (byte m i).
Proof.
  unfold byte. rewrite Z.shiftr_lxor.
  apply Z.bits_inj'. intros n Hn.
  rewrite Z.lxor_spec, !Z.land_spec, Z.lxor_spec.
  destruct (Z.testbit (Z.shiftr a (8 * i)) n), (Z.testbit (Z.shiftr m (8 * i)) n),
    (Z.testbit 255 n); reflexivity.
Qed.

Lemma byte_XOR_MASK i : 0 <= i < 8 -> byte XOR_MASK i = 128.
Proof.
  intros Hi.
  assert (i = 0 \/ i = 1 \/ i = 2 \/ i = 3 \/ i = 4 \/ i = 5 \/ i = 6 \/ i = 7)
    as [->|[->|[->|[->|[->|[->|[->| ->]]]]]]] by lia; reflexivity.
Qed.

Lemma land_128_low x : 0 <= x < 128 -> Z.land x 128 = 0.
Proof.
  intros Hx. apply Z.bits_inj'. intros n Hn.
  rewrite Z.land_spec, Z.bits_0.
  destruct (Z.eq_dec n 7) as [->|Hne].
  - destruct (Z.eq_dec x 0) as [->|]; [reflexivity|].
    rewrite Z.bits_above_log2; [reflexivity|lia|].
    assert (Z.log2 x < 7) by (apply Z.log2_lt_pow2; lia). lia.
  - change 128 with (2 ^ 7). rewrite Z.pow2_bits_false by lia.
    apply andb_false_r.
Qed.

(** Flipping the top bit of a byte moves it by 128 modulo 256. *)
Lemma lxor_128 x :
  0 <= x < 256 -> Z.lxor x 128 = if x <? 128 then x + 128 else x - 128.
Proof.
  intros Hx. destruct (Z.ltb_spec x 128).
  - symmetry. apply Z.add_nocarry_lxor, land_128_low. lia.
  - assert (Hl : Z.land (x - 128) 128 = 0) by (apply land_128_low; lia).
    apply Z.add_nocarry_lxor in Hl.
    replace (x - 128 + 128) with x in Hl by lia.
    rewrite Hl at 1. rewrite Z.lxor_assoc, Z.lxor_nilpotent. apply Z.lxor_0_r.
Qed.

(** The signed comparison of two bytes with flipped top bits is the unsigned
    comparison of the bytes. *)
Lemma signed_flip_gt x y :
  0 <= x < 256 -> 0 <= y < 256 ->
  (signed8 (Z.lxor x 128) >? signed8 (Z.lxor y 128)) = (x >? y).
Proof.
  intros Hx Hy. rewrite !lxor_128 by assumption. unfold signed8.
  destruct (Z.ltb_spec x 128), (Z.ltb_spec y 128);
    repeat match goal with
           | |- context [?a <? ?b] => destruct (Z.ltb_spec a b); try lia
           end;
    rewrite !Z.gtb_ltb;
    repeat match goal with
           | |- context [?a <? ?b] => destruct (Z.ltb_spec a b); try lia
           end; reflexivity.
Qed.

Lemma pcmpgtb_lanes a b :
  Forall (fun v => 0 <= v < 256)
    (map (fun i => if signed8 (byte a i) >? signed8 (byte b i) then 255 else 0)
         [0; 1; 2; 3; 4; 5; 6; 7]).
Proof.
  unfold map.
  repeat (apply List.Forall_cons;
          [match goal with |- context [if ?c then _ else _] => destruct c end; lia|]).
  apply List.Forall_nil.
Qed.

(** C8. The result of [pcmpgtub a b] is a 64-bit value whose byte [i], for
    every lane [i] in 0..7, is 0xFF when byte [i] of [a] is strictly greater
    than byte [i] of [b] as unsigned 8-bit integers, and 0x00 otherwise.  The
    statement holds for all integers [a], [b], in particular for all 64-bit
    words. *)
Theorem pcmpgtub_unsigned_lanes (a b i : Z) :
  0 <= i < 8 ->
  is_u64 (pcmpgtub a b) /\
  byte (pcmpgtub a b) i = if byte a i >? byte b i then 255 else 0.
Proof.
  intros Hi. unfold pcmpgtub, _m_pcmpgtb. split.
  - apply (pack_bytes_range _ (pcmpgtb_lanes _ _)).
  - replace i with (Z.of_nat (Z.to_nat i)) at 1 by lia.
    rewrite byte_pack_bytes by apply pcmpgtb_lanes.
    unfold _mm_xor_si64.
    assert (i = 0 \/ i = 1 \/ i = 2 \/ i = 3 \/ i = 4 \/ i = 5 \/ i = 6 \/ i = 7)
      as [->|[->|[->|[->|[->|[->|[->| ->]]]]]]] by lia;
      cbn [Z.to_nat Pos.to_nat Pos.iter_op Nat.add nth map];
      rewrite !byte_lxor, !byte_XOR_MASK by lia;
      apply (f_equal (fun c : bool => if c then 255 else 0));
      apply signed_flip_gt; apply byte_range.
Qed.

Lemma pcmpgtub_unsigned_lanes_witness :
  0 <= 3 < 8 /\
  (is_u64 (pcmpgtub 0x00FF7F8001020304 0x0001808001FF0303) /\
   byte (pcmpgtub 0x00FF7F8001020304 0x0001808001FF0303) 3 =
     if byte 0x00FF7F8001020304 3 >? byte 0x0001808001FF0303 3 then 255 else 0).
Proof.
  split; [lia | apply (pcmpgtub_unsigned_lanes _ _ 3); lia].
Defined.

Example pcmpgtub_sample :
  pcmpgtub 0x00FF7F8001020304 0x0001808001FF0303 = 0x00FF0000000000FF.
Proof. reflexivity. Qed.

End Intrinsics.

(** ** [tdc::math::bit_mask] *)

(** [bit_mask<T>(bits)] for an unsigned type [T] of [num_bits] bits:
    all ones when [bits >= num_bits], otherwise [~(max << bits)]. *)
Definition bit_mask (num_bits bits : Z) : Z :=
  let max := 2 ^ num_bits - 1 in
  if num_bits <=? bits then max
  else Z.lxor max ((Z.shiftl max bits) mod 2 ^ num_bits).

(** X8. [bit_mask<T>(bits)] has exactly the lowest [min(bits, num_bits)] bits
    set: it is [2^bits - 1] below the width of [T] and saturates to all
    ones from the width on, where the shift would not be defined. *)
Theorem bit_mask_low_bits (num_bits bits : Z) :
  0 < num_bits -> 0 <= bits ->
  bit_mask num_bits bits = 2 ^ Z.min bits num_bits - 1.
Proof.
  intros Hn Hb. unfold bit_mask.
  destruct (Z.leb_spec num_bits bits) as [Hsat|Hlow].
  - now rewrite Z.min_r by lia.
  - rewrite Z.min_l by lia.
    replace (2 ^ num_bits - 1) with (Z.ones num_bits) by (rewrite Z.ones_equiv; lia).
    replace (2 ^ bits - 1) with (Z.ones bits) by (rewrite Z.ones_equiv; lia).
    apply Z.bits_inj'. intros i Hi. rewrite Z.lxor_spec.
    destruct (Z.ltb_spec i num_bits) as [Hin|Hout].
    + rewrite Z.ones_spec_low by lia.
      rewrite Z.mod_pow2_bits_low by lia.
      rewrite Z.shiftl_spec by lia.
      destruct (Z.ltb_spec i bits) as [Hlt|Hge].
      * rewrite Z.testbit_neg_r by lia. now rewrite Z.ones_spec_low by lia.
      * rewrite Z.ones_spec_low by lia. now rewrite Z.ones_spec_high by lia.
    + rewrite Z.ones_spec_high by lia.
      rewrite Z.mod_pow2_bits_high by lia.
      now rewrite Z.ones_spec_high by lia.
Qed.

Lemma bit_mask_low_bits_witness :
  0 < 64 /\ 0 <= 12 /\ bit_mask 64 12 = 2 ^ Z.min 12 64 - 1.
Proof.
  split; [lia|]. split; [lia|]. apply bit_mask_low_bits; lia.
Defined.


(** ** Buckets of the sampling index *)

Definition ptr := nat.

(** The members shared by [bucket_bv] and [bucket_list], with the
    representation-specific member ([bits] or [list]) as [payload]. *)
Record bucket_of (C : Type) : Type := Bucket {
  bprefix : Z;
  prev_pred : Z;
  next_b : option ptr;
  payload : C
}.
Arguments Bucket {C}.
Arguments bprefix {C}.
Arguments prev_pred {C}.
Arguments next_b {C}.
Arguments payload {C}.

Definition set_bprefix {C} (v : Z) (b : bucket_of C) : bucket_of C :=
  Bucket v (prev_pred b) (next_b b) (payload b).
Definition set_prev_pred {C} (v : Z) (b : bucket_of C) : bucket_of C :=
  Bucket (bprefix b) v (next_b b) (payload b).
Definition set_next_b {C} (v : option ptr) (b : bucket_of C) : bucket_of C :=
  Bucket (bprefix b) (prev_pred b) v (payload b).
Definition set_payload {C} (v : C) (b : bucket_of C) : bucket_of C :=
  Bucket (bprefix b) (prev_pred b) (next_b b) v.

(** [struct bucket_bv]: the payload is [std::bitset<b_size> bits], a
    non-negative integer whose bit [i] is [bits[i]]. *)
Definition bucket_bv := bucket_of Z.

(** [struct bucket_list]: the payload is [std::vector<uint16_t> list]. *)
Definition bucket_list := bucket_of (list Z).

(** The result of a predecessor query, [struct Result { bool exists; uint64_t pos; }]. *)
Record Result : Type := mkResult { r_exists : bool; r_pos : Z }.

Section Sampling.

(** The template parameter [uint8_t t_sampling]. *)
Variable t_sampling : Z.

Definition wordl : Z := 40.
Definition word_size : Z := Z.shiftl 1 wordl.
Definition x_wordl : Z := 40 - t_sampling.
Definition b_wordl : Z := t_sampling.
Definition b_size : Z := Z.shiftl 1 b_wordl.

(** [bucket_bv::set]: [bits[i] = true]. *)
Definition bv_set (i : Z) (b : bucket_bv) : bucket_bv :=
  set_payload (Z.setbit (payload b) i) b.

(** The loop of [bucket_bv::pred]; [n] is the number of iterations left,
    that is [i + 1] for the loop variable [i]. *)
Fixpoint bv_pred_loop (b : bucket_bv) (n : nat) : Z :=
  match n with
  | O => prev_pred b
  | S m =>
      if Z.testbit (payload b) (Z.of_nat m)
      then add64 (shl64 (bprefix b) b_wordl) (Z.of_nat m)
      else bv_pred_loop b m
  end.

(** [bucket_bv::pred(int64_t i)]. *)
Definition bv_pred (b : bucket_bv) (i : Z) : Z :=
  bv_pred_loop b (Z.to_nat (i + 1)).

(** [bucket_list::set]: [list.push_back(i)], which converts [i] to [uint16_t]. *)
Definition list_set (i : Z) (b : bucket_list) : bucket_list :=
  set_payload (payload b ++ [u16 i]) b.

(** First loop of [bucket_list::pred]: the first position [j] with
    [list[j] <= i]; the result is the remaining list from [j] on. *)
Fixpoint list_pred_first (l : list Z) (i : Z) : option (Z * list Z) :=
  match l with
  | [] => None
  | e :: r => if e <=? i then Some (e, l) else list_pred_first r i
  end.

(** Second loop of [bucket_list::pred], run on the list from [j] on. *)
Fixpoint list_pred_second (l : list Z) (i p : Z) : Z :=
  match l with
  | [] => p
  | e :: r => list_pred_second r i (if (p <? e) && (e <=? i) then e else p)
  end.

(** [bucket_list::pred(int64_t i)]. *)
Definition list_pred (b : bucket_list) (i : Z) : Z :=
  match list_pred_first (payload b) i with
  | None => prev_pred b
  | Some (p, rest) =>
      add64 (shl64 (bprefix b) b_wordl) (list_pred_second rest i p)
  end.

(** What the two bucket representations have in common, as [DynIndex]
    uses them through [std::conditional<t_list, bucket_list, bucket_bv>]. *)
Class BucketRep (C : Type) : Type := {
  fresh : C;
  set : Z -> bucket_of C -> bucket_of C;
  pred : bucket_of C -> Z -> Z;
  (** the suffix values a payload holds, and the value [set i] records *)
  holds : C -> Z -> Prop;
  stored : Z -> Z
}.

#[export] Instance bv_rep : BucketRep Z := {
  fresh := 0;
  set := bv_set;
  pred := bv_pred;
  holds := fun bits v => Z.testbit bits v = true;
  stored := fun i => i
}.

#[export] Instance list_rep : BucketRep (list Z) := {
  fresh := [];
  set := list_set;
  pred := list_pred;
  holds := fun l v => In v l;
  stored := u16
}.

(** The laws of a bucket representation that [DynIndex] relies on: [set]
    touches the payload only, and [pred] returns the greatest held value
    not above [i], combined with the prefix, or [prev_pred] when there is
    none. *)
Class BucketLaws (C : Type) {rep : BucketRep C} : Prop := {
  set_keeps_bprefix : forall i b, bprefix (set i b) = bprefix b;
  set_keeps_prev_pred : forall i b, prev_pred (set i b) = prev_pred b;
  set_keeps_next_b : forall i b, next_b (set i b) = next_b b;
  holds_fresh : forall v, ~ holds fresh v;
  stored_nonneg : forall i, 0 <= i -> 0 <= stored i;
  holds_set : forall i b v, 0 <= i ->
    (holds (payload (set i b)) v <-> v = stored i \/ holds (payload b) v);
  pred_none : forall b i,
    (forall v, holds (payload b) v -> 0 <= v) -> 0 <= i ->
    (forall v, holds (payload b) v -> i < v) ->
    pred b i = prev_pred b;
  pred_some : forall b i m,
    (forall v, holds (payload b) v -> 0 <= v) -> 0 <= i ->
    holds (payload b) m -> m <= i ->
    (forall v, holds (payload b) v -> v <= i -> v <= m) ->
    pred b i = add64 (shl64 (bprefix b) b_wordl) m
}.

(** *** The bitset bucket *)

Lemma bv_pred_loop_none (b : bucket_bv) (n : nat) :
  (forall v, 0 <= v < Z.of_nat n -> Z.testbit (payload b) v = false) ->
  bv_pred_loop b n = prev_pred b.
Proof.
  induction n as [|n IH]; intros Hn; simpl; [reflexivity|].
  rewrite (Hn (Z.of_nat n)) by lia. apply IH. intros v Hv. apply Hn. lia.
Qed.

Lemma bv_pred_loop_some (b : bucket_bv) (n : nat) (m : Z) :
  0 <= m < Z.of_nat n ->
  Z.testbit (payload b) m = true ->
  (forall v, m < v < Z.of_nat n -> Z.testbit (payload b) v = false) ->
  bv_pred_loop b n = add64 (shl64 (bprefix b) b_wordl) m.
Proof.
  induction n as [|n IH]; intros Hm Hb Hn; [lia|]. simpl.
  destruct (Z.eq_dec m (Z.of_nat n)) as [->|Hne].
  - now rewrite Hb.
  - rewrite (Hn (Z.of_nat n)) by lia. apply IH; [lia|assumption|].
    intros v Hv. apply Hn. lia.
Qed.

#[export] Instance bv_laws : BucketLaws Z.
Proof.
  constructor; try reflexivity.
  - intros v. simpl. now rewrite Z.bits_0.
  - intros i Hi. exact Hi.
  - intros i b v Hi. simpl. rewrite Z.setbit_eqb by assumption.
    rewrite orb_true_iff, Z.eqb_eq. intuition congruence.
  - intros b i Hnn Hi Hno. simpl. unfold bv_pred.
    apply bv_pred_loop_none. intros v Hv.
    destruct (Z.testbit (payload b) v) eqn:E; [|reflexivity].
    specialize (Hno v E). lia.
  - intros b i m Hnn Hi Hm Hle Hmax. simpl in *. unfold bv_pred.
    apply bv_pred_loop_some; [specialize (Hnn m Hm); lia|assumption|].
    intros v Hv.
    destruct (Z.testbit (payload b) v) eqn:E; [|reflexivity].
    specialize (Hmax v E). lia.
Qed.

(** *** The list bucket *)

Lemma list_pred_first_none (l : list Z) (i : Z) :
  (forall e, In e l -> i < e) -> list_pred_first l i = None.
Proof.
  induction l as [|e r IH]; intros H; simpl; [reflexivity|].
  destruct (Z.leb_spec e i) as [Hle|Hgt].
  - specialize (H e (or_introl eq_refl)). lia.
  - apply IH. intros e' He'. apply H. now right.
Qed.

Lemma list_pred_first_some (l : list Z) (i m : Z) :
  In m l -> m <= i ->
  exists p rest, list_pred_first l i = Some (p, rest) /\
    p <= i /\ In p rest /\
    (forall e, In e rest -> In e l) /\
    (forall e, In e l -> e <= i -> In e rest).
Proof.
  induction l as [|e r IH]; intros Hin Hle; [destruct Hin|]. simpl.
  destruct (Z.leb_spec e i) as [Hei|Hei].
  - exists e, (e :: r). repeat split; auto. apply in_eq.
  - destruct Hin as [->|Hin]; [lia|].
    destruct (IH Hin Hle) as (p & rest & -> & Hp & Hpr & Hsub & Hall).
    exists p, rest. repeat split; auto.
    intros e' [->|He'] Hle'; [lia|]. now apply Hall.
Qed.

Lemma list_pred_second_spec (l : list Z) (i p : Z) :
  p <= i ->
  let r := list_pred_second l i p in
  p <= r <= i /\ (r = p \/ In r l) /\ (forall e, In e l -> e <= i -> e <= r).
Proof.
  revert p. induction l as [|e l IH]; intros p Hp; simpl.
  - split; [lia|]. split; [now left|]. intros e [].
  - set (p' := if (p <? e) && (e <=? i) then e else p).
    assert (Hp' : p' <= i /\ p <= p' /\ (p' = p \/ p' = e) /\ (e <= i -> e <= p')).
    { subst p'. destruct (Z.ltb_spec p e), (Z.leb_spec e i); simpl; lia. }
    destruct Hp' as (Hi' & Hpp' & Hor & He).
    destruct (IH p' Hi') as ((H1 & H2) & H3 & H4).
    split; [lia|]. split.
    + destruct H3 as [H3|H3]; [|now (right; right)].
      rewrite H3. destruct Hor as [->| ->]; [now left|right; now left].
    + intros e' [<-|He'] Hle; [lia|]. now apply H4.
Qed.

Lemma list_pred_none (b : bucket_list) (i : Z) :
  (forall e, In e (payload b) -> i < e) -> list_pred b i = prev_pred b.
Proof.
  intros H. unfold list_pred. now rewrite list_pred_first_none.
Qed.

Lemma list_pred_some (b : bucket_list) (i m : Z) :
  In m (payload b) -> m <= i ->
  (forall e, In e (payload b) -> e <= i -> e <= m) ->
  list_pred b i = add64 (shl64 (bprefix b) b_wordl) m.
Proof.
  intros Hin Hle Hmax. unfold list_pred.
  destruct (list_pred_first_some _ _ _ Hin Hle) as (p & rest & -> & Hp & Hpr & Hsub & Hall).
  destruct (list_pred_second_spec rest i p Hp) as ((H1 & H2) & H3 & H4).
  f_equal.
  assert (Hr : In (list_pred_second rest i p) (payload b))
    by (destruct H3 as [->|H3]; auto).
  specialize (Hmax _ Hr H2). specialize (H4 m (Hall m Hin Hle) Hle). lia.
Qed.

#[export] Instance list_laws : BucketLaws (list Z).
Proof.
  constructor; try reflexivity.
  - intros v [].
  - intros i _. apply Z.mod_pos_bound. reflexivity.
  - intros i b v Hi. simpl. rewrite in_app_iff. simpl. intuition congruence.
  - intros b i _ _ H. now apply list_pred_none.
  - intros b i m _ _ Hm Hle Hmax. now apply list_pred_some.
Qed.

(** ** The index *)

Section Index.

Context {C : Type} {rep : BucketRep C} {laws : BucketLaws C}.

(** The members of [DynIndex] together with the free store holding the
    buckets it has allocated. *)
Record DynIndex : Type := mkDynIndex {
  m_size : Z;
  m_min : Z;
  m_max : Z;
  m_xf : list (option ptr);
  m_first_b : option ptr;
  m_heap : list (bucket_of C)
}.

Definition with_size v d := mkDynIndex v (m_min d) (m_max d) (m_xf d) (m_first_b d) (m_heap d).
Definition with_min v d := mkDynIndex (m_size d) v (m_max d) (m_xf d) (m_first_b d) (m_heap d).
Definition with_max v d := mkDynIndex (m_size d) (m_min d) v (m_xf d) (m_first_b d) (m_heap d).
Definition with_xf v d := mkDynIndex (m_size d) (m_min d) (m_max d) v (m_first_b d) (m_heap d).
Definition with_first_b v d := mkDynIndex (m_size d) (m_min d) (m_max d) (m_xf d) v (m_heap d).
Definition with_heap v d := mkDynIndex (m_size d) (m_min d) (m_max d) (m_xf d) (m_first_b d) v.

(** [prefix(i)] and [suffix(i)]. *)
Definition prefix (i : Z) : Z := Z.shiftr i b_wordl.
Definition suffix (i : Z) : Z := Z.land i (b_size - 1).

(** The default constructor.  [m_min] and [m_max] have no initialiser;
    [min0] and [max0] stand for their indeterminate values. *)
Definition DynIndex_new (min0 max0 : Z) : DynIndex :=
  mkDynIndex 0 min0 max0 [] None [].

(** State and error monad of the member functions: [None] is undefined
    behaviour. *)
Definition M (A : Type) : Type := DynIndex -> option (A * DynIndex).

Definition ret {A} (a : A) : M A := fun d => Some (a, d).
Definition bind {A B} (m : M A) (k : A -> M B) : M B :=
  fun d => match m d with Some (a, d') => k a d' | None => None end.
Definition fail {A} : M A := fun _ => None.
Definition get : M DynIndex := fun d => Some (d, d).
Definition modify (f : DynIndex -> DynIndex) : M unit := fun d => Some (tt, f d).

Notation "'let*' x ':=' m 'in' k" := (bind m (fun x => k))
  (at level 10, x name, m at level 100, k at level 200).
Notation "m '>>' k" := (bind m (fun _ => k))
  (at level 100, k at level 200, right associativity).

(** [new bucket]: a fresh object with the default member initialisers
    ([prev_pred = 0], [next_b = nullptr]); [prefix] is assigned by every
    caller right after. *)
Definition new_bucket : M (option ptr) := fun d =>
  Some (Some (length (m_heap d)),
        with_heap (m_heap d ++ [Bucket 0 0 None fresh]) d).

(** [*p] for reading. *)
Definition deref (p : option ptr) : M (bucket_of C) := fun d =>
  match p with
  | Some a => match m_heap d !! a with Some b => Some (b, d) | None => None end
  | None => None
  end.

(** A write through [p], such as [p->next_b = v]. *)
Definition assign (p : option ptr) (f : bucket_of C -> bucket_of C) : M unit :=
  let* b := deref p in
  modify (fun d => with_heap (<[default 0%nat p := f b]> (m_heap d)) d).

(** [m_xf[i]] for reading and writing, and [m_xf.back()]. *)
Definition xf_load (i : Z) : M (option ptr) := fun d =>
  if i <? 0 then None else
  match m_xf d !! Z.to_nat i with Some p => Some (p, d) | None => None end.

Definition xf_store (i : Z) (p : option ptr) : M unit :=
  let* _ := xf_load i in
  modify (fun d => with_xf (<[Z.to_nat i := p]> (m_xf d)) d).

Definition xf_back : M (option ptr) := fun d =>
  match last (m_xf d) with Some p => Some (p, d) | None => None end.

Definition xf_size (d : DynIndex) : Z := Z.of_nat (length (m_xf d)).

(** The loop at the end of [insert]:
    [for (j = key_pre + 1; j < m_xf.size() && next_bucket == m_xf[j]; ++j)
       m_xf[j] = new_b;]
    with [n] the number of entries from [j] to the end of [m_xf]. *)
Fixpoint fill_loop (n : nat) (j : nat) (next_bucket new_b : option ptr)
    (xf : list (option ptr)) : list (option ptr) :=
  match n with
  | O => xf
  | S n' =>
      match xf !! j with
      | Some p =>
          if decide (next_bucket = p)
          then fill_loop n' (S j) next_bucket new_b (<[j := new_b]> xf)
          else xf
      | None => xf
      end
  end.

(** The common end of [insert] (from [m_min = std::min(key, m_min)] on). *)
Definition update_xfast (key key_pre : Z) (new_b : option ptr) : M unit :=
  modify (fun d => with_min (Z.min key (m_min d)) d) >>
  modify (fun d => with_max (Z.max key (m_max d)) d) >>
  xf_store key_pre new_b >>
  let* d := get in
  if add64 key_pre 1 <? xf_size d then
    let* next_bucket := xf_load (add64 key_pre 1) in
    let* cond :=
      match next_bucket with
      | None => ret true
      | Some _ => let* nb := deref next_bucket in ret (bprefix nb <? key_pre)
      end in
    if (cond : bool) then
      modify (fun d =>
        with_xf (fill_loop (length (m_xf d) - Z.to_nat (add64 key_pre 1))
                   (Z.to_nat (add64 key_pre 1)) next_bucket new_b (m_xf d)) d)
    else ret tt
  else ret tt.

(** [DynIndex::insert]. *)
Definition insert (key : Z) : M unit :=
  let key_pre := prefix key in
  let key_suf := suffix key in
  let* d := get in
  if xf_size d <=? key_pre then
    if negb (m_size d =? 0) then
      let* new_b := new_bucket in
      assign new_b (set_bprefix key_pre) >>
      assign new_b (set_next_b None) >>
      assign new_b (set key_suf) >>
      assign new_b (set_prev_pred (m_max d)) >>
      let* back := xf_back in
      assign back (set_next_b new_b) >>
      modify (fun d => with_xf (resize (Z.to_nat (add64 (prefix key) 1)) back (m_xf d)) d) >>
      update_xfast key key_pre new_b
    else
      modify (with_min key) >>
      modify (with_max key) >>
      let* new_b := new_bucket in
      assign new_b (set_bprefix key_pre) >>
      assign new_b (set_next_b (m_first_b d)) >>
      modify (with_first_b new_b) >>
      assign new_b (set key_suf) >>
      modify (fun d => with_size (add64 (m_size d) 1) d) >>
      modify (fun d => with_xf (resize (Z.to_nat (add64 (prefix key) 1)) None (m_xf d)) d) >>
      update_xfast key key_pre new_b
  else if key_pre <? prefix (m_min d) then
    assign (m_first_b d) (set_prev_pred key) >>
    let* new_b := new_bucket in
    assign new_b (set_bprefix key_pre) >>
    assign new_b (set_prev_pred 0) >>
    assign new_b (set_next_b (m_first_b d)) >>
    modify (with_first_b new_b) >>
    assign new_b (set key_suf) >>
    update_xfast key key_pre new_b
  else
    let* key_bucket := xf_load key_pre in
    let* kb := deref key_bucket in
    if bprefix kb =? key_pre then
      assign key_bucket (set key_suf) >>
      let* kb := deref key_bucket in
      let next_bucket := next_b kb in
      match next_bucket with
      | Some _ =>
          let* nb := deref next_bucket in
          assign next_bucket (set_prev_pred (Z.max key (prev_pred nb)))
      | None => ret tt
      end >>
      modify (fun d => with_min (Z.min key (m_min d)) d) >>
      modify (fun d => with_max (Z.max key (m_max d)) d)
    else
      let* new_b := new_bucket in
      assign new_b (set_bprefix key_pre) >>
      assign new_b (set_next_b (next_b kb)) >>
      assign new_b (set key_suf) >>
      assign key_bucket (set_next_b new_b) >>
      let* nb := deref new_b in
      let* nn := deref (next_b nb) in
      assign new_b (set_prev_pred (prev_pred nn)) >>
      let* nb := deref new_b in
      assign (next_b nb) (set_prev_pred key) >>
      update_xfast key key_pre new_b.

(** [DynIndex::predecessor]. *)
Definition predecessor (x : Z) (d : DynIndex) : option Result :=
  if m_size d =? 0 then Some (mkResult false 1)
  else if x <? m_min d then Some (mkResult false 0)
  else if m_max d <=? x then Some (mkResult true (m_max d))
  else
    match xf_load (prefix x) d with
    | Some (Some a, _) =>
        match m_heap d !! a with
        | Some b => Some (mkResult true (pred b (suffix x)))
        | None => None
        end
    | _ => None
    end.

(** Running [insert] for a sequence of keys, first key first. *)
Fixpoint inserts (keys : list Z) (d : DynIndex) : option DynIndex :=
  match keys with
  | [] => Some d
  | k :: r => match insert k d with Some (_, d') => inserts r d' | None => None end
  end.

(** ** The contents of the index as functions of the inserted keys

    For a list [S] of inserted keys the following functions describe what
    the index is meant to hold: the least and greatest key, for an array
    position [j] the greatest occupied prefix not above [j], for a prefix
    [q] the least occupied prefix above [q], and the greatest key whose
    prefix is below [q] (0 when there is none). *)

Definition omax (x : Z) (o : option Z) : Z :=
  match o with Some a => Z.max x a | None => x end.
Definition omin (x : Z) (o : option Z) : Z :=
  match o with Some a => Z.min x a | None => x end.

Fixpoint kmin (S : list Z) : option Z :=
  match S with [] => None | k :: r => Some (omin k (kmin r)) end.

Fixpoint kmax (S : list Z) : option Z :=
  match S with [] => None | k :: r => Some (omax k (kmax r)) end.

Fixpoint prefix_le (S : list Z) (j : Z) : option Z :=
  match S with
  | [] => None
  | k :: r =>
      if prefix k <=? j then Some (omax (prefix k) (prefix_le r j))
      else prefix_le r j
  end.

Fixpoint prefix_gt (S : list Z) (q : Z) : option Z :=
  match S with
  | [] => None
  | k :: r =>
      if q <? prefix k then Some (omin (prefix k) (prefix_gt r q))
      else prefix_gt r q
  end.

Fixpoint key_below (S : list Z) (q : Z) : Z :=
  match S with
  | [] => 0
  | k :: r => if prefix k <? q then Z.max k (key_below r q) else key_below r q
  end.

(** The keys the index is meant for: [wordl] bits. *)
Definition in_universe (k : Z) : Prop := 0 <= k < word_size.

(** A prefix is occupied when some inserted key has it. *)
Definition occupied (S : list Z) (q : Z) : Prop :=
  exists k, In k S /\ prefix k = q.

(** [x_wordl = 40 - t_sampling] has to be a valid shift for [x_size]. *)
Hypothesis Hsampling : 0 <= t_sampling <= 40.

Lemma b_size_pow : b_size = 2 ^ t_sampling.
Proof. unfold b_size, b_wordl. rewrite Z.shiftl_mul_pow2 by lia. lia. Qed.

Lemma prefix_div k : prefix k = k / 2 ^ t_sampling.
Proof. unfold prefix, b_wordl. apply Z.shiftr_div_pow2. lia. Qed.

Lemma suffix_mod k : suffix k = k mod 2 ^ t_sampling.
Proof.
  unfold suffix. rewrite b_size_pow.
  replace (2 ^ t_sampling - 1) with (Z.ones t_sampling)
    by (rewrite Z.ones_equiv; lia).
  apply Z.land_ones. lia.
Qed.

Lemma pow_sampling_pos : 0 < 2 ^ t_sampling.
Proof. apply Z.pow_pos_nonneg; lia. Qed.

Lemma key_split k : k = prefix k * 2 ^ t_sampling + suffix k.
Proof.
  rewrite prefix_div, suffix_mod. pose proof pow_sampling_pos.
  rewrite Z.mul_comm. apply Z.div_mod. lia.
Qed.

Lemma suffix_range k : 0 <= suffix k < 2 ^ t_sampling.
Proof. rewrite suffix_mod. apply Z.mod_pos_bound, pow_sampling_pos. Qed.

Lemma prefix_mono a b : a <= b -> prefix a <= prefix b.
Proof. intros H. rewrite !prefix_div. apply Z.div_le_mono; [apply pow_sampling_pos|exact H]. Qed.

Lemma prefix_lt a b : prefix a < prefix b -> a < b.
Proof.
  intros H. destruct (Z.lt_ge_cases a b) as [|Hge]; [assumption|].
  apply prefix_mono in Hge. lia.
Qed.

Lemma prefix_range k : in_universe k -> 0 <= prefix k < 2 ^ 40.
Proof.
  intros [H0 H1]. change word_size with (2 ^ 40) in H1.
  rewrite prefix_div. pose proof pow_sampling_pos. split.
  - apply Z.div_pos; lia.
  - apply Z.div_lt_upper_bound; nia.
Qed.

Lemma add64_prefix k : in_universe k -> add64 (prefix k) 1 = prefix k + 1.
Proof.
  intros H. apply prefix_range in H. unfold add64. apply u64_small.
  unfold is_u64. lia.
Qed.

(** No wrap-around in [(prefix << b_wordl) + suf] for the prefix and a
    suffix of a key. *)
Lemma join_prefix q v :
  0 <= q -> 0 <= v -> q * 2 ^ t_sampling + v < 2 ^ 64 ->
  add64 (shl64 q b_wordl) v = q * 2 ^ t_sampling + v.
Proof.
  intros Hq Hv Hlt. pose proof pow_sampling_pos.
  unfold add64, shl64, b_wordl. rewrite Z.shiftl_mul_pow2 by lia.
  rewrite (u64_small (q * 2 ^ t_sampling)) by (unfold is_u64; nia).
  apply u64_small. unfold is_u64. nia.
Qed.

(** *** Least and greatest key *)

Lemma kmin_spec S m : kmin S = Some m -> In m S /\ forall k, In k S -> m <= k.
Proof.
  revert m. induction S as [|k r IH]; intros m; simpl; [discriminate|].
  intros [= <-]. destruct (kmin r) as [a|] eqn:E; simpl.
  - destruct (IH a eq_refl) as [Hin Hle]. split.
    + destruct (Z.min_spec k a) as [[_ ->]|[_ ->]]; auto.
    + intros k' [<-|Hk']; [lia|]. specialize (Hle k' Hk'). lia.
  - destruct r; [|discriminate E]. split; [now left|].
    intros k' [<-|[]]. lia.
Qed.

Lemma kmax_spec S m : kmax S = Some m -> In m S /\ forall k, In k S -> k <= m.
Proof.
  revert m. induction S as [|k r IH]; intros m; simpl; [discriminate|].
  intros [= <-]. destruct (kmax r) as [a|] eqn:E; simpl.
  - destruct (IH a eq_refl) as [Hin Hle]. split.
    + destruct (Z.max_spec k a) as [[_ ->]|[_ ->]]; auto.
    + intros k' [<-|Hk']; [lia|]. specialize (Hle k' Hk'). lia.
  - destruct r; [|discriminate E]. split; [now left|].
    intros k' [<-|[]]. lia.
Qed.

Lemma kmin_is_Some S : S <> [] -> exists m, kmin S = Some m.
Proof. destruct S; [congruence|]. simpl. eauto. Qed.

Lemma kmax_is_Some S : S <> [] -> exists m, kmax S = Some m.
Proof. destruct S; [congruence|]. simpl. eauto. Qed.

(** *** Occupied prefixes *)

Lemma prefix_le_Some S j g :
  prefix_le S j = Some g -> g <= j /\ occupied S g.
Proof.
  revert g. induction S as [|k r IH]; intros g; simpl; [discriminate|].
  destruct (Z.leb_spec (prefix k) j) as [Hle|Hgt].
  - intros [= <-]. destruct (prefix_le r j) as [a|]; simpl.
    + destruct (IH a eq_refl) as [Ha [k' [Hk' Hp]]].
      destruct (Z.max_spec (prefix k) a) as [[_ ->]|[_ ->]].
      * split; [lia|]. exists k'. split; [now right|assumption].
      * split; [lia|]. exists k. split; [now left|reflexivity].
    + split; [lia|]. exists k. split; [now left|reflexivity].
  - intros H. destruct (IH g H) as [Hg [k' [Hk' Hp]]].
    split; [assumption|]. exists k'. split; [now right|assumption].
Qed.

Lemma prefix_le_ge S j q :
  occupied S q -> q <= j -> exists g, prefix_le S j = Some g /\ q <= g.
Proof.
  intros [k0 [Hin <-]]. revert Hin. induction S as [|k r IH]; intros Hin Hle;
    [destruct Hin|]. simpl.
  destruct (Z.leb_spec (prefix k) j) as [Hkj|Hkj].
  - destruct Hin as [->|Hin].
    + eexists. split; [reflexivity|]. destruct (prefix_le r j); simpl; lia.
    + destruct (IH Hin Hle) as (g & -> & Hg). eexists. split; [reflexivity|].
      simpl. lia.
  - destruct Hin as [->|Hin]; [lia|]. now apply IH.
Qed.

Lemma prefix_le_None S j q : prefix_le S j = None -> occupied S q -> j < q.
Proof.
  intros Hn Ho. destruct (Z.lt_ge_cases j q) as [|Hge]; [assumption|].
  destruct (prefix_le_ge S j q Ho ltac:(lia)) as (g & Hg & _). congruence.
Qed.

Lemma prefix_le_occupied S q : occupied S q -> prefix_le S q = Some q.
Proof.
  intros Ho. destruct (prefix_le_ge S q q Ho ltac:(lia)) as (g & Hg & Hle).
  destruct (prefix_le_Some _ _ _ Hg) as [Hle' _]. rewrite Hg. f_equal. lia.
Qed.

Lemma prefix_gt_Some S q g :
  prefix_gt S q = Some g -> q < g /\ occupied S g.
Proof.
  revert g. induction S as [|k r IH]; intros g; simpl; [discriminate|].
  destruct (Z.ltb_spec q (prefix k)) as [Hlt|Hge].
  - intros [= <-]. destruct (prefix_gt r q) as [a|]; simpl.
    + destruct (IH a eq_refl) as [Ha [k' [Hk' Hp]]].
      destruct (Z.min_spec (prefix k) a) as [[_ ->]|[_ ->]].
      * split; [lia|]. exists k. split; [now left|reflexivity].
      * split; [lia|]. exists k'. split; [now right|assumption].
    + split; [lia|]. exists k. split; [now left|reflexivity].
  - intros H. destruct (IH g H) as [Hg [k' [Hk' Hp]]].
    split; [assumption|]. exists k'. split; [now right|assumption].
Qed.

Lemma prefix_gt_le S q q' :
  occupied S q' -> q < q' -> exists g, prefix_gt S q = Some g /\ g <= q'.
Proof.
  intros [k0 [Hin <-]]. revert Hin. induction S as [|k r IH]; intros Hin Hlt;
    [destruct Hin|]. simpl.
  destruct (Z.ltb_spec q (prefix k)) as [Hkj|Hkj].
  - destruct Hin as [->|Hin].
    + eexists. split; [reflexivity|]. destruct (prefix_gt r q); simpl; lia.
    + destruct (IH Hin Hlt) as (g & -> & Hg). eexists. split; [reflexivity|].
      simpl. lia.
  - destruct Hin as [->|Hin]; [lia|]. now apply IH.
Qed.

Lemma prefix_gt_None S q q' : prefix_gt S q = None -> occupied S q' -> q' <= q.
Proof.
  intros Hn Ho. destruct (Z.lt_ge_cases q q') as [Hlt|]; [|lia].
  destruct (prefix_gt_le S q q' Ho Hlt) as (g & Hg & _). congruence.
Qed.

(** *** The greatest key below a prefix *)

Lemma key_below_ge S q k : In k S -> prefix k < q -> k <= key_below S q.
Proof.
  induction S as [|k' r IH]; intros Hin Hlt; [destruct Hin|]. simpl.
  destruct (Z.ltb_spec (prefix k') q) as [H|H].
  - destruct Hin as [->|Hin]; [lia|]. specialize (IH Hin Hlt). lia.
  - destruct Hin as [->|Hin]; [lia|]. now apply IH.
Qed.

Lemma key_below_in S q :
  (key_below S q = 0 /\ forall k, In k S -> prefix k < q -> k <= 0) \/
  (In (key_below S q) S /\ prefix (key_below S q) < q).
Proof.
  induction S as [|k r IH]; simpl.
  - left. split; [reflexivity|]. intros k [].
  - destruct (Z.ltb_spec (prefix k) q) as [H|H].
    + destruct (Z.max_spec k (key_below r q)) as [[Hlt ->]|[Hge ->]].
      * destruct IH as [[H0 Hall]|[Hin Hp]].
        -- left. split; [assumption|]. intros k' [<-|Hk'] Hk; [lia|now apply Hall].
        -- right. split; [now right|assumption].
      * right. split; [now left|assumption].
    + destruct IH as [[H0 Hall]|[Hin Hp]].
      * left. split; [assumption|]. intros k' [<-|Hk'] Hk; [lia|now apply Hall].
      * right. split; [now right|assumption].
Qed.

Lemma key_below_nonneg S q : 0 <= key_below S q.
Proof.
  induction S as [|k r IH]; simpl; [lia|].
  destruct (prefix k <? q); lia.
Qed.

(** Moving the bound across unoccupied prefixes does not change the key. *)
Lemma key_below_shift S q q' :
  q <= q' -> (forall g, occupied S g -> q <= g -> q' <= g) ->
  key_below S q = key_below S q'.
Proof.
  intros Hle. induction S as [|k r IH]; intros Hfree; simpl; [reflexivity|].
  assert (Hr : forall g, occupied r g -> q <= g -> q' <= g).
  { intros g [k' [Hk' Hp]]. apply Hfree. exists k'. split; [now right|assumption]. }
  specialize (IH Hr).
  assert (Hk : q <= prefix k -> q' <= prefix k).
  { apply Hfree. exists k. split; [now left|reflexivity]. }
  destruct (Z.ltb_spec (prefix k) q), (Z.ltb_spec (prefix k) q'); try lia;
    now rewrite IH.
Qed.

(** ** Symbolic execution of the monadic code *)

Lemma bind_deref {B} (a : ptr) (b : bucket_of C) (k : bucket_of C -> M B) d :
  m_heap d !! a = Some b -> bind (deref (Some a)) k d = k b d.
Proof. intros H. unfold bind, deref. now rewrite H. Qed.

Lemma bind_assign {B} (a : ptr) (b : bucket_of C) f (k : unit -> M B) d :
  m_heap d !! a = Some b ->
  bind (assign (Some a) f) k d = k tt (with_heap (<[a := f b]> (m_heap d)) d).
Proof. intros H. unfold assign, bind, deref, modify. now rewrite H. Qed.

Lemma bind_xf_load {B} (i : Z) (p : option ptr) (k : option ptr -> M B) d :
  0 <= i -> m_xf d !! Z.to_nat i = Some p -> bind (xf_load i) k d = k p d.
Proof.
  intros Hi H. unfold bind, xf_load.
  destruct (Z.ltb_spec i 0); [lia|]. now rewrite H.
Qed.

Lemma bind_xf_store {B} (i : Z) (p q : option ptr) (k : unit -> M B) d :
  0 <= i -> m_xf d !! Z.to_nat i = Some q ->
  bind (xf_store i p) k d = k tt (with_xf (<[Z.to_nat i := p]> (m_xf d)) d).
Proof.
  intros Hi H. unfold xf_store, bind, xf_load, modify.
  destruct (Z.ltb_spec i 0); [lia|]. now rewrite H.
Qed.

(** *** The filling loop *)

Lemma fill_loop_length n j nb new xf :
  length (fill_loop n j nb new xf) = length xf.
Proof.
  revert j xf. induction n as [|n IH]; intros j xf; simpl; [reflexivity|].
  destruct (xf !! j) as [p|]; [|reflexivity].
  destruct (decide (nb = p)); [|reflexivity].
  rewrite IH. apply length_insert.
Qed.

Lemma fill_loop_miss n j nb new xf i :
  (i < j)%nat \/ (exists i', (j <= i' <= i)%nat /\ xf !! i' <> Some nb) ->
  fill_loop n j nb new xf !! i = xf !! i.
Proof.
  revert j xf. induction n as [|n IH]; intros j xf H; simpl; [reflexivity|].
  destruct (xf !! j) as [p|] eqn:Ej; [|reflexivity].
  destruct (decide (nb = p)) as [->|Hne]; [|reflexivity].
  rewrite IH.
  - destruct H as [H|(i' & Hi' & Hx)].
    + apply list_lookup_insert_ne. lia.
    + apply list_lookup_insert_ne. intros ->.
      assert (i' = i) by lia. subst i'. congruence.
  - destruct H as [H|(i' & Hi' & Hx)]; [left; lia|].
    right. exists i'. split.
    + destruct (Nat.eq_dec i' j) as [->|]; [congruence|lia].
    + rewrite list_lookup_insert_ne; [assumption|]. intros ->. congruence.
Qed.

Lemma fill_loop_hit n j nb new xf i :
  (j <= i < j + n)%nat ->
  (forall i', (j <= i' <= i)%nat -> xf !! i' = Some nb) ->
  fill_loop n j nb new xf !! i = Some new.
Proof.
  revert j xf. induction n as [|n IH]; intros j xf Hi Hall; [lia|]. simpl.
  rewrite (Hall j) by lia.
  destruct (decide (nb = nb)) as [_|]; [|congruence].
  assert (Hlen : (j < length xf)%nat) by (eapply lookup_lt_Some, (Hall j); lia).
  destruct (Nat.eq_dec i j) as [->|Hne].
  - rewrite fill_loop_miss by (left; lia).
    now apply list_lookup_insert_eq.
  - apply IH; [lia|]. intros i' Hi'.
    rewrite list_lookup_insert_ne by lia. apply Hall. lia.
Qed.

Lemma prefix_le_between S i j o :
  i <= j -> prefix_le S j = o -> (forall g, o = Some g -> g <= i) ->
  prefix_le S i = o.
Proof.
  intros Hij Hj Ho. destruct (prefix_le S i) as [g'|] eqn:Ei.
  - destruct (prefix_le_Some _ _ _ Ei) as [Hg' Hocc].
    destruct (prefix_le_ge S j g' Hocc ltac:(lia)) as (g & Hg & Hle).
    rewrite Hg in Hj. subst o. specialize (Ho g eq_refl).
    destruct (prefix_le_Some _ _ _ Hg) as [_ Hocc'].
    destruct (prefix_le_ge S i g Hocc' Ho) as (g2 & Hg2 & Hle2).
    rewrite Ei in Hg2. injection Hg2 as <-. f_equal. lia.
  - destruct o as [g|]; [|reflexivity]. specialize (Ho g eq_refl).
    destruct (prefix_le_Some _ _ _ Hj) as [_ Hocc].
    destruct (prefix_le_ge S i g Hocc Ho) as (g2 & Hg2 & _). congruence.
Qed.

(** The address of the bucket of each prefix after a bucket for
    prefix [kp] has been allocated at [np]. *)
Definition addr_with (addr : Z -> ptr) (kp : Z) (np : ptr) : Z -> ptr :=
  fun q => if q =? kp then np else addr q.

Lemma addr_with_eq addr kp np : addr_with addr kp np kp = np.
Proof. unfold addr_with. now rewrite Z.eqb_refl. Qed.

Lemma addr_with_ne addr kp np q : q <> kp -> addr_with addr kp np q = addr q.
Proof. intros H. unfold addr_with. destruct (Z.eqb_spec q kp); congruence. Qed.

Section Top_array.

Variables (S : list Z) (addr : Z -> ptr) (k : Z) (np : ptr).
Variable xf : list (option ptr).
Variable hp : list (bucket_of C).

Let kp := prefix k.

Hypothesis Hkp : 0 <= kp < Z.of_nat (length xf).
Hypothesis Hfree : ~ occupied S kp.
Hypothesis Hxf : forall j, (j < length xf)%nat ->
  xf !! j = Some (addr <$> prefix_le S (Z.of_nat j)).
Hypothesis Hheap : forall q, occupied S q ->
  exists b, hp !! addr q = Some b /\ bprefix b = q.

Let xf1 := <[Z.to_nat kp := Some np]> xf.

Lemma top_low j :
  (j < length xf)%nat -> Z.of_nat j < kp ->
  xf !! j = Some (addr_with addr kp np <$> prefix_le (k :: S) (Z.of_nat j)).
Proof.
  intros Hj Hlt. rewrite (Hxf j Hj). f_equal. simpl. fold kp.
  destruct (Z.leb_spec kp (Z.of_nat j)); [lia|].
  destruct (prefix_le S (Z.of_nat j)) as [g|] eqn:E; [|reflexivity]. simpl.
  destruct (prefix_le_Some _ _ _ E) as [Hg _].
  now rewrite addr_with_ne by lia.
Qed.

Lemma top_at :
  Some (Some np) =
  Some (addr_with addr kp np <$> prefix_le (k :: S) (Z.of_nat (Z.to_nat kp))).
Proof.
  rewrite Z2Nat.id by lia. simpl. fold kp. rewrite Z.leb_refl. simpl.
  do 2 f_equal. symmetry.
  destruct (prefix_le S kp) as [g|] eqn:E; simpl.
  - destruct (prefix_le_Some _ _ _ E) as [Hg _].
    rewrite Z.max_l by lia. apply addr_with_eq.
  - apply addr_with_eq.
Qed.

Lemma top_high_keep j g :
  (j < length xf)%nat -> kp < Z.of_nat j ->
  prefix_le S (Z.of_nat j) = Some g -> kp < g ->
  xf !! j = Some (addr_with addr kp np <$> prefix_le (k :: S) (Z.of_nat j)).
Proof.
  intros Hj Hlt Hg Hgt. rewrite (Hxf j Hj), Hg. simpl. fold kp.
  destruct (Z.leb_spec kp (Z.of_nat j)); [|lia]. rewrite Hg. simpl.
  rewrite Z.max_r by lia. now rewrite addr_with_ne by lia.
Qed.

Lemma top_high_new j :
  kp < Z.of_nat j ->
  (forall g, prefix_le S (Z.of_nat j) = Some g -> g < kp) ->
  Some (Some np) = Some (addr_with addr kp np <$> prefix_le (k :: S) (Z.of_nat j)).
Proof.
  intros Hlt Hg. simpl. fold kp.
  destruct (Z.leb_spec kp (Z.of_nat j)); [|lia]. simpl. do 2 f_equal. symmetry.
  destruct (prefix_le S (Z.of_nat j)) as [g|]; simpl.
  - specialize (Hg g eq_refl). rewrite Z.max_l by lia. apply addr_with_eq.
  - apply addr_with_eq.
Qed.

(** The array after [m_xf[key_pre] = new_b] when the loop does not run. *)
Lemma top_nofill :
  (kp + 1 < Z.of_nat (length xf) ->
   exists g1, prefix_le S (kp + 1) = Some g1 /\ kp <= g1) ->
  forall j, (j < length xf)%nat ->
    xf1 !! j = Some (addr_with addr kp np <$> prefix_le (k :: S) (Z.of_nat j)).
Proof.
  intros Hnext j Hj. unfold xf1.
  destruct (Z.lt_trichotomy (Z.of_nat j) kp) as [Hlt|[Heq|Hgt]].
  - rewrite list_lookup_insert_ne by lia. now apply top_low.
  - replace j with (Z.to_nat kp) by lia.
    rewrite list_lookup_insert_eq by lia. apply top_at.
  - rewrite list_lookup_insert_ne by lia.
    destruct Hnext as (g1 & Hg1 & Hle); [lia|].
    destruct (prefix_le_Some _ _ _ Hg1) as [Hb Hocc].
    destruct (prefix_le_ge S (Z.of_nat j) g1 Hocc ltac:(lia)) as (g & Hg & Hge).
    apply (top_high_keep j g); auto.
    destruct (Z.eq_dec g kp) as [->|]; [|lia].
    destruct (prefix_le_Some _ _ _ Hg) as [_ Ho]. contradiction.
Qed.

(** The array after [m_xf[key_pre] = new_b] and the loop, when
    [next_bucket] is null or has a prefix below [key_pre]. *)
Lemma top_fill :
  kp + 1 < Z.of_nat (length xf) ->
  (forall g1, prefix_le S (kp + 1) = Some g1 -> g1 < kp) ->
  forall j, (j < length xf)%nat ->
    fill_loop (length xf1 - Z.to_nat (kp + 1)) (Z.to_nat (kp + 1))
      (addr <$> prefix_le S (kp + 1)) (Some np) xf1 !! j =
    Some (addr_with addr kp np <$> prefix_le (k :: S) (Z.of_nat j)).
Proof.
  intros Hlen Hguard j Hj.
  assert (Hl1 : length xf1 = length xf) by apply length_insert.
  destruct (Z.lt_trichotomy (Z.of_nat j) kp) as [Hlt|[Heq|Hgt]].
  - rewrite fill_loop_miss by (left; lia). unfold xf1.
    rewrite list_lookup_insert_ne by lia. now apply top_low.
  - rewrite fill_loop_miss by (left; lia). unfold xf1.
    replace j with (Z.to_nat kp) by lia.
    rewrite list_lookup_insert_eq by lia. apply top_at.
  - destruct (prefix_le S (Z.of_nat j)) as [g|] eqn:Ej.
    + destruct (Z.lt_ge_cases g kp) as [Hg|Hg].
      * (* still the bucket below: overwritten *)
        rewrite fill_loop_hit; [apply top_high_new; [lia|]; intros g' Hg'; congruence|lia|].
        intros i' Hi'. unfold xf1. rewrite list_lookup_insert_ne by lia.
        rewrite Hxf by lia. do 2 f_equal.
        rewrite (prefix_le_between S (Z.of_nat i') (Z.of_nat j) (Some g));
          [|lia|assumption|intros ? [= <-]; lia].
        symmetry. apply (prefix_le_between S (kp + 1) (Z.of_nat j)); [lia|assumption|].
        intros ? [= <-]; lia.
      * (* a bucket above [kp]: kept *)
        assert (Hne : g <> kp).
        { intros ->. destruct (prefix_le_Some _ _ _ Ej) as [_ Ho]. contradiction. }
        rewrite fill_loop_miss.
        -- unfold xf1. rewrite list_lookup_insert_ne by lia.
           apply (top_high_keep j g); auto. lia.
        -- right. exists j. split; [lia|]. unfold xf1.
           rewrite list_lookup_insert_ne by lia. rewrite Hxf, Ej by lia.
           destruct (prefix_le S (kp + 1)) as [g1|] eqn:E1; simpl; [|congruence].
           specialize (Hguard g1 eq_refl). intros [= Heq].
           destruct (prefix_le_Some _ _ _ Ej) as [_ Ho].
           destruct (prefix_le_Some _ _ _ E1) as [_ Ho1].
           destruct (Hheap g Ho) as (b & Hb & Hbp).
           destruct (Hheap g1 Ho1) as (b1 & Hb1 & Hbp1).
           rewrite Heq in Hb. rewrite Hb in Hb1. injection Hb1 as <-. lia.
    + rewrite fill_loop_hit; [apply top_high_new; [lia|]; intros g' Hg'; congruence|lia|].
      intros i' Hi'. unfold xf1. rewrite list_lookup_insert_ne by lia.
      rewrite Hxf by lia. do 2 f_equal.
      rewrite (prefix_le_between S (Z.of_nat i') (Z.of_nat j) None);
        [|lia|assumption|discriminate].
      symmetry. apply (prefix_le_between S (kp + 1) (Z.of_nat j)); [lia|assumption|].
      discriminate.
Qed.

End Top_array.

Ltac red_state :=
  cbv iota; cbn [bind modify get ret];
  unfold xf_size, with_xf, with_max, with_min, with_heap, with_size, with_first_b;
  cbn [m_xf m_heap m_min m_max m_size m_first_b].

Lemma bind_bind {A B D} (m : M A) (f : A -> M B) (g : B -> M D) d :
  bind (bind m f) g d = bind m (fun x => bind (f x) g) d.
Proof. unfold bind. destruct (m d) as [[a d']|]; reflexivity. Qed.

Lemma bind_ret {A B} (a : A) (k : A -> M B) d : bind (ret a) k d = k a d.
Proof. reflexivity. Qed.

Lemma update_xfast_spec S addr k np d :
  in_universe k ->
  prefix k < xf_size d ->
  ~ occupied S (prefix k) ->
  (forall j, (j < length (m_xf d))%nat ->
     m_xf d !! j = Some (addr <$> prefix_le S (Z.of_nat j))) ->
  (forall q, occupied S q -> exists b, m_heap d !! addr q = Some b /\ bprefix b = q) ->
  exists d', update_xfast k (prefix k) (Some np) d = Some (tt, d') /\
    m_size d' = m_size d /\ m_min d' = Z.min k (m_min d) /\
    m_max d' = Z.max k (m_max d) /\ m_first_b d' = m_first_b d /\
    m_heap d' = m_heap d /\ length (m_xf d') = length (m_xf d) /\
    forall j, (j < length (m_xf d))%nat ->
      m_xf d' !! j = Some (addr_with addr (prefix k) np <$> prefix_le (k :: S) (Z.of_nat j)).
Proof.
  intros Hk Hlt Hfree Hxf Hheap.
  pose proof (prefix_range k Hk) as Hkp.
  pose proof (add64_prefix k Hk) as Hadd.
  destruct d as [sz mn mx xf fb hp]. unfold xf_size in *. simpl in *.
  assert (Hkpn : (Z.to_nat (prefix k) < length xf)%nat) by lia.
  destruct (lookup_lt_is_Some_2 xf _ Hkpn) as [old Hold].
  unfold update_xfast. red_state.
  erewrite bind_xf_store by (simpl; first [lia|eassumption]).
  red_state. rewrite Hadd, length_insert.
  destruct (Z.ltb_spec (prefix k + 1) (Z.of_nat (length xf))) as [Hn|Hn]; red_state.
  - assert (Hnext : <[Z.to_nat (prefix k) := Some np]> xf !! Z.to_nat (prefix k + 1)
                    = Some (addr <$> prefix_le S (prefix k + 1))).
    { rewrite list_lookup_insert_ne by lia. rewrite Hxf by lia.
      now rewrite Z2Nat.id by lia. }
    erewrite bind_xf_load by (simpl; first [lia|exact Hnext]).
    destruct (prefix_le S (prefix k + 1)) as [g1|] eqn:E1; cbn [fmap option_fmap option_map].
    + destruct (prefix_le_Some _ _ _ E1) as [Hg1 Ho1].
      destruct (Hheap g1 Ho1) as (b1 & Hb1 & Hbp1).
      rewrite bind_bind. erewrite bind_deref by (simpl; exact Hb1).
      rewrite bind_ret, Hbp1.
      destruct (Z.ltb_spec g1 (prefix k)) as [Hlow|Hhigh]; red_state.
      * eexists. split; [reflexivity|]. cbn. repeat split.
        -- rewrite fill_loop_length. apply length_insert.
        -- intros j Hj. assert (Hf := top_fill S addr k np xf hp).
           rewrite E1 in Hf. apply Hf; auto; try lia.
           intros g [= <-]. lia.
      * eexists. split; [reflexivity|]. cbn. repeat split.
        -- apply length_insert.
        -- intros j Hj. apply (top_nofill S addr k np xf); auto; try lia.
           intros _. exists g1. split; [assumption|lia].
    + red_state. eexists. split; [reflexivity|]. cbn. repeat split.
      * rewrite fill_loop_length. apply length_insert.
      * intros j Hj. assert (Hf := top_fill S addr k np xf hp).
        rewrite E1 in Hf. apply Hf; auto; try lia. discriminate.
  - eexists. split; [reflexivity|]. cbn. repeat split.
    + apply length_insert.
    + intros j Hj. apply (top_nofill S addr k np xf); auto; lia.
Qed.

(** *** How the description changes when a key is added *)

Lemma key_below_cons_succ S k q :
  0 <= k -> ~ occupied S (prefix k) -> prefix_gt S (prefix k) = Some q ->
  key_below (k :: S) q = k.
Proof.
  intros Hk Hfree Hq. destruct (prefix_gt_Some _ _ _ Hq) as [Hlt Hocc]. simpl.
  destruct (Z.ltb_spec (prefix k) q); [|lia].
  destruct (key_below_in S q) as [[-> _]|[Hin Hp]]; [lia|].
  set (kb := key_below S q) in *.
  assert (prefix kb <= prefix k).
  { destruct (Z.le_gt_cases (prefix kb) (prefix k)) as [|Hgt]; [assumption|].
    destruct (prefix_gt_le S (prefix k) (prefix kb)) as (g & Hg & Hle);
      [exists kb; auto|lia|]. rewrite Hq in Hg. injection Hg as <-. lia. }
  assert (prefix kb <> prefix k) by (intros He; apply Hfree; exists kb; auto).
  assert (kb < k) by (apply prefix_lt; lia). lia.
Qed.

Lemma key_below_cons_other S k q :
  occupied S q -> prefix_gt S (prefix k) <> Some q ->
  key_below (k :: S) q = key_below S q.
Proof.
  intros Hocc Hne. simpl. destruct (Z.ltb_spec (prefix k) q) as [Hlt|]; [|reflexivity].
  destruct (prefix_gt_le S (prefix k) q Hocc Hlt) as (g & Hg & Hle).
  assert (g < q) by (destruct (Z.eq_dec g q) as [->|]; [congruence|lia]).
  destruct (prefix_gt_Some _ _ _ Hg) as [Hkg (k' & Hin & Hp)].
  assert (k < k') by (apply prefix_lt; lia).
  pose proof (key_below_ge S q k' Hin ltac:(lia)). lia.
Qed.

Lemma prefix_gt_cons_pred S k q :
  ~ occupied S (prefix k) -> prefix_le S (prefix k) = Some q ->
  prefix_gt (k :: S) q = Some (prefix k).
Proof.
  intros Hfree Hq. destruct (prefix_le_Some _ _ _ Hq) as [Hle Hocc].
  assert (q <> prefix k) by (intros ->; contradiction).
  simpl. destruct (Z.ltb_spec q (prefix k)); [|lia]. f_equal.
  destruct (prefix_gt S q) as [g|] eqn:Eg; simpl; [|reflexivity].
  destruct (prefix_gt_Some _ _ _ Eg) as [Hqg Hog].
  destruct (Z.le_gt_cases g (prefix k)) as [Hgk|]; [|lia].
  destruct (prefix_le_ge S (prefix k) g Hog Hgk) as (g' & Hg' & Hge).
  rewrite Hq in Hg'. injection Hg' as <-. lia.
Qed.

Lemma prefix_gt_cons_other S k q :
  occupied S q -> prefix_le S (prefix k) <> Some q ->
  prefix_gt (k :: S) q = prefix_gt S q.
Proof.
  intros Hocc Hne. simpl. destruct (Z.ltb_spec q (prefix k)) as [Hlt|]; [|reflexivity].
  destruct (prefix_le_ge S (prefix k) q Hocc ltac:(lia)) as (g & Hg & Hge).
  assert (q < g) by (destruct (Z.eq_dec g q) as [->|]; [congruence|lia]).
  destruct (prefix_le_Some _ _ _ Hg) as [Hgk Hog].
  destruct (prefix_gt_le S q g Hog ltac:(lia)) as (g' & -> & Hle). simpl.
  f_equal. lia.
Qed.

Lemma occupied_cons S k q : occupied (k :: S) q <-> q = prefix k \/ occupied S q.
Proof.
  unfold occupied. split.
  - intros (k' & [<-|Hin] & Hp); [now left|right; eauto].
  - intros [->|(k' & Hin & Hp)]; [exists k; split; [now left|reflexivity]|].
    exists k'. split; [now right|assumption].
Qed.

Lemma occupied_dec S q : {occupied S q} + {~ occupied S q}.
Proof.
  induction S as [|k r IH].
  - right. intros (k & [] & _).
  - destruct (Z.eq_dec q (prefix k)) as [->|Hne].
    + left. apply occupied_cons. now left.
    + destruct IH as [Ho|Hn].
      * left. apply occupied_cons. now right.
      * right. rewrite occupied_cons. intuition.
Qed.

(** ** The representation invariant

    [Rep S addr d]: the index [d] represents the list [S] of inserted keys,
    the bucket of an occupied prefix [q] living at address [addr q]. *)

Definition holds_keys (S : list Z) (q : Z) (c : C) : Prop :=
  forall v, holds c v <-> exists k, In k S /\ prefix k = q /\ stored (suffix k) = v.

Record Rep (S : list Z) (addr : Z -> ptr) (d : DynIndex) : Prop := {
  rep_univ : forall k, In k S -> in_universe k;
  rep_size : m_size d = match S with [] => 0 | _ => 1 end;
  rep_min : forall m, kmin S = Some m -> m_min d = m;
  rep_max : forall m, kmax S = Some m -> m_max d = m;
  rep_len : xf_size d = match kmax S with Some m => prefix m + 1 | None => 0 end;
  rep_xf : forall j, (j < length (m_xf d))%nat ->
    m_xf d !! j = Some (addr <$> prefix_le S (Z.of_nat j));
  rep_first : m_first_b d = addr <$> (prefix <$> kmin S);
  rep_bucket : forall q, occupied S q ->
    exists b, m_heap d !! addr q = Some b /\ bprefix b = q /\
      prev_pred b = key_below S q /\
      next_b b = addr <$> prefix_gt S q /\
      holds_keys S q (payload b)
}.

Lemma Rep_new min0 max0 addr : Rep [] addr (DynIndex_new min0 max0).
Proof.
  constructor; simpl; try reflexivity; try discriminate.
  - intros k [].
  - intros j Hj. lia.
  - intros q (k & [] & _).
Qed.

Lemma holds_new_bucket (b0 : bucket_of C) k :
  payload b0 = fresh ->
  forall v, holds (payload (set (suffix k) b0)) v <-> v = stored (suffix k).
Proof.
  intros Hb v. rewrite holds_set by apply suffix_range. rewrite Hb.
  pose proof (holds_fresh v). tauto.
Qed.

(** Writes through the pointer to the bucket allocated last, and through
    older pointers. *)
Lemma bind_assign_new {B} hp (b : bucket_of C) a f (k : unit -> M B) sz mn mx xf fb :
  a = length hp ->
  bind (assign (Some a) f) k (mkDynIndex sz mn mx xf fb (hp ++ [b])) =
  k tt (mkDynIndex sz mn mx xf fb (hp ++ [f b])).
Proof.
  intros ->. erewrite bind_assign by (simpl; apply list_lookup_middle; reflexivity).
  unfold with_heap. simpl. do 2 f_equal.
  rewrite insert_app_r_alt by lia. now rewrite Nat.sub_diag.
Qed.

Lemma bind_assign_old {B} hp (b b0 : bucket_of C) a f (k : unit -> M B) sz mn mx xf fb :
  hp !! a = Some b0 ->
  bind (assign (Some a) f) k (mkDynIndex sz mn mx xf fb (hp ++ [b])) =
  k tt (mkDynIndex sz mn mx xf fb (<[a := f b0]> hp ++ [b])).
Proof.
  intros H. pose proof (lookup_lt_Some _ _ _ H).
  erewrite bind_assign by (simpl; rewrite lookup_app_l by lia; exact H).
  unfold with_heap. simpl. do 2 f_equal. now rewrite insert_app_l by lia.
Qed.

Lemma bind_deref_new {B} hp (b : bucket_of C) a (k : bucket_of C -> M B) sz mn mx xf fb :
  a = length hp ->
  bind (deref (Some a)) k (mkDynIndex sz mn mx xf fb (hp ++ [b])) =
  k b (mkDynIndex sz mn mx xf fb (hp ++ [b])).
Proof.
  intros ->. apply bind_deref. simpl. apply list_lookup_middle. reflexivity.
Qed.

Lemma bind_deref_old {B} hp (b b0 : bucket_of C) a (k : bucket_of C -> M B) sz mn mx xf fb :
  hp !! a = Some b0 ->
  bind (deref (Some a)) k (mkDynIndex sz mn mx xf fb (hp ++ [b])) =
  k b0 (mkDynIndex sz mn mx xf fb (hp ++ [b])).
Proof.
  intros H. pose proof (lookup_lt_Some _ _ _ H).
  apply bind_deref. simpl. now rewrite lookup_app_l by lia.
Qed.

Lemma bind_new_bucket {B} (k : option ptr -> M B) sz mn mx xf fb hp :
  bind new_bucket k (mkDynIndex sz mn mx xf fb hp) =
  k (Some (length hp)) (mkDynIndex sz mn mx xf fb (hp ++ [Bucket 0 0 None fresh])).
Proof. reflexivity. Qed.

(** Decides the integer tests of the goal that follow from the context. *)
Ltac ztest :=
  repeat match goal with
  | |- context [?a <=? ?b] =>
      first [ rewrite (proj2 (Z.leb_le a b)) by lia
            | rewrite (proj2 (Z.leb_gt a b)) by lia ]
  | |- context [?a <? ?b] =>
      first [ rewrite (proj2 (Z.ltb_lt a b)) by lia
            | rewrite (proj2 (Z.ltb_ge a b)) by lia ]
  | |- context [?a =? ?b] =>
      first [ rewrite (proj2 (Z.eqb_eq a b)) by lia
            | rewrite (proj2 (Z.eqb_neq a b)) by lia ]
  end.


(** *** Establishing the invariant after a bucket has been created *)

Lemma Rep_cons_new S addr d k d' :
  Rep S addr d -> in_universe k -> ~ occupied S (prefix k) ->
  let np := length (m_heap d) in
  let addr' := addr_with addr (prefix k) np in
  m_size d' = 1 ->
  m_min d' = omin k (kmin S) ->
  m_max d' = omax k (kmax S) ->
  xf_size d' = prefix (omax k (kmax S)) + 1 ->
  (forall j, (j < length (m_xf d'))%nat ->
     m_xf d' !! j = Some (addr' <$> prefix_le (k :: S) (Z.of_nat j))) ->
  m_first_b d' = Some (addr' (prefix (omin k (kmin S)))) ->
  (exists b, m_heap d' !! np = Some b /\ bprefix b = prefix k /\
     prev_pred b = key_below S (prefix k) /\
     next_b b = addr <$> prefix_gt S (prefix k) /\
     forall v, holds (payload b) v <-> v = stored (suffix k)) ->
  (forall q b0, occupied S q -> m_heap d !! addr q = Some b0 ->
     exists b, m_heap d' !! addr q = Some b /\
       bprefix b = bprefix b0 /\ payload b = payload b0 /\
       prev_pred b = (if decide (prefix_gt S (prefix k) = Some q) then k else prev_pred b0) /\
       next_b b = (if decide (prefix_le S (prefix k) = Some q) then Some np else next_b b0)) ->
  Rep (k :: S) addr' d'.
Proof.
  intros R Hk Hfree np addr' Hsz Hmin Hmax Hlen Hxf Hfirst Hnew Hold.
  constructor.
  - intros k' [<-|Hin]; [assumption|]. now apply (rep_univ _ _ _ R).
  - assumption.
  - simpl. intros m [= <-]. assumption.
  - simpl. intros m [= <-]. assumption.
  - simpl. assumption.
  - assumption.
  - simpl. assumption.
  - intros q Hq. apply occupied_cons in Hq.
    destruct (Z.eq_dec q (prefix k)) as [->|Hne].
    + destruct Hnew as (b & Hb & Hbp & Hpp & Hnx & Hh).
      exists b. unfold addr'. rewrite addr_with_eq.
      split; [assumption|]. split; [assumption|]. split; [|split].
      * simpl. now rewrite Z.ltb_irrefl.
      * simpl. rewrite Z.ltb_irrefl. rewrite Hnx.
        destruct (prefix_gt S (prefix k)) as [g|] eqn:Eg; [|reflexivity]. simpl.
        destruct (prefix_gt_Some _ _ _ Eg) as [Hlt _].
        now rewrite addr_with_ne by lia.
      * intros v. rewrite Hh. split.
        -- intros ->. exists k. split; [now left|auto].
        -- intros (k' & [<-|Hin] & Hp & Hv); [auto|].
           exfalso. apply Hfree. exists k'. auto.
    + destruct Hq as [|Hq]; [contradiction|].
      destruct (rep_bucket _ _ _ R q Hq) as (b0 & Hb0 & Hbp0 & Hpp0 & Hnx0 & Hh0).
      destruct (Hold q b0 Hq Hb0) as (b & Hb & Hbp & Hpl & Hpp & Hnx).
      exists b. unfold addr'. rewrite addr_with_ne by assumption.
      split; [assumption|]. split; [congruence|]. split; [|split].
      * rewrite Hpp. destruct (decide (prefix_gt S (prefix k) = Some q)) as [Hs|Hs].
        -- symmetry. apply key_below_cons_succ; auto. apply Hk.
        -- rewrite Hpp0. symmetry. now apply key_below_cons_other.
      * rewrite Hnx. destruct (decide (prefix_le S (prefix k) = Some q)) as [Hs|Hs].
        -- rewrite prefix_gt_cons_pred by assumption. simpl.
           now rewrite addr_with_eq.
        -- rewrite prefix_gt_cons_other by assumption. rewrite Hnx0.
           destruct (prefix_gt S q) as [g|] eqn:Eg; [|reflexivity]. simpl.
           destruct (prefix_gt_Some _ _ _ Eg) as [_ Hog].
           rewrite addr_with_ne; [reflexivity|]. intros ->. contradiction.
      * intros v. rewrite Hpl, (Hh0 v). split.
        -- intros (k' & Hin & Hp & Hv). exists k'. split; [now right|auto].
        -- intros (k' & [<-|Hin] & Hp & Hv); [congruence|]. exists k'. auto.
Qed.

(** *** The first insertion *)

Lemma insert_first addr k d :
  Rep [] addr d -> in_universe k ->
  exists d', insert k d = Some (tt, d') /\
    Rep [k] (addr_with addr (prefix k) (length (m_heap d))) d'.
Proof.
  intros R Hk. pose proof (prefix_range k Hk) as Hkp.
  pose proof (add64_prefix k Hk) as Hadd.
  assert (Hfree : ~ occupied [] (prefix k)) by (intros (k' & [] & _)).
  pose proof (rep_size _ _ _ R) as Hsz. pose proof (rep_len _ _ _ R) as Hlen.
  pose proof (rep_first _ _ _ R) as Hfirst.
  destruct d as [sz mn mx xf fb hp]. unfold xf_size in *. simpl in *.
  assert (xf = []) by (destruct xf; [reflexivity|simpl in Hlen; lia]).
  subst xf sz fb.
  unfold insert. red_state. change (Z.of_nat (length (@nil (option ptr)))) with 0.
  ztest. cbn [negb]. red_state.
  rewrite bind_new_bucket.
  rewrite !bind_assign_new by reflexivity. red_state.
  rewrite bind_assign_new by reflexivity. red_state.
  rewrite Hadd.
  match goal with |- exists d', update_xfast _ _ _ ?d1 = _ /\ _ =>
    destruct (update_xfast_spec [] addr k (length hp) d1 Hk) as
      (d' & Hrun & Hsz' & Hmin' & Hmax' & Hfb' & Hhp' & Hlen' & Hxf')
  end.
  { unfold xf_size. simpl. rewrite length_resize. lia. }
  { assumption. }
  { simpl. intros j Hj. rewrite length_resize in Hj.
    rewrite lookup_resize_new by (simpl; lia). reflexivity. }
  { intros q (k' & [] & _). }
  simpl in *. exists d'. split; [assumption|].
  apply (Rep_cons_new [] addr (mkDynIndex 0 mn mx [] None hp) k d' R Hk Hfree); simpl.
  - rewrite Hsz'. reflexivity.
  - rewrite Hmin'. lia.
  - rewrite Hmax'. lia.
  - unfold xf_size. rewrite Hlen', length_resize. lia.
  - intros j Hj. apply Hxf'. lia.
  - rewrite Hfb'. now rewrite addr_with_eq.
  - rewrite Hhp'. eexists. split; [apply list_lookup_middle; reflexivity|].
    rewrite set_keeps_bprefix, set_keeps_prev_pred, set_keeps_next_b. simpl.
    repeat split; try reflexivity; apply holds_new_bucket; reflexivity.
  - intros q b0 (k' & [] & _).
Qed.

(** *** Consequences of the invariant for a non-empty index *)

Lemma Rep_nonempty S addr d :
  Rep S addr d -> S <> [] ->
  exists mn mx, kmin S = Some mn /\ kmax S = Some mx /\
    m_min d = mn /\ m_max d = mx /\ m_size d = 1 /\
    xf_size d = prefix mx + 1 /\ m_first_b d = Some (addr (prefix mn)) /\
    In mn S /\ In mx S /\ (forall k, In k S -> mn <= k <= mx).
Proof.
  intros R Hne.
  destruct (kmin_is_Some S Hne) as [mn Hmn]. destruct (kmax_is_Some S Hne) as [mx Hmx].
  destruct (kmin_spec _ _ Hmn) as [Hin1 Hle1]. destruct (kmax_spec _ _ Hmx) as [Hin2 Hle2].
  exists mn, mx. repeat split; auto.
  - now apply (rep_min _ _ _ R).
  - now apply (rep_max _ _ _ R).
  - rewrite (rep_size _ _ _ R). destruct S; congruence.
  - rewrite (rep_len _ _ _ R), Hmx. reflexivity.
  - rewrite (rep_first _ _ _ R), Hmn. reflexivity.
Qed.

Lemma occupied_in S k : In k S -> occupied S (prefix k).
Proof. intros H. exists k. auto. Qed.

Lemma prefix_le_top S mx j :
  In mx S -> (forall k, In k S -> k <= mx) -> prefix mx <= j ->
  prefix_le S j = Some (prefix mx).
Proof.
  intros Hin Hmax Hj.
  destruct (prefix_le_ge S j (prefix mx) (occupied_in _ _ Hin) Hj) as (g & Hg & Hge).
  destruct (prefix_le_Some _ _ _ Hg) as [_ (k' & Hk' & Hp)].
  pose proof (prefix_mono _ _ (Hmax k' Hk')). rewrite Hg. f_equal. lia.
Qed.

Lemma prefix_gt_top S mx q :
  (forall k, In k S -> k <= mx) -> prefix mx <= q -> prefix_gt S q = None.
Proof.
  intros Hmax Hq. destruct (prefix_gt S q) as [g|] eqn:Eg; [|reflexivity].
  destruct (prefix_gt_Some _ _ _ Eg) as [Hlt (k' & Hk' & Hp)].
  pose proof (prefix_mono _ _ (Hmax k' Hk')). lia.
Qed.

Lemma prefix_le_bottom S mn j :
  (forall k, In k S -> mn <= k) -> j < prefix mn -> prefix_le S j = None.
Proof.
  intros Hmin Hj. destruct (prefix_le S j) as [g|] eqn:Eg; [|reflexivity].
  destruct (prefix_le_Some _ _ _ Eg) as [Hlt (k' & Hk' & Hp)].
  pose proof (prefix_mono _ _ (Hmin k' Hk')). lia.
Qed.

Lemma prefix_gt_bottom S mn q :
  In mn S -> (forall k, In k S -> mn <= k) -> q < prefix mn ->
  prefix_gt S q = Some (prefix mn).
Proof.
  intros Hin Hmin Hq.
  destruct (prefix_gt_le S q (prefix mn) (occupied_in _ _ Hin) Hq) as (g & Hg & Hge).
  destruct (prefix_gt_Some _ _ _ Hg) as [_ (k' & Hk' & Hp)].
  pose proof (prefix_mono _ _ (Hmin k' Hk')). rewrite Hg. f_equal. lia.
Qed.

Lemma key_below_bottom S mn q :
  (forall k, In k S -> mn <= k) -> q <= prefix mn -> key_below S q = 0.
Proof.
  intros Hmin Hq. destruct (key_below_in S q) as [[H _]|[Hin Hp]]; [assumption|].
  pose proof (prefix_mono _ _ (Hmin _ Hin)). lia.
Qed.

Lemma key_below_top S mx q :
  In mx S -> (forall k, In k S -> k <= mx) -> 0 <= mx -> prefix mx < q ->
  key_below S q = mx.
Proof.
  intros Hin Hmax H0 Hq. pose proof (key_below_ge S q mx Hin Hq) as Hge.
  destruct (key_below_in S q) as [[H _]|[Hin' Hp]]; [lia|].
  specialize (Hmax _ Hin'). lia.
Qed.

Lemma Rep_addr_inj S addr d q q' :
  Rep S addr d -> occupied S q -> occupied S q' -> addr q = addr q' -> q = q'.
Proof.
  intros R Hq Hq' He.
  destruct (rep_bucket _ _ _ R q Hq) as (b & Hb & Hbp & _).
  destruct (rep_bucket _ _ _ R q' Hq') as (b' & Hb' & Hbp' & _).
  rewrite He in Hb. congruence.
Qed.

Lemma Rep_addr_lt S addr d q :
  Rep S addr d -> occupied S q -> (addr q < length (m_heap d))%nat.
Proof.
  intros R Hq. destruct (rep_bucket _ _ _ R q Hq) as (b & Hb & _).
  eapply lookup_lt_Some, Hb.
Qed.

Lemma bind_xf_back {B} (p : option ptr) (k : option ptr -> M B) d :
  last (m_xf d) = Some p -> bind xf_back k d = k p d.
Proof. intros H. unfold bind, xf_back. now rewrite H. Qed.

(** Case analysis on the first decision in the goal. *)
Ltac case_dec H :=
  match goal with
  | |- context [@decide ?P ?i] => destruct (@decide P i) as [H|H]; simpl
  end.

Lemma lookup_upd1 (hp : list (bucket_of C)) a x b0 nb i :
  hp !! i = Some b0 ->
  (<[a := x]> hp ++ [nb]) !! i = Some (if decide (a = i) then x else b0).
Proof.
  intros H. pose proof (lookup_lt_Some _ _ _ H) as Hlt.
  rewrite lookup_app_l by (now rewrite length_insert).
  destruct (decide (a = i)) as [->|Hne].
  - now apply list_lookup_insert_eq.
  - now rewrite list_lookup_insert_ne.
Qed.

Lemma lookup_upd2 (hp : list (bucket_of C)) a1 x1 a0 x0 b0 nb i :
  hp !! i = Some b0 ->
  (<[a1 := x1]> (<[a0 := x0]> hp) ++ [nb]) !! i =
  Some (if decide (a1 = i) then x1 else if decide (a0 = i) then x0 else b0).
Proof.
  intros H. pose proof (lookup_lt_Some _ _ _ H) as Hlt.
  rewrite lookup_app_l by (now rewrite !length_insert).
  destruct (decide (a1 = i)) as [->|Hne1].
  - apply list_lookup_insert_eq. now rewrite length_insert.
  - rewrite list_lookup_insert_ne by assumption.
    destruct (decide (a0 = i)) as [->|Hne0].
    + now apply list_lookup_insert_eq.
    + now rewrite list_lookup_insert_ne.
Qed.

(** *** Insertion above the current top array *)

Lemma insert_append S addr k d :
  Rep S addr d -> S <> [] -> in_universe k -> xf_size d <= prefix k ->
  exists d', insert k d = Some (tt, d') /\
    Rep (k :: S) (addr_with addr (prefix k) (length (m_heap d))) d'.
Proof.
  intros R Hne Hk Hge. pose proof (prefix_range k Hk) as Hkp.
  pose proof (add64_prefix k Hk) as Hadd.
  destruct (Rep_nonempty _ _ _ R Hne) as
    (mn & mx & Hkmin & Hkmax & Hmn & Hmx & Hsz & Hlen & Hfb & Hinmn & Hinmx & Hbnd).
  assert (Hmaxle : forall k', In k' S -> k' <= mx) by (intros; now apply Hbnd).
  assert (Hminle : forall k', In k' S -> mn <= k') by (intros; now apply Hbnd).
  assert (Hfree : ~ occupied S (prefix k)).
  { intros (k' & Hk' & Hp). pose proof (prefix_mono _ _ (proj2 (Hbnd k' Hk'))). lia. }
  pose proof (rep_univ _ _ _ R mx Hinmx) as Humx.
  pose proof (prefix_range mx Humx) as Hpmx.
  destruct (rep_bucket _ _ _ R _ (occupied_in _ _ Hinmx)) as
    (bmax & Hbmax & Hbpmax & Hppmax & Hnxmax & Hhmax).
  assert (Hback : last (m_xf d) = Some (Some (addr (prefix mx)))).
  { rewrite last_lookup. unfold xf_size in Hlen.
    rewrite (rep_xf _ _ _ R) by lia.
    replace (Z.of_nat (Init.Nat.pred (length (m_xf d)))) with (prefix mx) by lia.
    rewrite prefix_le_occupied by (now apply occupied_in). reflexivity. }
  pose proof (rep_xf _ _ _ R) as Hxf.
  destruct d as [sz mn' mx' xf fb hp]. unfold xf_size in *. simpl in *.
  subst sz mn' mx' fb.
  unfold insert. red_state. ztest. cbn [negb]. red_state.
  rewrite bind_new_bucket.
  rewrite !bind_assign_new by reflexivity.
  erewrite bind_xf_back by (simpl; exact Hback).
  erewrite bind_assign_old by exact Hbmax. red_state. rewrite Hadd.
  assert (Hkmx : mx < k) by (apply prefix_lt; lia).
  match goal with |- exists d', update_xfast _ _ _ ?d1 = _ /\ _ =>
    destruct (update_xfast_spec S addr k (length hp) d1 Hk) as
      (d' & Hrun & Hsz' & Hmin' & Hmax' & Hfb' & Hhp' & Hlen' & Hxf')
  end.
  { unfold xf_size. simpl. rewrite length_resize. lia. }
  { assumption. }
  { simpl. intros j Hj. rewrite length_resize in Hj.
    destruct (Nat.lt_ge_cases j (length xf)) as [Hlow|Hhigh].
    - rewrite lookup_resize by lia. now apply Hxf.
    - rewrite lookup_resize_new by lia.
      rewrite (prefix_le_top S mx) by (auto; lia). reflexivity. }
  { simpl. intros q Hq.
    destruct (rep_bucket _ _ _ R q Hq) as (b0 & Hb0 & Hbp0 & _). simpl in Hb0.
    erewrite lookup_upd1 by exact Hb0. eexists. split; [reflexivity|].
    case_dec He; [|assumption].
    rewrite He in Hbmax. congruence. }
  simpl in *. exists d'. split; [assumption|].
  apply (Rep_cons_new S addr _ k d' R Hk Hfree); simpl.
  - congruence.
  - rewrite Hmin', Hkmin. reflexivity.
  - rewrite Hmax', Hkmax. reflexivity.
  - unfold xf_size. rewrite Hlen', length_resize, Hkmax. simpl.
    rewrite Z.max_l by lia. lia.
  - intros j Hj. apply Hxf'. lia.
  - rewrite Hfb', Hkmin. simpl. rewrite Z.min_r by (specialize (Hbnd mn Hinmn); lia).
    rewrite addr_with_ne; [reflexivity|].
    pose proof (prefix_mono _ _ (proj2 (Hbnd mn Hinmn))). lia.
  - rewrite Hhp'. eexists.
    split; [apply list_lookup_middle; now rewrite length_insert|].
    simpl. rewrite set_keeps_bprefix, set_keeps_next_b. simpl.
    rewrite (prefix_gt_top S mx) by (auto; lia).
    rewrite (key_below_top S mx) by (auto; try apply Humx; lia).
    repeat split; try reflexivity; apply holds_new_bucket; reflexivity.
  - intros q b0 Hq Hb0. rewrite Hhp'. erewrite lookup_upd1 by exact Hb0.
    eexists. split; [reflexivity|].
    rewrite (prefix_gt_top S mx) by (auto; lia).
    rewrite (prefix_le_top S mx) by (auto; lia).
    case_dec He.
    + assert (prefix mx = q)
        by (eapply Rep_addr_inj; eauto using occupied_in).
      subst q. rewrite Hb0 in Hbmax. injection Hbmax as ->.
      repeat split. case_dec Hx; [reflexivity|congruence].
    + repeat split. case_dec Hx; [|reflexivity].
      injection Hx as <-. congruence.
Qed.

(** *** Insertion before the first bucket *)

Lemma insert_before S addr k d :
  Rep S addr d -> S <> [] -> in_universe k ->
  prefix k < xf_size d -> prefix k < prefix (m_min d) ->
  exists d', insert k d = Some (tt, d') /\
    Rep (k :: S) (addr_with addr (prefix k) (length (m_heap d))) d'.
Proof.
  intros R Hne Hk Hlt Hbefore. pose proof (prefix_range k Hk) as Hkp.
  destruct (Rep_nonempty _ _ _ R Hne) as
    (mn & mx & Hkmin & Hkmax & Hmn & Hmx & Hsz & Hlen & Hfb & Hinmn & Hinmx & Hbnd).
  assert (Hmaxle : forall k', In k' S -> k' <= mx) by (intros; now apply Hbnd).
  assert (Hminle : forall k', In k' S -> mn <= k') by (intros; now apply Hbnd).
  rewrite Hmn in Hbefore.
  assert (Hfree : ~ occupied S (prefix k)).
  { intros (k' & Hk' & Hp). pose proof (prefix_mono _ _ (Hminle k' Hk')). lia. }
  assert (Hkmn : k < mn) by (apply prefix_lt; lia).
  destruct (rep_bucket _ _ _ R _ (occupied_in _ _ Hinmn)) as
    (bmin & Hbmin & Hbpmin & Hppmin & Hnxmin & Hhmin).
  pose proof (rep_xf _ _ _ R) as Hxf.
  destruct d as [sz mn' mx' xf fb hp]. unfold xf_size in *. simpl in *.
  subst sz mn' mx' fb.
  unfold insert. red_state. ztest. red_state.
  erewrite bind_assign by (simpl; exact Hbmin). red_state.
  rewrite bind_new_bucket. rewrite length_insert.
  rewrite !bind_assign_new by (now rewrite length_insert). red_state.
  rewrite bind_assign_new by (now rewrite length_insert).
  match goal with |- exists d', update_xfast _ _ _ ?d1 = _ /\ _ =>
    destruct (update_xfast_spec S addr k (length hp) d1 Hk) as
      (d' & Hrun & Hsz' & Hmin' & Hmax' & Hfb' & Hhp' & Hlen' & Hxf')
  end.
  { unfold xf_size. simpl. lia. }
  { assumption. }
  { simpl. assumption. }
  { simpl. intros q Hq.
    destruct (rep_bucket _ _ _ R q Hq) as (b0 & Hb0 & Hbp0 & _). simpl in Hb0.
    erewrite lookup_upd1 by exact Hb0. eexists. split; [reflexivity|].
    case_dec He; [|assumption].
    rewrite He in Hbmin. congruence. }
  simpl in *. exists d'. split; [assumption|].
  apply (Rep_cons_new S addr _ k d' R Hk Hfree); simpl.
  - congruence.
  - rewrite Hmin', Hkmin. reflexivity.
  - rewrite Hmax', Hkmax. reflexivity.
  - unfold xf_size. rewrite Hlen', Hkmax. simpl.
    rewrite Z.max_r by (specialize (Hbnd mn Hinmn); lia). lia.
  - intros j Hj. apply Hxf'. lia.
  - rewrite Hfb', Hkmin. simpl. rewrite Z.min_l by lia.
    now rewrite addr_with_eq.
  - rewrite Hhp'. eexists.
    split; [apply list_lookup_middle; now rewrite length_insert|].
    rewrite set_keeps_bprefix, set_keeps_prev_pred, set_keeps_next_b. simpl.
    rewrite (prefix_gt_bottom S mn) by (auto; lia).
    rewrite (key_below_bottom S mn) by (auto; lia).
    repeat split; try reflexivity; apply holds_new_bucket; reflexivity.
  - intros q b0 Hq Hb0. rewrite Hhp'. erewrite lookup_upd1 by exact Hb0.
    eexists. split; [reflexivity|].
    rewrite (prefix_gt_bottom S mn) by (auto; lia).
    rewrite (prefix_le_bottom S mn) by (auto; lia).
    case_dec He.
    + assert (prefix mn = q)
        by (eapply Rep_addr_inj; eauto using occupied_in).
      subst q. rewrite Hb0 in Hbmin. injection Hbmin as ->.
      repeat split. case_dec Hx; [reflexivity|congruence].
    + repeat split. case_dec Hx; [|reflexivity].
      injection Hx as <-. congruence.
Qed.

(** *** Insertion into an existing bucket *)

Lemma prefix_le_cons_occupied S k j :
  occupied S (prefix k) -> prefix_le (k :: S) j = prefix_le S j.
Proof.
  intros Hocc. simpl. destruct (Z.leb_spec (prefix k) j) as [Hle|]; [|reflexivity].
  destruct (prefix_le_ge S j _ Hocc Hle) as (g & -> & Hg). simpl. f_equal. lia.
Qed.

Lemma kmin_cons_prefix S k mn :
  kmin S = Some mn -> prefix mn <= prefix k ->
  prefix (omin k (kmin S)) = prefix mn.
Proof.
  intros -> Hle. simpl. destruct (Z.min_spec k mn) as [[Hlt ->]|[_ ->]]; [|reflexivity].
  pose proof (prefix_mono k mn ltac:(lia)). lia.
Qed.

Lemma kmax_cons_prefix S k mx :
  kmax S = Some mx -> prefix k <= prefix mx ->
  prefix (omax k (kmax S)) = prefix mx.
Proof.
  intros -> Hle. simpl. destruct (Z.max_spec k mx) as [[Hlt ->]|[Hge ->]]; [reflexivity|].
  pose proof (prefix_mono mx k ltac:(lia)). lia.
Qed.

Lemma holds_keys_cons_other S k q c :
  q <> prefix k -> holds_keys S q c -> holds_keys (k :: S) q c.
Proof.
  intros Hne H v. rewrite (H v). split.
  - intros (k' & Hin & Hp & Hv). exists k'. split; [now right|auto].
  - intros (k' & [<-|Hin] & Hp & Hv); [congruence|]. exists k'. auto.
Qed.

Lemma Rep_cons_exact S addr d k d' :
  Rep S addr d -> in_universe k -> occupied S (prefix k) ->
  m_size d' = 1 ->
  m_min d' = omin k (kmin S) ->
  m_max d' = omax k (kmax S) ->
  m_xf d' = m_xf d ->
  m_first_b d' = m_first_b d ->
  (forall q b0, occupied S q -> m_heap d !! addr q = Some b0 ->
     exists b, m_heap d' !! addr q = Some b /\
       bprefix b = bprefix b0 /\ next_b b = next_b b0 /\
       payload b = (if decide (q = prefix k) then payload (set (suffix k) b0)
                    else payload b0) /\
       prev_pred b = (if decide (prefix_gt S (prefix k) = Some q)
                      then Z.max k (prev_pred b0) else prev_pred b0)) ->
  Rep (k :: S) addr d'.
Proof.
  intros R Hk Hocc Hsz Hmin Hmax Hxf Hfirst Hold.
  assert (Hne : S <> []) by (destruct Hocc as (k' & Hk' & _); intros ->; destruct Hk').
  destruct (Rep_nonempty _ _ _ R Hne) as
    (mn & mx & Hkmin & Hkmax & Hmn & Hmx & _ & Hlen & Hfb & Hinmn & Hinmx & Hbnd).
  assert (Hrange : prefix mn <= prefix k <= prefix mx).
  { destruct Hocc as (k' & Hk' & <-).
    split; apply prefix_mono; now apply Hbnd. }
  constructor.
  - intros k' [<-|Hin]; [assumption|]. now apply (rep_univ _ _ _ R).
  - assumption.
  - simpl. intros m [= <-]. assumption.
  - simpl. intros m [= <-]. assumption.
  - simpl. unfold xf_size in *. rewrite Hxf, Hlen.
    rewrite (kmax_cons_prefix S k mx) by (auto; lia). reflexivity.
  - rewrite Hxf. intros j Hj. rewrite prefix_le_cons_occupied by assumption.
    now apply (rep_xf _ _ _ R).
  - simpl. rewrite Hfirst, Hfb.
    rewrite (kmin_cons_prefix S k mn) by (auto; lia). reflexivity.
  - intros q Hq. apply occupied_cons in Hq.
    assert (Hq' : occupied S q) by (destruct Hq as [->|]; assumption).
    destruct (rep_bucket _ _ _ R q Hq') as (b0 & Hb0 & Hbp0 & Hpp0 & Hnx0 & Hh0).
    destruct (Hold q b0 Hq' Hb0) as (b & Hb & Hbp & Hnx & Hpl & Hpp).
    exists b. split; [assumption|]. split; [congruence|]. split; [|split].
    + rewrite Hpp. destruct (decide (prefix_gt S (prefix k) = Some q)) as [Hs|Hs].
      * destruct (prefix_gt_Some _ _ _ Hs) as [Hlt _]. simpl.
        destruct (Z.ltb_spec (prefix k) q); [|lia]. congruence.
      * rewrite Hpp0. symmetry. now apply key_below_cons_other.
    + rewrite Hnx, Hnx0. f_equal. symmetry.
      destruct (Z.eq_dec q (prefix k)) as [->|Hqk].
      * simpl. now rewrite Z.ltb_irrefl.
      * apply prefix_gt_cons_other; [assumption|].
        rewrite prefix_le_occupied by assumption. congruence.
    + rewrite Hpl. destruct (decide (q = prefix k)) as [->|Hqk].
      * intros v. rewrite holds_set by apply suffix_range. rewrite (Hh0 v). split.
        -- intros [->|(k' & Hin & Hp & Hv)].
           ++ exists k. split; [now left|auto].
           ++ exists k'. split; [now right|auto].
        -- intros (k' & [<-|Hin] & Hp & Hv); [now left|].
           right. exists k'. auto.
      * now apply holds_keys_cons_other.
Qed.

Lemma insert_exact S addr k d :
  Rep S addr d -> in_universe k -> occupied S (prefix k) ->
  exists d', insert k d = Some (tt, d') /\ Rep (k :: S) addr d'.
Proof.
  intros R Hk Hocc. pose proof (prefix_range k Hk) as Hkp.
  assert (Hne : S <> []) by (destruct Hocc as (k' & Hk' & _); intros ->; destruct Hk').
  destruct (Rep_nonempty _ _ _ R Hne) as
    (mn & mx & Hkmin & Hkmax & Hmn & Hmx & Hsz & Hlen & Hfb & Hinmn & Hinmx & Hbnd).
  assert (Hmaxle : forall k', In k' S -> k' <= mx) by (intros; now apply Hbnd).
  assert (Hminle : forall k', In k' S -> mn <= k') by (intros; now apply Hbnd).
  assert (Hrange : prefix mn <= prefix k <= prefix mx).
  { destruct Hocc as (k' & Hk' & <-).
    split; apply prefix_mono; now apply Hbnd. }
  destruct (rep_bucket _ _ _ R _ Hocc) as (kb & Hkb & Hbpk & Hppk & Hnxk & Hhk).
  pose proof (rep_xf _ _ _ R) as Hxf.
  pose proof (rep_bucket _ _ _ R) as Hbuckets.
  destruct d as [sz mn' mx' xf fb hp]. unfold xf_size in *. simpl in *.
  subst sz mn' mx' fb.
  assert (Hload : xf !! Z.to_nat (prefix k) = Some (Some (addr (prefix k)))).
  { rewrite Hxf by lia. rewrite Z2Nat.id by lia.
    now rewrite prefix_le_occupied. }
  unfold insert. red_state. ztest. red_state.
  erewrite bind_xf_load by (simpl; first [lia|exact Hload]).
  erewrite bind_deref by (simpl; exact Hkb).
  rewrite Hbpk, Z.eqb_refl. red_state.
  erewrite bind_assign by (simpl; exact Hkb). red_state.
  assert (Hlk : (addr (prefix k) < length hp)%nat) by (eapply lookup_lt_Some, Hkb).
  erewrite bind_deref by (simpl; now apply list_lookup_insert_eq).
  rewrite set_keeps_next_b, Hnxk.
  destruct (prefix_gt S (prefix k)) as [q1|] eqn:Eq1; cbn [fmap option_fmap option_map].
  - destruct (prefix_gt_Some _ _ _ Eq1) as [Hlt1 Hocc1].
    destruct (Hbuckets q1 Hocc1) as (nb & Hnb & Hbpn & Hppn & Hnxn & Hhn).
    assert (Hna : addr (prefix k) <> addr q1).
    { intros He. assert (prefix k = q1) by (eapply Rep_addr_inj; eauto). lia. }
    rewrite bind_bind.
    erewrite bind_deref by (simpl; rewrite list_lookup_insert_ne by assumption; exact Hnb).
    erewrite bind_assign by (simpl; rewrite list_lookup_insert_ne by assumption; exact Hnb).
    red_state. eexists. split; [reflexivity|].
    apply (Rep_cons_exact S addr _ k _ R Hk Hocc); simpl;
      try reflexivity; try (rewrite ?Hkmin, ?Hkmax; reflexivity).
    intros q b0 Hq Hb0.
    destruct (Z.eq_dec q q1) as [->|Hq1]; [|destruct (Z.eq_dec q (prefix k)) as [->|Hqk]].
    + rewrite Hb0 in Hnb. injection Hnb as ->.
      rewrite list_lookup_insert_eq
        by (rewrite length_insert; eapply lookup_lt_Some, Hb0).
      eexists. split; [reflexivity|]. simpl. repeat split.
      * case_dec Hx; [lia|reflexivity].
      * case_dec Hx; [reflexivity|congruence].
    + rewrite Hb0 in Hkb. injection Hkb as ->.
      rewrite list_lookup_insert_ne by (intros He; apply Hq1; symmetry; eapply Rep_addr_inj; eauto).
      rewrite list_lookup_insert_eq by assumption.
      eexists. split; [reflexivity|].
      rewrite set_keeps_bprefix, set_keeps_next_b, set_keeps_prev_pred. repeat split.
      * case_dec Hx; [reflexivity|congruence].
      * case_dec Hx; [rewrite Eq1 in Hx; injection Hx as Hx; lia|reflexivity].
    + rewrite !list_lookup_insert_ne
        by (intros He;
            first [ solve [apply Hq1; symmetry; eapply Rep_addr_inj; eauto]
                  | solve [apply Hqk; symmetry; eapply Rep_addr_inj; eauto] ]).
      exists b0. split; [assumption|]. repeat split.
      * case_dec Hx; [congruence|reflexivity].
      * case_dec Hx; [congruence|reflexivity].
  - rewrite bind_ret. red_state. eexists. split; [reflexivity|].
    apply (Rep_cons_exact S addr _ k _ R Hk Hocc); simpl;
      try reflexivity; try (rewrite ?Hkmin, ?Hkmax; reflexivity).
    intros q b0 Hq Hb0.
    destruct (Z.eq_dec q (prefix k)) as [->|Hqk].
    + rewrite Hb0 in Hkb. injection Hkb as ->.
      rewrite list_lookup_insert_eq by assumption.
      eexists. split; [reflexivity|].
      rewrite set_keeps_bprefix, set_keeps_next_b, set_keeps_prev_pred. repeat split.
      * case_dec Hx; [reflexivity|congruence].
      * case_dec Hx; [congruence|reflexivity].
    + rewrite !list_lookup_insert_ne
        by (intros He; apply Hqk; symmetry; eapply Rep_addr_inj; eauto).
      exists b0. split; [assumption|]. repeat split.
      * case_dec Hx; [congruence|reflexivity].
      * case_dec Hx; [congruence|reflexivity].
Qed.

(** *** Insertion of a new bucket between two existing ones *)

Lemma prefix_gt_gap S kp q0 :
  prefix_le S kp = Some q0 -> prefix_gt S q0 = prefix_gt S kp.
Proof.
  intros H0. destruct (prefix_le_Some _ _ _ H0) as [Hle Hocc0].
  destruct (prefix_gt S kp) as [g|] eqn:Eg.
  - destruct (prefix_gt_Some _ _ _ Eg) as [Hlt Hog].
    destruct (prefix_gt_le S q0 g Hog ltac:(lia)) as (g' & Hg' & Hle').
    rewrite Hg'. f_equal.
    destruct (prefix_gt_Some _ _ _ Hg') as [Hlt' Hog'].
    destruct (Z.le_gt_cases g' kp) as [Hin|Hout].
    + destruct (prefix_le_ge S kp g' Hog' Hin) as (g2 & Hg2 & Hge2).
      rewrite H0 in Hg2. injection Hg2 as <-. lia.
    + destruct (prefix_gt_le S kp g' Hog' Hout) as (g2 & Hg2 & Hge2).
      rewrite Eg in Hg2. injection Hg2 as <-. lia.
  - destruct (prefix_gt S q0) as [g'|] eqn:Eg'; [|reflexivity].
    destruct (prefix_gt_Some _ _ _ Eg') as [Hlt' Hog'].
    destruct (Z.le_gt_cases g' kp) as [Hin|Hout].
    + destruct (prefix_le_ge S kp g' Hog' Hin) as (g2 & Hg2 & Hge2).
      rewrite H0 in Hg2. injection Hg2 as <-. lia.
    + pose proof (prefix_gt_None S kp g' Eg Hog'). lia.
Qed.

Lemma insert_gap S addr k d :
  Rep S addr d -> S <> [] -> in_universe k ->
  prefix k < xf_size d -> prefix (m_min d) <= prefix k ->
  ~ occupied S (prefix k) ->
  exists d', insert k d = Some (tt, d') /\
    Rep (k :: S) (addr_with addr (prefix k) (length (m_heap d))) d'.
Proof.
  intros R Hne Hk Hlt Hafter Hfree. pose proof (prefix_range k Hk) as Hkp.
  destruct (Rep_nonempty _ _ _ R Hne) as
    (mn & mx & Hkmin & Hkmax & Hmn & Hmx & Hsz & Hlen & Hfb & Hinmn & Hinmx & Hbnd).
  assert (Hmaxle : forall k', In k' S -> k' <= mx) by (intros; now apply Hbnd).
  assert (Hminle : forall k', In k' S -> mn <= k') by (intros; now apply Hbnd).
  rewrite Hmn in Hafter.
  (* the bucket below and the bucket above *)
  destruct (prefix_le_ge S (prefix k) (prefix mn) (occupied_in _ _ Hinmn) Hafter)
    as (q0 & Hq0 & Hq0ge).
  destruct (prefix_le_Some _ _ _ Hq0) as [Hq0le Hocc0].
  assert (Hq0lt : q0 < prefix k)
    by (destruct (Z.eq_dec q0 (prefix k)) as [->|]; [contradiction|lia]).
  destruct (prefix_gt_le S (prefix k) (prefix mx) (occupied_in _ _ Hinmx)) as (q1 & Hq1 & Hq1le).
  { destruct (Z.eq_dec (prefix k) (prefix mx)) as [He|]; [|lia].
    exfalso. apply Hfree. rewrite He. now apply occupied_in. }
  destruct (prefix_gt_Some _ _ _ Hq1) as [Hq1gt Hocc1].
  pose proof (prefix_gt_gap S _ _ Hq0) as Hgap. rewrite Hq1 in Hgap.
  destruct (rep_bucket _ _ _ R _ Hocc0) as (kb & Hkb & Hbpk & Hppk & Hnxk & Hhk).
  destruct (rep_bucket _ _ _ R _ Hocc1) as (nb & Hnb & Hbpn & Hppn & Hnxn & Hhn).
  rewrite Hgap in Hnxk. simpl in Hnxk.
  assert (Hna : addr q0 <> addr q1).
  { intros He. assert (q0 = q1) by (eapply Rep_addr_inj; eauto). lia. }
  pose proof (rep_xf _ _ _ R) as Hxf.
  pose proof (rep_bucket _ _ _ R) as Hbuckets.
  destruct d as [sz mn' mx' xf fb hp]. unfold xf_size in *. simpl in *.
  subst sz mn' mx' fb.
  assert (Hload : xf !! Z.to_nat (prefix k) = Some (Some (addr q0))).
  { rewrite Hxf by lia. rewrite Z2Nat.id by lia. now rewrite Hq0. }
  unfold insert. red_state. ztest. red_state.
  erewrite bind_xf_load by (simpl; first [lia|exact Hload]).
  erewrite bind_deref by (simpl; exact Hkb).
  rewrite Hbpk. ztest. red_state.
  rewrite bind_new_bucket.
  rewrite !bind_assign_new by reflexivity.
  erewrite bind_assign_old by exact Hkb.
  rewrite bind_deref_new by (now rewrite length_insert).
  rewrite set_keeps_next_b. cbn [next_b set_next_b]. rewrite Hnxk.
  erewrite bind_deref_old by (rewrite list_lookup_insert_ne by assumption; exact Hnb).
  rewrite bind_assign_new by (now rewrite length_insert).
  rewrite bind_deref_new by (now rewrite length_insert).
  cbn [next_b set_prev_pred]. rewrite set_keeps_next_b. cbn [next_b set_next_b].
  erewrite bind_assign_old by (rewrite list_lookup_insert_ne by assumption; exact Hnb).
  assert (Hkmn : mn < k).
  { apply prefix_lt. destruct (Z.eq_dec (prefix mn) (prefix k)) as [He|]; [|lia].
    exfalso. apply Hfree. rewrite <- He. now apply occupied_in. }
  match goal with |- exists d', update_xfast _ _ _ ?d1 = _ /\ _ =>
    destruct (update_xfast_spec S addr k (length hp) d1 Hk) as
      (d' & Hrun & Hsz' & Hmin' & Hmax' & Hfb' & Hhp' & Hlen' & Hxf')
  end.
  { unfold xf_size. simpl. lia. }
  { assumption. }
  { simpl. assumption. }
  { simpl. intros q Hq.
    destruct (Hbuckets q Hq) as (b0 & Hb0 & Hbp0 & _).
    erewrite lookup_upd2 by exact Hb0. eexists. split; [reflexivity|].
    case_dec He; [rewrite He in Hnb; congruence|].
    case_dec He'; [rewrite He' in Hkb; congruence|assumption]. }
  simpl in *. exists d'. split; [assumption|].
  apply (Rep_cons_new S addr _ k d' R Hk Hfree); simpl.
  - congruence.
  - rewrite Hmin', Hkmin. reflexivity.
  - rewrite Hmax', Hkmax. reflexivity.
  - unfold xf_size. rewrite Hlen'.
    rewrite (kmax_cons_prefix S k mx) by (auto; lia). lia.
  - intros j Hj. apply Hxf'. lia.
  - rewrite Hfb', Hkmin. simpl. rewrite Z.min_r by lia.
    rewrite addr_with_ne; [reflexivity|].
    intros He. apply Hfree. rewrite <- He. now apply occupied_in.
  - rewrite Hhp'. eexists.
    split; [apply list_lookup_middle; now rewrite !length_insert|].
    simpl. rewrite set_keeps_bprefix, set_keeps_next_b. simpl.
    rewrite Hq1, Hppn. simpl.
    repeat split; try reflexivity; [|apply holds_new_bucket; reflexivity..].
    symmetry. apply key_below_shift; [lia|].
    intros g Hg Hge.
    destruct (Z.eq_dec g (prefix k)) as [->|]; [contradiction|].
    destruct (prefix_gt_le S (prefix k) g Hg ltac:(lia)) as (g' & Hg' & Hle').
    rewrite Hq1 in Hg'. injection Hg' as <-. assumption.
  - intros q b0 Hq Hb0. rewrite Hhp'. erewrite lookup_upd2 by exact Hb0.
    eexists. split; [reflexivity|]. rewrite Hq1, Hq0.
    case_dec He; [|case_dec He'].
    + assert (q1 = q) by (eapply Rep_addr_inj; eauto). subst q.
      rewrite Hb0 in Hnb. injection Hnb as ->.
      repeat split.
      * case_dec Hx; [reflexivity|congruence].
      * case_dec Hx; [injection Hx as Hx; lia|reflexivity].
    + assert (q0 = q) by (eapply Rep_addr_inj; eauto). subst q.
      rewrite Hb0 in Hkb. injection Hkb as ->.
      repeat split.
      * case_dec Hx; [injection Hx as Hx; lia|reflexivity].
      * case_dec Hx; [reflexivity|congruence].
    + repeat split.
      * case_dec Hx; [injection Hx as Hx; congruence|reflexivity].
      * case_dec Hx; [injection Hx as Hx; congruence|reflexivity].
Qed.

(** *** Every insertion of a key of the universe keeps the invariant *)

Lemma insert_Rep S addr k d :
  Rep S addr d -> in_universe k ->
  exists d' addr', insert k d = Some (tt, d') /\ Rep (k :: S) addr' d'.
Proof.
  intros R Hk. destruct S as [|k0 S0].
  - destruct (insert_first addr k d R Hk) as (d' & H1 & H2). eauto.
  - set (S := k0 :: S0) in *. assert (Hne : S <> []) by discriminate.
    destruct (occupied_dec S (prefix k)) as [Hocc|Hfree].
    + destruct (insert_exact S addr k d R Hk Hocc) as (d' & H1 & H2). eauto.
    + destruct (Z.le_gt_cases (xf_size d) (prefix k)) as [Hge|Hlt].
      * destruct (insert_append S addr k d R Hne Hk Hge) as (d' & H1 & H2). eauto.
      * destruct (Z.lt_ge_cases (prefix k) (prefix (m_min d))) as [Hb|Ha].
        -- destruct (insert_before S addr k d R Hne Hk Hlt Hb) as (d' & H1 & H2). eauto.
        -- destruct (insert_gap S addr k d R Hne Hk Hlt Ha Hfree) as (d' & H1 & H2). eauto.
Qed.

Lemma inserts_Rep keys S addr d :
  Rep S addr d -> (forall k, In k keys -> in_universe k) ->
  exists d' addr', inserts keys d = Some d' /\ Rep (rev keys ++ S) addr' d'.
Proof.
  revert S addr d. induction keys as [|k r IH]; intros S addr d R Hu.
  - exists d, addr. split; [reflexivity|assumption].
  - destruct (insert_Rep S addr k d R (Hu k (or_introl eq_refl))) as (d1 & addr1 & H1 & R1).
    destruct (IH (k :: S) addr1 d1 R1 (fun k' Hk' => Hu k' (or_intror Hk')))
      as (d' & addr' & H2 & R2).
    exists d', addr'. simpl. rewrite H1. split; [assumption|].
    now rewrite <- app_assoc.
Qed.

(** The answer to the query [x] on the index built by inserting [keys], in
    this order, into a fresh index; [None] is undefined behaviour. *)
Definition predecessor_after (min0 max0 : Z) (keys : list Z) (x : Z) : option Result :=
  match inserts keys (DynIndex_new min0 max0) with
  | Some d => predecessor x d
  | None => None
  end.

(** ** The index built by a sequence of insertions *)

Lemma built_Rep keys min0 max0 :
  (forall k, In k keys -> in_universe k) ->
  exists d addr, inserts keys (DynIndex_new min0 max0) = Some d /\
    Rep (rev keys) addr d.
Proof.
  intros Hu.
  destruct (inserts_Rep keys [] (fun _ => O) _ (Rep_new min0 max0 _) Hu)
    as (d & addr & H & R).
  rewrite app_nil_r in R. eauto.
Qed.

Lemma rev_nonempty (keys : list Z) : keys <> [] -> rev keys <> [].
Proof.
  intros H He. apply H. rewrite <- (rev_involutive keys), He. reflexivity.
Qed.

Lemma occupied_rev keys q : occupied (rev keys) q <-> occupied keys q.
Proof.
  unfold occupied. split; intros (k & Hin & Hp); exists k; split; auto.
  - now apply <- in_rev.
  - now apply -> in_rev.
Qed.

(** *** Queries *)

Lemma predecessor_inside S addr d x mn mx :
  Rep S addr d -> kmin S = Some mn -> kmax S = Some mx -> mn <= x < mx ->
  exists q b, prefix_le S (prefix x) = Some q /\ prefix mn <= q /\
    m_xf d !! Z.to_nat (prefix x) = Some (Some (addr q)) /\
    m_heap d !! addr q = Some b /\ bprefix b = q /\
    prev_pred b = key_below S q /\ holds_keys S q (payload b) /\
    predecessor x d = Some (mkResult true (pred b (suffix x))).
Proof.
  intros R Hkmin Hkmax Hx.
  assert (Hne : S <> []) by (intros ->; discriminate).
  destruct (Rep_nonempty _ _ _ R Hne) as
    (mn' & mx' & Hkmin' & Hkmax' & Hmn & Hmx & Hsz & Hlen & Hfb & Hinmn & Hinmx & Hbnd).
  rewrite Hkmin in Hkmin'. rewrite Hkmax in Hkmax'.
  injection Hkmin' as <-. injection Hkmax' as <-.
  pose proof (prefix_range mn (rep_univ _ _ _ R mn Hinmn)) as Hpmn.
  pose proof (prefix_mono mn x ltac:(lia)) as Hp1.
  pose proof (prefix_mono x mx ltac:(lia)) as Hp2.
  destruct (prefix_le_ge S (prefix x) (prefix mn) (occupied_in _ _ Hinmn) Hp1)
    as (q & Hq & Hqge).
  destruct (prefix_le_Some _ _ _ Hq) as [Hqle Hocc].
  destruct (rep_bucket _ _ _ R q Hocc) as (b & Hb & Hbp & Hpp & Hnx & Hh).
  assert (Hload : m_xf d !! Z.to_nat (prefix x) = Some (Some (addr q))).
  { unfold xf_size in Hlen. rewrite (rep_xf _ _ _ R) by lia.
    rewrite Z2Nat.id by lia. now rewrite Hq. }
  exists q, b.
  split; [exact Hq|]. split; [exact Hqge|]. split; [exact Hload|].
  split; [exact Hb|]. split; [exact Hbp|]. split; [exact Hpp|]. split; [exact Hh|].
  unfold predecessor. rewrite Hsz, Hmn, Hmx. ztest.
  unfold xf_load. ztest. now rewrite Hload, Hb.
Qed.

(** C3. On the index built from no key [predecessor] returns [{false, 1}];
    on the index built from a non-empty sequence of keys it returns
    [{false, 0}] for every query below the least key and [{true, max}] for
    every query that is at least the greatest key [max].  The insertions
    themselves run without undefined behaviour. *)
Theorem predecessor_boundaries keys min0 max0 :
  (forall k, In k keys -> in_universe k) ->
  exists d, inserts keys (DynIndex_new min0 max0) = Some d /\
    (keys = [] -> forall x, predecessor x d = Some (mkResult false 1)) /\
    (forall x mn, In mn keys -> (forall k, In k keys -> mn <= k) -> x < mn ->
       predecessor x d = Some (mkResult false 0)) /\
    (forall x mx, In mx keys -> (forall k, In k keys -> k <= mx) -> mx <= x ->
       predecessor x d = Some (mkResult true mx)).
Proof.
  intros Hu. destruct (built_Rep keys min0 max0 Hu) as (d & addr & Hd & R).
  exists d. split; [assumption|]. split; [|split].
  - intros -> x. simpl in Hd. injection Hd as <-. reflexivity.
  - intros x mn Hin Hmin Hx.
    assert (Hne : rev keys <> []) by (apply rev_nonempty; intros ->; destruct Hin).
    destruct (Rep_nonempty _ _ _ R Hne) as
      (mn' & mx' & Hkmin & Hkmax & Hmn & Hmx & Hsz & _ & _ & Hinmn & Hinmx & Hbnd).
    assert (He : mn' = mn).
    { apply in_rev in Hinmn. pose proof (Hmin _ Hinmn).
      pose proof (proj1 (Hbnd mn (proj1 (in_rev _ _) Hin))). lia. }
    rewrite He in Hmn. unfold predecessor. rewrite Hsz, Hmn. ztest. reflexivity.
  - intros x mx Hin Hmax Hx.
    assert (Hne : rev keys <> []) by (apply rev_nonempty; intros ->; destruct Hin).
    destruct (Rep_nonempty _ _ _ R Hne) as
      (mn' & mx' & Hkmin & Hkmax & Hmn & Hmx & Hsz & _ & _ & Hinmn & Hinmx & Hbnd).
    assert (He : mx' = mx).
    { apply in_rev in Hinmx. pose proof (Hmax _ Hinmx).
      pose proof (proj2 (Hbnd mx (proj1 (in_rev _ _) Hin))). lia. }
    rewrite He in Hmx. unfold predecessor. rewrite Hsz, Hmn, Hmx.
    pose proof (Hbnd mn' Hinmn). ztest. reflexivity.
Qed.

(** C9. [m_size] is incremented by the first insertion only: after every
    non-empty sequence of insertions it is 1, whatever the number of keys,
    and [predecessor] returns the empty-index result [{false, 1}] exactly
    when no key has been inserted. *)
Theorem m_size_counts_first_insert_only keys min0 max0 :
  (forall k, In k keys -> in_universe k) ->
  exists d, inserts keys (DynIndex_new min0 max0) = Some d /\
    m_size d = (match keys with [] => 0 | _ => 1 end) /\
    forall x, predecessor x d = Some (mkResult false 1) <-> keys = [].
Proof.
  intros Hu. destruct (built_Rep keys min0 max0 Hu) as (d & addr & Hd & R).
  exists d. split; [assumption|].
  destruct keys as [|k0 r].
  - simpl in Hd. injection Hd as <-. split; [reflexivity|]. intros x. now split.
  - set (keys := k0 :: r) in *.
    assert (Hne : rev keys <> []) by (apply rev_nonempty; discriminate).
    destruct (Rep_nonempty _ _ _ R Hne) as
      (mn & mx & Hkmin & Hkmax & Hmn & Hmx & Hsz & _).
    split; [assumption|]. intros x. split; [|discriminate].
    unfold predecessor. rewrite Hsz. ztest.
    destruct (x <? m_min d); [discriminate|].
    destruct (m_max d <=? x); [discriminate|].
    destruct (xf_load (prefix x) d) as [[[a|] ?]|]; try discriminate.
    destruct (m_heap d !! a); discriminate.
Qed.

(** C10. In the index built by any sequence of insertions the last entry of
    [m_xf] points to a bucket whose prefix is [m_xf.size() - 1].  Therefore,
    whenever a further [insert] reaches the gap case -- the bucket stored at
    [m_xf[key_pre]] has a prefix strictly below [key_pre] -- that bucket's
    [next_b] points to a bucket, so [new_b->next_b->prev_pred] does not
    dereference null, and the insertion completes. *)
Theorem gap_case_next_bucket_exists keys min0 max0 k :
  (forall k', In k' keys -> in_universe k') -> in_universe k ->
  exists d, inserts keys (DynIndex_new min0 max0) = Some d /\
    (keys <> [] -> exists a b, last (m_xf d) = Some (Some a) /\
       m_heap d !! a = Some b /\ bprefix b = xf_size d - 1) /\
    (forall a kb, prefix k < xf_size d -> prefix (m_min d) <= prefix k ->
       m_xf d !! Z.to_nat (prefix k) = Some (Some a) ->
       m_heap d !! a = Some kb -> bprefix kb < prefix k ->
       exists a' nb, next_b kb = Some a' /\ m_heap d !! a' = Some nb) /\
    exists d', insert k d = Some (tt, d').
Proof.
  intros Hu Hk. destruct (built_Rep keys min0 max0 Hu) as (d & addr & Hd & R).
  exists d. split; [assumption|]. split; [|split].
  - intros Hne0. pose proof (rev_nonempty _ Hne0) as Hne.
    destruct (Rep_nonempty _ _ _ R Hne) as
      (mn & mx & Hkmin & Hkmax & Hmn & Hmx & Hsz & Hlen & Hfb & Hinmn & Hinmx & Hbnd).
    pose proof (prefix_range mx (rep_univ _ _ _ R mx Hinmx)) as Hpmx.
    destruct (rep_bucket _ _ _ R _ (occupied_in _ _ Hinmx)) as (b & Hb & Hbp & _).
    exists (addr (prefix mx)), b. repeat split; [|assumption|lia].
    rewrite last_lookup. unfold xf_size in Hlen.
    rewrite (rep_xf _ _ _ R) by lia.
    replace (Z.of_nat (Init.Nat.pred (length (m_xf d)))) with (prefix mx) by lia.
    rewrite prefix_le_occupied by (now apply occupied_in). reflexivity.
  - intros a kb Hlt Hge Hload Hkb Hbp.
    pose proof (prefix_range k Hk) as Hkp.
    assert (Hne : rev keys <> []).
    { intros He. rewrite He in R. pose proof (rep_len _ _ _ R) as Hl. simpl in Hl. lia. }
    destruct (Rep_nonempty _ _ _ R Hne) as
      (mn & mx & Hkmin & Hkmax & Hmn & Hmx & Hsz & Hlen & Hfb & Hinmn & Hinmx & Hbnd).
    unfold xf_size in *.
    rewrite (rep_xf _ _ _ R) in Hload by lia. rewrite Z2Nat.id in Hload by lia.
    destruct (prefix_le (rev keys) (prefix k)) as [q0|] eqn:Hq0; [|discriminate].
    simpl in Hload. injection Hload as <-.
    destruct (prefix_le_Some _ _ _ Hq0) as [Hq0le Hocc0].
    destruct (rep_bucket _ _ _ R _ Hocc0) as (kb' & Hkb' & Hbpk & _ & Hnxk & _).
    rewrite Hkb in Hkb'. injection Hkb' as <-.
    destruct (prefix_gt_le (rev keys) q0 (prefix mx) (occupied_in _ _ Hinmx) ltac:(lia))
      as (q1 & Hq1 & _).
    destruct (prefix_gt_Some _ _ _ Hq1) as [_ Hocc1].
    destruct (rep_bucket _ _ _ R _ Hocc1) as (nb & Hnb & _).
    exists (addr q1), nb. rewrite Hnxk, Hq1. auto.
  - destruct (insert_Rep _ _ k d R Hk) as (d' & addr' & H & _). eauto.
Qed.

(** C7. In the index built from a non-empty sequence of keys the top array
    is a step function: every position below the least occupied prefix
    holds the null pointer, and every position [p] from the least occupied
    prefix on holds the pointer to the bucket of the greatest occupied
    prefix not above [p] -- the pointer that is also stored at that prefix. *)
Theorem top_array_is_step_function keys min0 max0 :
  (forall k, In k keys -> in_universe k) -> keys <> [] ->
  exists d, inserts keys (DynIndex_new min0 max0) = Some d /\
    In (m_min d) keys /\ (forall k, In k keys -> m_min d <= k) /\
    forall p, 0 <= p < xf_size d ->
      (p < prefix (m_min d) -> m_xf d !! Z.to_nat p = Some None) /\
      (prefix (m_min d) <= p ->
         exists a b, m_xf d !! Z.to_nat p = Some (Some a) /\
           m_heap d !! a = Some b /\
           bprefix b <= p /\ occupied keys (bprefix b) /\
           (forall q, occupied keys q -> q <= p -> q <= bprefix b) /\
           m_xf d !! Z.to_nat (bprefix b) = Some (Some a)).
Proof.
  intros Hu Hne0. destruct (built_Rep keys min0 max0 Hu) as (d & addr & Hd & R).
  pose proof (rev_nonempty _ Hne0) as Hne.
  destruct (Rep_nonempty _ _ _ R Hne) as
    (mn & mx & Hkmin & Hkmax & Hmn & Hmx & Hsz & Hlen & Hfb & Hinmn & Hinmx & Hbnd).
  assert (Hminle : forall k', In k' (rev keys) -> mn <= k') by (intros; now apply Hbnd).
  exists d. split; [assumption|]. rewrite Hmn.
  split; [now apply <- in_rev|].
  split; [intros k Hk; apply Hminle; now apply -> in_rev|].
  pose proof (prefix_range mn (rep_univ _ _ _ R mn Hinmn)) as Hpmn.
  unfold xf_size in *. intros p Hp. split.
  - intros Hlow. rewrite (rep_xf _ _ _ R) by lia. rewrite Z2Nat.id by lia.
    now rewrite (prefix_le_bottom _ mn).
  - intros Hhigh.
    destruct (prefix_le_ge (rev keys) p (prefix mn) (occupied_in _ _ Hinmn) Hhigh)
      as (g & Hg & Hge).
    destruct (prefix_le_Some _ _ _ Hg) as [Hgle Hocc].
    destruct (rep_bucket _ _ _ R g Hocc) as (b & Hb & Hbp & _).
    exists (addr g), b. rewrite Hbp. repeat split; auto.
    + rewrite (rep_xf _ _ _ R) by lia. rewrite Z2Nat.id by lia. now rewrite Hg.
    + now apply occupied_rev.
    + intros q Hq Hqp. apply occupied_rev in Hq.
      destruct (prefix_le_ge _ p q Hq Hqp) as (g' & Hg' & Hle).
      rewrite Hg in Hg'. injection Hg' as <-. assumption.
    + rewrite (rep_xf _ _ _ R) by lia. rewrite Z2Nat.id by lia.
      now rewrite prefix_le_occupied.
Qed.

(** *** The linked list of buckets *)

(** [chain h p bs]: following [next_b] from the pointer [p] through the
    store [h] visits exactly the buckets [bs], in this order, and ends at
    the null pointer. *)
Inductive chain (h : list (bucket_of C)) : option ptr -> list (bucket_of C) -> Prop :=
| chain_null : chain h None []
| chain_next a b bs :
    h !! a = Some b -> chain h (next_b b) bs -> chain h (Some a) (b :: bs).

Lemma chain_head h a b bs : chain h (Some a) (b :: bs) -> h !! a = Some b.
Proof. now inversion 1. Qed.

Lemma Rep_chain_from S addr d n q :
  Rep S addr d -> occupied S q ->
  (forall g, occupied S g -> g - q < Z.of_nat n) ->
  exists bs, chain (m_heap d) (Some (addr q)) bs /\
    StronglySorted Z.lt (map bprefix bs) /\
    (forall g, In g (map bprefix bs) <-> occupied S g /\ q <= g) /\
    (forall b, In b bs -> prev_pred b = key_below S (bprefix b)).
Proof.
  intros R. revert q. induction n as [|n IH]; intros q Hocc Hbound.
  - specialize (Hbound q Hocc). lia.
  - destruct (rep_bucket _ _ _ R q Hocc) as (b & Hb & Hbp & Hpp & Hnx & _).
    destruct (prefix_gt S q) as [q1|] eqn:Hq1.
    + destruct (prefix_gt_Some _ _ _ Hq1) as [Hlt Hocc1].
      destruct (IH q1 Hocc1) as (bs & Hch & Hsorted & Hmem & Hprev).
      { intros g Hg. specialize (Hbound g Hg). lia. }
      exists (b :: bs). split; [|split; [|split]].
      * econstructor; [exact Hb|]. rewrite Hnx. exact Hch.
      * simpl. constructor; [assumption|]. apply List.Forall_forall.
        intros g Hg. apply Hmem in Hg. lia.
      * intros g. simpl. rewrite Hmem, Hbp. split.
        -- intros [<-|[Hg Hge]]; [split; [assumption|lia]|split; [assumption|lia]].
        -- intros [Hg Hge]. destruct (Z.eq_dec q g) as [|Hne]; [now left|right].
           split; [assumption|].
           destruct (prefix_gt_le S q g Hg ltac:(lia)) as (g' & Hg' & Hle).
           rewrite Hq1 in Hg'. injection Hg' as <-. assumption.
      * intros b' [<-|Hin]; [now rewrite Hbp|now apply Hprev].
    + exists [b]. split; [|split; [|split]].
      * econstructor; [exact Hb|]. rewrite Hnx. constructor.
      * simpl. constructor; constructor.
      * intros g. simpl. rewrite Hbp. split.
        -- intros [<-|[]]. split; [assumption|lia].
        -- intros [Hg Hge]. left. pose proof (prefix_gt_None S q g Hq1 Hg). lia.
      * intros b' [<-|[]]. now rewrite Hbp.
Qed.

(** [y] is the greatest of the [keys] that are strictly below [m]. *)
Definition greatest_below (keys : list Z) (m y : Z) : Prop :=
  In y keys /\ y < m /\ forall k, In k keys -> k < m -> k <= y.

(** The value [prev_pred] is meant to have in a bucket whose least key is
    [m]: the greatest key below [m], or 0 when no key is below [m]. *)
Definition prev_pred_of (keys : list Z) (m v : Z) : Prop :=
  greatest_below keys m v \/ ((forall k, In k keys -> m <= k) /\ v = 0).

Lemma key_below_prev_pred_of S m :
  (forall k, In k S -> in_universe k) ->
  In m S -> (forall k, In k S -> prefix k = prefix m -> m <= k) ->
  prev_pred_of S m (key_below S (prefix m)).
Proof.
  intros Hu Hin Hleast.
  assert (Hiff : forall k, In k S -> (k < m <-> prefix k < prefix m)).
  { intros k Hk. split.
    - intros Hlt. pose proof (prefix_mono k m ltac:(lia)).
      destruct (Z.eq_dec (prefix k) (prefix m)) as [He|]; [|lia].
      specialize (Hleast k Hk He). lia.
    - apply prefix_lt. }
  destruct (key_below_in S (prefix m)) as [[H0 Hall]|[Hy Hp]].
  - destruct (in_dec Z.eq_dec 0 S) as [Hz|Hnz].
    + destruct (Z.lt_ge_cases 0 m) as [Hpos|Hnp].
      * left. rewrite H0. split; [assumption|]. split; [assumption|].
        intros k Hk Hlt. apply Hall; [assumption|]. now apply Hiff.
      * right. split; [|assumption]. intros k Hk.
        pose proof (Hu k Hk) as [? _]. pose proof (Hu m Hin) as [? _]. lia.
    + right. split; [|assumption]. intros k Hk.
      destruct (Z.le_gt_cases m k) as [|Hlt]; [assumption|].
      apply Hiff in Hlt; [|assumption]. specialize (Hall k Hk Hlt).
      pose proof (Hu k Hk) as [? _]. assert (k = 0) by lia. subst k. contradiction.
  - left. split; [assumption|]. split; [now apply Hiff|].
    intros k Hk Hlt. apply key_below_ge; [assumption|]. now apply Hiff.
Qed.

(** C6. In the index built by any sequence of insertions, following
    [next_b] from [m_first_b] visits the buckets in strictly ascending order
    of prefix, one bucket for every occupied prefix, and ends at the null
    pointer; and the [prev_pred] of every bucket is the greatest inserted key
    strictly below the least key of that bucket, or 0 when there is no such
    key, as for the first bucket. *)
Theorem buckets_linked_ascending_with_prev_pred keys min0 max0 :
  (forall k, In k keys -> in_universe k) ->
  exists d bs, inserts keys (DynIndex_new min0 max0) = Some d /\
    chain (m_heap d) (m_first_b d) bs /\
    StronglySorted Z.lt (map bprefix bs) /\
    (forall q, In q (map bprefix bs) <-> occupied keys q) /\
    (forall b m, In b bs -> In m keys -> prefix m = bprefix b ->
       (forall k, In k keys -> prefix k = bprefix b -> m <= k) ->
       prev_pred_of keys m (prev_pred b)) /\
    (forall b bs', bs = b :: bs' -> prev_pred b = 0).
Proof.
  intros Hu. destruct (built_Rep keys min0 max0 Hu) as (d & addr & Hd & R).
  destruct keys as [|k0 r].
  - simpl in Hd. injection Hd as <-. exists (DynIndex_new min0 max0), [].
    split; [reflexivity|]. split; [constructor|]. split; [constructor|].
    split; [|split].
    + intros q. split; [intros []|intros (k & [] & _)].
    + intros b m [].
    + discriminate.
  - set (keys := k0 :: r) in *.
    assert (Hne : rev keys <> []) by (apply rev_nonempty; discriminate).
    destruct (Rep_nonempty _ _ _ R Hne) as
      (mn & mx & Hkmin & Hkmax & Hmn & Hmx & Hsz & Hlen & Hfb & Hinmn & Hinmx & Hbnd).
    pose proof (prefix_range mx (rep_univ _ _ _ R mx Hinmx)) as Hpmx.
    pose proof (prefix_range mn (rep_univ _ _ _ R mn Hinmn)) as Hpmn.
    destruct (Rep_chain_from (rev keys) addr d (Z.to_nat (prefix mx + 1)) (prefix mn) R
                (occupied_in _ _ Hinmn)) as (bs & Hch & Hsorted & Hmem & Hprev).
    { intros g (k & Hk & <-). pose proof (prefix_mono _ _ (proj2 (Hbnd k Hk))). lia. }
    exists d, bs. split; [assumption|]. rewrite Hfb.
    split; [assumption|]. split; [assumption|]. split; [|split].
    + intros q. rewrite Hmem, occupied_rev. split; [tauto|].
      intros Hq. split; [assumption|]. destruct Hq as (k & Hk & <-).
      apply prefix_mono, Hbnd. now apply -> in_rev.
    + intros b m Hb Hm Hp Hleast. rewrite (Hprev b Hb), <- Hp.
      assert (Hpp : prev_pred_of (rev keys) m (key_below (rev keys) (prefix m))).
      { apply key_below_prev_pred_of.
        - apply (rep_univ _ _ _ R).
        - now apply -> in_rev.
        - intros k Hk He. apply Hleast; [now apply <- in_rev|congruence]. }
      destruct Hpp as [(Hy & Hlt & Hall)|[Hall H0]].
      * left. split; [now apply <- in_rev|]. split; [assumption|].
        intros k Hk. apply Hall. now apply -> in_rev.
      * right. split; [|assumption]. intros k Hk. apply Hall. now apply -> in_rev.
    + intros b bs' ->. rewrite (Hprev b (or_introl eq_refl)).
      pose proof (chain_head _ _ _ _ Hch) as Hb.
      destruct (rep_bucket _ _ _ R _ (occupied_in _ _ Hinmn)) as (b0 & Hb0 & Hbp0 & _).
      rewrite Hb in Hb0. injection Hb0 as ->. rewrite Hbp0.
      apply (key_below_bottom _ mn); [|lia]. intros k Hk. now apply Hbnd.
Qed.

(** *** The description depends on the set of keys only *)

Section Same_keys.

Variables S1 S2 : list Z.
Hypothesis Hsame : forall k, In k S1 <-> In k S2.

Lemma occupied_ext q : occupied S1 q -> occupied S2 q.
Proof. intros (k & Hk & Hp). exists k. split; [now apply Hsame|assumption]. Qed.

Lemma kmin_ext m : kmin S1 = Some m -> kmin S2 = Some m.
Proof.
  intros H1. destruct (kmin_spec _ _ H1) as [Hin Hle].
  destruct (kmin_is_Some S2) as [m' H2].
  { intros He. apply Hsame in Hin. rewrite He in Hin. destruct Hin. }
  destruct (kmin_spec _ _ H2) as [Hin' Hle'].
  rewrite H2. f_equal.
  pose proof (Hle m' (proj2 (Hsame m') Hin')).
  pose proof (Hle' m (proj1 (Hsame m) Hin)). lia.
Qed.

Lemma kmax_ext m : kmax S1 = Some m -> kmax S2 = Some m.
Proof.
  intros H1. destruct (kmax_spec _ _ H1) as [Hin Hle].
  destruct (kmax_is_Some S2) as [m' H2].
  { intros He. apply Hsame in Hin. rewrite He in Hin. destruct Hin. }
  destruct (kmax_spec _ _ H2) as [Hin' Hle'].
  rewrite H2. f_equal.
  pose proof (Hle m' (proj2 (Hsame m') Hin')).
  pose proof (Hle' m (proj1 (Hsame m) Hin)). lia.
Qed.

Lemma prefix_le_ext j g : prefix_le S1 j = Some g -> prefix_le S2 j = Some g.
Proof.
  intros H1. destruct (prefix_le_Some _ _ _ H1) as [Hle Hocc].
  destruct (prefix_le_ge S2 j g (occupied_ext _ Hocc) Hle) as (g' & Hg' & Hge).
  rewrite Hg'. f_equal.
  destruct (prefix_le_Some _ _ _ Hg') as [Hle' (k & Hk & Hp)].
  destruct (prefix_le_ge S1 j g') as (g2 & Hg2 & Hge2);
    [exists k; split; [now apply Hsame|assumption]|assumption|].
  rewrite H1 in Hg2. injection Hg2 as <-. lia.
Qed.

Lemma key_below_ext_le q : key_below S1 q <= key_below S2 q.
Proof.
  destruct (key_below_in S1 q) as [[-> _]|[Hin Hp]].
  - apply key_below_nonneg.
  - apply key_below_ge; [now apply Hsame|assumption].
Qed.

End Same_keys.

Lemma key_below_ext S1 S2 q :
  (forall k, In k S1 <-> In k S2) -> key_below S1 q = key_below S2 q.
Proof.
  intros H. pose proof (key_below_ext_le S1 S2 H q).
  pose proof (key_below_ext_le S2 S1 (fun k => iff_sym (H k)) q). lia.
Qed.

(** The greatest element of a list that is at most [i]. *)
Fixpoint list_max_le (l : list Z) (i : Z) : option Z :=
  match l with
  | [] => None
  | e :: r =>
      if e <=? i then Some (omax e (list_max_le r i)) else list_max_le r i
  end.

Lemma list_max_le_None l i : list_max_le l i = None -> forall e, In e l -> i < e.
Proof.
  induction l as [|e r IH]; intros H e' []; simpl in H;
    destruct (Z.leb_spec e i); try discriminate; subst; auto.
Qed.

Lemma list_max_le_Some l i m :
  list_max_le l i = Some m ->
  In m l /\ m <= i /\ forall e, In e l -> e <= i -> e <= m.
Proof.
  revert m. induction l as [|e r IH]; intros m; simpl; [discriminate|].
  destruct (Z.leb_spec e i) as [Hle|Hgt].
  - intros [= <-]. destruct (list_max_le r i) as [a|] eqn:Ea; simpl.
    + destruct (IH a eq_refl) as (Hin & Hai & Hmax).
      destruct (Z.max_spec e a) as [[Hlt ->]|[Hge ->]].
      * split; [now right|]. split; [assumption|].
        intros e' [<-|He'] Hle'; [lia|now apply Hmax].
      * split; [now left|]. split; [assumption|].
        intros e' [<-|He'] Hle'; [lia|]. specialize (Hmax e' He' Hle'). lia.
    + split; [now left|]. split; [assumption|].
      intros e' [<-|He'] Hle'; [lia|].
      pose proof (list_max_le_None r i Ea e' He'). lia.
  - intros H. destruct (IH m H) as (Hin & Hmi & Hmax).
    split; [now right|]. split; [assumption|].
    intros e' [<-|He'] Hle'; [lia|now apply Hmax].
Qed.

(** The suffix values held by the bucket of prefix [q]. *)
Definition bucket_values (S : list Z) (q : Z) : list Z :=
  map (fun k => stored (suffix k)) (List.filter (fun k => prefix k =? q) S).

Lemma in_bucket_values S q v :
  In v (bucket_values S q) <-> exists k, In k S /\ prefix k = q /\ stored (suffix k) = v.
Proof.
  unfold bucket_values. rewrite in_map_iff. split.
  - intros (k & Hv & Hk). apply filter_In in Hk as [Hin Hp].
    apply Z.eqb_eq in Hp. eauto.
  - intros (k & Hin & Hp & Hv). exists k. split; [assumption|].
    apply filter_In. split; [assumption|]. now apply Z.eqb_eq.
Qed.

(** What [pred] returns on the bucket of prefix [q] of an index that
    represents [S]. *)
Definition pred_of (S : list Z) (q i : Z) : Z :=
  match list_max_le (bucket_values S q) i with
  | Some m => add64 (shl64 q b_wordl) m
  | None => key_below S q
  end.

Lemma pred_pred_of S q b i :
  bprefix b = q -> prev_pred b = key_below S q -> holds_keys S q (payload b) ->
  0 <= i -> pred b i = pred_of S q i.
Proof.
  intros Hbp Hpp Hh Hi. unfold pred_of.
  assert (Hnn : forall v, holds (payload b) v -> 0 <= v).
  { intros v Hv. apply Hh in Hv as (k & _ & _ & <-).
    apply stored_nonneg, suffix_range. }
  destruct (list_max_le (bucket_values S q) i) as [m|] eqn:Em.
  - destruct (list_max_le_Some _ _ _ Em) as (Hin & Hmi & Hmax).
    rewrite <- Hbp. apply pred_some; auto.
    + apply Hh. now apply in_bucket_values.
    + intros v Hv. apply Hmax. apply in_bucket_values. now apply Hh.
  - rewrite <- Hpp. apply pred_none; auto.
    intros v Hv. apply (list_max_le_None _ _ Em).
    apply in_bucket_values. now apply Hh.
Qed.

(** The answer of [predecessor] as a function of the inserted keys. *)
Definition predecessor_of (S : list Z) (x : Z) : Result :=
  match kmin S, kmax S with
  | Some mn, Some mx =>
      if x <? mn then mkResult false 0
      else if mx <=? x then mkResult true mx
      else match prefix_le S (prefix x) with
           | Some q => mkResult true (pred_of S q (suffix x))
           | None => mkResult false 0
           end
  | _, _ => mkResult false 1
  end.

Lemma predecessor_Rep S addr d x :
  Rep S addr d -> predecessor x d = Some (predecessor_of S x).
Proof.
  intros R. unfold predecessor_of. destruct S as [|k0 S0].
  - simpl. unfold predecessor. now rewrite (rep_size _ _ _ R).
  - set (S := k0 :: S0) in *. assert (Hne : S <> []) by discriminate.
    destruct (Rep_nonempty _ _ _ R Hne) as
      (mn & mx & Hkmin & Hkmax & Hmn & Hmx & Hsz & Hlen & Hfb & Hinmn & Hinmx & Hbnd).
    rewrite Hkmin, Hkmax.
    destruct (Z.ltb_spec x mn) as [Hlow|Hge].
    + unfold predecessor. rewrite Hsz, Hmn. ztest. reflexivity.
    + destruct (Z.leb_spec mx x) as [Hhigh|Hlt].
      * unfold predecessor. rewrite Hsz, Hmn, Hmx. ztest. reflexivity.
      * destruct (predecessor_inside S addr d x mn mx R Hkmin Hkmax ltac:(lia))
          as (q & b & Hq & _ & _ & _ & Hbp & Hpp & Hh & Hres).
        rewrite Hres, Hq. do 2 f_equal.
        apply pred_pred_of; auto. apply suffix_range.
Qed.

(** ** Further properties of the index *)

(** [y] is the predecessor of [x] among [keys]. *)
Definition greatest_le (keys : list Z) (x y : Z) : Prop :=
  In y keys /\ y <= x /\ forall k, In k keys -> k <= x -> k <= y.

(** X1. On the index built by any sequence of insertions a query never runs
    into undefined behaviour (no null bucket, no index outside [m_xf]), and
    the [exists] flag of its result is true exactly when some inserted key
    is at most the query. *)
Theorem predecessor_defined_and_exists_flag_right keys min0 max0 :
  (forall k, In k keys -> in_universe k) ->
  exists d, inserts keys (DynIndex_new min0 max0) = Some d /\
    forall x, exists r, predecessor x d = Some r /\
      (r_exists r = true <-> exists k, In k keys /\ k <= x).
Proof.
  intros Hu. destruct (built_Rep keys min0 max0 Hu) as (d & addr & Hd & R).
  exists d. split; [assumption|]. intros x.
  exists (predecessor_of (rev keys) x). split; [exact (predecessor_Rep _ _ _ x R)|].
  unfold predecessor_of.
  destruct (kmin (rev keys)) as [mn|] eqn:Emn.
  - destruct (kmax (rev keys)) as [mx|] eqn:Emx; [|destruct (rev keys); discriminate].
    destruct (kmin_spec _ _ Emn) as [Hinmn Hminle].
    destruct (kmax_spec _ _ Emx) as [Hinmx Hmaxle].
    apply in_rev in Hinmn. apply in_rev in Hinmx.
    destruct (Z.ltb_spec x mn) as [Hlow|Hge]; simpl.
    + split; [discriminate|]. intros (k & Hk & Hle).
      apply in_rev in Hk. specialize (Hminle k Hk). lia.
    + assert (Hex : exists k, In k keys /\ k <= x) by (exists mn; auto).
      destruct (Z.leb_spec mx x); simpl; [tauto|].
      destruct (prefix_le (rev keys) (prefix x)) as [q|] eqn:Eq; simpl; [tauto|].
      exfalso.
      pose proof (prefix_le_None _ _ (prefix mn) Eq
                    (occupied_in _ _ (proj1 (in_rev _ _) Hinmn))).
      pose proof (prefix_mono mn x Hge). lia.
  - destruct (rev keys) as [|? ?] eqn:Er; [|discriminate]. simpl.
    split; [discriminate|]. intros (k & Hk & _).
    apply in_rev in Hk. rewrite Er in Hk. destruct Hk.
Qed.

(** X2. After a non-empty sequence of insertions [m_min] and [m_max] are the
    least and the greatest inserted key, and [m_xf] has exactly
    [prefix(m_max) + 1] entries. *)
Theorem min_max_and_top_array_size keys min0 max0 :
  (forall k, In k keys -> in_universe k) -> keys <> [] ->
  exists d, inserts keys (DynIndex_new min0 max0) = Some d /\
    In (m_min d) keys /\ (forall k, In k keys -> m_min d <= k) /\
    In (m_max d) keys /\ (forall k, In k keys -> k <= m_max d) /\
    xf_size d = prefix (m_max d) + 1.
Proof.
  intros Hu Hne0. destruct (built_Rep keys min0 max0 Hu) as (d & addr & Hd & R).
  pose proof (rev_nonempty _ Hne0) as Hne.
  destruct (Rep_nonempty _ _ _ R Hne) as
    (mn & mx & Hkmin & Hkmax & Hmn & Hmx & Hsz & Hlen & Hfb & Hinmn & Hinmx & Hbnd).
  exists d. split; [assumption|]. rewrite Hmn, Hmx.
  split; [now apply <- in_rev|]. split; [intros k Hk; apply Hbnd; now apply -> in_rev|].
  split; [now apply <- in_rev|]. split; [intros k Hk; apply Hbnd; now apply -> in_rev|].
  assumption.
Qed.

Section Exact_suffixes.

(** The bucket representation records suffixes unchanged: always so for
    the bitset bucket, and for the list bucket when a suffix fits 16 bits. *)
Hypothesis Hid : forall i, 0 <= i < 2 ^ t_sampling -> stored i = i.

Lemma same_prefix_le a b : prefix a = prefix b -> (a <= b <-> suffix a <= suffix b).
Proof.
  intros Hp. pose proof (key_split a) as Ha. pose proof (key_split b) as Hb.
  rewrite Hp in Ha. lia.
Qed.

Lemma predecessor_of_occupied S x y :
  (forall k, In k S -> in_universe k) ->
  occupied S (prefix x) -> greatest_le S x y ->
  predecessor_of S x = mkResult true y.
Proof.
  intros Hu Hocc (Hy & Hyx & Hgreatest). unfold predecessor_of.
  assert (Hne : S <> []) by (intros ->; destruct Hy).
  destruct (kmin_is_Some S Hne) as [mn Emn]. destruct (kmax_is_Some S Hne) as [mx Emx].
  rewrite Emn, Emx.
  destruct (kmin_spec _ _ Emn) as [Hinmn Hminle].
  destruct (kmax_spec _ _ Emx) as [Hinmx Hmaxle].
  destruct (Z.ltb_spec x mn) as [Hlow|Hge]; [specialize (Hminle y Hy); lia|].
  destruct (Z.leb_spec mx x) as [Hhigh|Hlt].
  { f_equal. specialize (Hmaxle y Hy). specialize (Hgreatest mx Hinmx Hhigh). lia. }
  rewrite prefix_le_occupied by assumption. f_equal.
  pose proof (Hu y Hy) as [Hy0 Hy1]. change word_size with (2 ^ 40) in Hy1.
  pose proof (prefix_mono y x Hyx) as Hpy.
  unfold pred_of.
  destruct (list_max_le (bucket_values S (prefix x)) (suffix x)) as [m|] eqn:Em.
  - destruct (list_max_le_Some _ _ _ Em) as (Hin & Hmi & Hmax).
    apply in_bucket_values in Hin as (k0 & Hk0 & Hp0 & Hs0).
    rewrite Hid in Hs0 by apply suffix_range. subst m.
    pose proof (Hu k0 Hk0) as [Hk00 Hk01]. change word_size with (2 ^ 40) in Hk01.
    pose proof (prefix_range k0 (Hu k0 Hk0)) as Hpr.
    pose proof (suffix_range k0) as Hsr. pose proof (key_split k0) as Hsplit.
    rewrite <- Hp0. rewrite join_prefix by lia. rewrite <- Hsplit.
    assert (k0 <= x) by (apply same_prefix_le; assumption).
    specialize (Hgreatest k0 Hk0 ltac:(assumption)).
    destruct (Z.eq_dec (prefix y) (prefix x)) as [He|Hn].
    + assert (suffix y <= suffix k0).
      { apply Hmax; [|exact (proj1 (same_prefix_le y x He) Hyx)].
        apply in_bucket_values. exists y. split; [assumption|]. split; [assumption|].
        apply Hid, suffix_range. }
      assert (y <= k0) by (apply (same_prefix_le y k0); [congruence|assumption]). lia.
    + assert (y < k0) by (apply prefix_lt; lia). lia.
  - assert (Hylow : prefix y < prefix x).
    { destruct (Z.eq_dec (prefix y) (prefix x)) as [He|]; [|lia]. exfalso.
      assert (suffix x < suffix y).
      { apply (list_max_le_None _ _ Em). apply in_bucket_values.
        exists y. split; [assumption|]. split; [assumption|]. apply Hid, suffix_range. }
      pose proof (proj1 (same_prefix_le y x He) Hyx). lia. }
    pose proof (key_below_ge S (prefix x) y Hy Hylow).
    destruct (key_below_in S (prefix x)) as [[H0 _]|[Hkb Hpkb]]; [lia|].
    assert (key_below S (prefix x) < x) by (now apply prefix_lt).
    specialize (Hgreatest _ Hkb ltac:(lia)). lia.
Qed.

Lemma predecessor_occupied_gen keys min0 max0 x y :
  (forall k, In k keys -> in_universe k) ->
  occupied keys (prefix x) -> greatest_le keys x y ->
  exists d, inserts keys (DynIndex_new min0 max0) = Some d /\
    predecessor x d = Some (mkResult true y).
Proof.
  intros Hu Hocc (Hy & Hyx & Hgreatest).
  destruct (built_Rep keys min0 max0 Hu) as (d & addr & Hd & R).
  exists d. split; [assumption|]. rewrite (predecessor_Rep _ _ _ x R). f_equal.
  apply predecessor_of_occupied.
  - apply (rep_univ _ _ _ R).
  - now apply occupied_rev.
  - split; [now apply -> in_rev|]. split; [assumption|].
    intros k Hk. apply Hgreatest. now apply <- in_rev.
Qed.

Lemma predecessor_inserted_gen keys min0 max0 k :
  (forall k', In k' keys -> in_universe k') -> In k keys ->
  exists d, inserts keys (DynIndex_new min0 max0) = Some d /\
    predecessor k d = Some (mkResult true k).
Proof.
  intros Hu Hk.
  destruct (built_Rep keys min0 max0 Hu) as (d & addr & Hd & R).
  exists d. split; [assumption|]. rewrite (predecessor_Rep _ _ _ k R). f_equal.
  apply predecessor_of_occupied.
  - apply (rep_univ _ _ _ R).
  - apply occupied_in. now apply -> in_rev.
  - split; [now apply -> in_rev|]. split; [lia|]. auto.
Qed.

(** When is the answer the predecessor?  For a query [x] with predecessor
    [y] among the keys: exactly when the prefix of [x] is occupied, or [y]
    has a suffix of at most that of [x], or no key is above [x]. *)
Lemma predecessor_of_right_iff S x y :
  (forall k, In k S -> in_universe k) -> greatest_le S x y ->
  (predecessor_of S x = mkResult true y <->
   occupied S (prefix x) \/ suffix y <= suffix x \/ forall k, In k S -> k <= x).
Proof.
  intros Hu Hgl. pose proof Hgl as (Hy & Hyx & Hgreatest).
  destruct (occupied_dec S (prefix x)) as [Hocc|Hfree].
  { split; [intros _; left; exact Hocc|intros _; apply predecessor_of_occupied; auto]. }
  unfold predecessor_of.
  assert (Hne : S <> []) by (intros ->; destruct Hy).
  destruct (kmin_is_Some S Hne) as [mn Emn]. destruct (kmax_is_Some S Hne) as [mx Emx].
  rewrite Emn, Emx.
  destruct (kmin_spec _ _ Emn) as [Hinmn Hminle].
  destruct (kmax_spec _ _ Emx) as [Hinmx Hmaxle].
  destruct (Z.ltb_spec x mn) as [Hlow|Hge]; [specialize (Hminle y Hy); lia|].
  destruct (Z.leb_spec mx x) as [Hhigh|Hlt].
  { assert (mx = y).
    { specialize (Hmaxle y Hy). specialize (Hgreatest mx Hinmx Hhigh). lia. }
    subst mx. split; [|reflexivity]. intros _. right. right.
    intros k Hk. specialize (Hmaxle k Hk). lia. }
  pose proof (Hu y Hy) as Huy. pose proof Huy as [Hy0 Hy1].
  change word_size with (2 ^ 40) in Hy1.
  pose proof (prefix_mono y x Hyx) as Hpy.
  pose proof (prefix_range y Huy) as Hpry.
  pose proof (suffix_range y) as Hsy. pose proof (suffix_range x) as Hsx.
  pose proof (key_split y) as Hsplit.
  destruct (prefix_le_ge S (prefix x) (prefix y) (occupied_in _ _ Hy) Hpy) as (q & Eq & Hqy).
  rewrite Eq. destruct (prefix_le_Some _ _ _ Eq) as [Hqx (k1 & Hk1 & Hp1)].
  assert (Hqlt : q < prefix x).
  { destruct (Z.eq_dec q (prefix x)) as [E|]; [|lia]. exfalso. apply Hfree.
    exists k1. split; [exact Hk1|congruence]. }
  assert (Hq : q = prefix y).
  { assert (k1 < x) by (apply prefix_lt; lia).
    pose proof (Hgreatest k1 Hk1 ltac:(lia)) as Hk1y. apply prefix_mono in Hk1y. lia. }
  clear Hp1. subst q.
  assert (Hval : In (suffix y) (bucket_values S (prefix y))).
  { apply in_bucket_values. exists y. split; [exact Hy|]. split; [reflexivity|].
    apply Hid, suffix_range. }
  assert (Hiff : pred_of S (prefix y) (suffix x) = y <-> suffix y <= suffix x).
  { unfold pred_of.
    destruct (list_max_le (bucket_values S (prefix y)) (suffix x)) as [m|] eqn:Em.
    - destruct (list_max_le_Some _ _ _ Em) as (Hin & Hmi & Hmax).
      apply in_bucket_values in Hin as (k0 & Hk0 & Hp0 & Hs0).
      rewrite Hid in Hs0 by apply suffix_range. subst m.
      pose proof (Hu k0 Hk0) as [Hk00 Hk01]. change word_size with (2 ^ 40) in Hk01.
      pose proof (suffix_range k0) as Hsr. pose proof (key_split k0) as Hsplit0.
      rewrite <- Hp0. rewrite join_prefix by lia. rewrite <- Hsplit0.
      split; [intros ->; exact Hmi|]. intros Hle.
      specialize (Hmax _ Hval Hle).
      assert (y <= k0) by (apply (same_prefix_le y k0); [congruence|assumption]).
      assert (k0 < x) by (apply prefix_lt; lia).
      specialize (Hgreatest k0 Hk0 ltac:(lia)). lia.
    - pose proof (list_max_le_None _ _ Em _ Hval) as Hgt.
      split; [|lia]. intros E. exfalso.
      destruct (key_below_in S (prefix y)) as [[H0 _]|[_ Hpkb]].
      + rewrite H0 in E. subst y. nia.
      + rewrite E in Hpkb. lia. }
  split.
  - intros [= E]. right. left. apply Hiff, E.
  - intros [Hocc|[Hle|Hall]].
    + contradiction.
    + f_equal. apply Hiff, Hle.
    + specialize (Hall mx Hinmx). lia.
Qed.

Lemma predecessor_right_iff_gen keys min0 max0 x y :
  (forall k, In k keys -> in_universe k) -> greatest_le keys x y ->
  exists d, inserts keys (DynIndex_new min0 max0) = Some d /\
    (predecessor x d = Some (mkResult true y) <->
     occupied keys (prefix x) \/ suffix y <= suffix x \/ forall k, In k keys -> k <= x).
Proof.
  intros Hu (Hy & Hyx & Hgreatest).
  destruct (built_Rep keys min0 max0 Hu) as (d & addr & Hd & R).
  exists d. split; [assumption|]. rewrite (predecessor_Rep _ _ _ x R).
  assert (Hgl : greatest_le (rev keys) x y).
  { split; [now apply -> in_rev|]. split; [assumption|].
    intros k Hk. apply Hgreatest. now apply <- in_rev. }
  pose proof (predecessor_of_right_iff (rev keys) x y (rep_univ _ _ _ R) Hgl) as Hiff.
  split.
  - intros [= E]. apply Hiff in E. destruct E as [Ho|[Hs|Ha]].
    + left. now apply occupied_rev.
    + right. left. exact Hs.
    + right. right. intros k Hk. apply Ha. now apply -> in_rev.
  - intros H. f_equal. apply Hiff. destruct H as [Ho|[Hs|Ha]].
    + left. now apply occupied_rev.
    + right. left. exact Hs.
    + right. right. intros k Hk. apply Ha. now apply <- in_rev.
Qed.

End Exact_suffixes.

Section Idempotent_set.

(** Setting a suffix that the bucket already holds leaves the bucket as
    it is: so for the bitset bucket, not for the list bucket. *)
Hypothesis Hidem : forall i b, 0 <= i -> holds (payload b) (stored i) -> set i b = b.

Lemma set_prev_pred_same (b : bucket_of C) : set_prev_pred (prev_pred b) b = b.
Proof. now destruct b. Qed.

Lemma insert_present_gen S addr k d :
  Rep S addr d -> In k S -> insert k d = Some (tt, d).
Proof.
  intros R Hin. pose proof (rep_univ _ _ _ R k Hin) as Hk.
  pose proof (occupied_in _ _ Hin) as Hocc.
  pose proof (prefix_range k Hk) as Hkp.
  assert (Hne : S <> []) by (intros ->; destruct Hin).
  destruct (Rep_nonempty _ _ _ R Hne) as
    (mn & mx & Hkmin & Hkmax & Hmn & Hmx & Hsz & Hlen & Hfb & Hinmn & Hinmx & Hbnd).
  pose proof (Hbnd k Hin) as Hkb'.
  pose proof (prefix_mono mn k ltac:(lia)). pose proof (prefix_mono k mx ltac:(lia)).
  destruct (rep_bucket _ _ _ R _ Hocc) as (kb & Hkb & Hbpk & Hppk & Hnxk & Hhk).
  pose proof (rep_xf _ _ _ R) as Hxf.
  pose proof (rep_bucket _ _ _ R) as Hbuckets.
  destruct d as [sz mn' mx' xf fb hp]. unfold xf_size in *. simpl in *.
  subst sz mn' mx' fb.
  assert (Hload : xf !! Z.to_nat (prefix k) = Some (Some (addr (prefix k)))).
  { rewrite Hxf by lia. rewrite Z2Nat.id by lia.
    now rewrite prefix_le_occupied. }
  assert (Hset : set (suffix k) kb = kb).
  { apply Hidem; [apply suffix_range|]. apply Hhk. exists k. auto. }
  unfold insert. red_state. ztest. red_state.
  erewrite bind_xf_load by (simpl; first [lia|exact Hload]).
  erewrite bind_deref by (simpl; exact Hkb).
  rewrite Hbpk, Z.eqb_refl. red_state.
  erewrite bind_assign by (simpl; exact Hkb). red_state.
  rewrite Hset. rewrite list_insert_id by exact Hkb.
  erewrite bind_deref by (simpl; exact Hkb).
  rewrite Hnxk.
  destruct (prefix_gt S (prefix k)) as [q1|] eqn:Eq1; cbn [fmap option_fmap option_map].
  - destruct (prefix_gt_Some _ _ _ Eq1) as [Hlt1 Hocc1].
    destruct (Hbuckets q1 Hocc1) as (nb & Hnb & Hbpn & Hppn & Hnxn & Hhn).
    rewrite bind_bind.
    erewrite bind_deref by (simpl; exact Hnb).
    erewrite bind_assign by (simpl; exact Hnb).
    red_state.
    pose proof (key_below_ge S q1 k Hin Hlt1) as Hge.
    rewrite (Z.max_r k (prev_pred nb)) by lia.
    rewrite set_prev_pred_same. rewrite list_insert_id by exact Hnb.
    unfold modify. cbn [m_size m_min m_max m_xf m_first_b m_heap].
    rewrite (Z.min_r k mn), (Z.max_r k mx) by lia. reflexivity.
  - rewrite bind_ret. red_state.
    unfold modify. cbn [m_size m_min m_max m_xf m_first_b m_heap].
    rewrite (Z.min_r k mn), (Z.max_r k mx) by lia. reflexivity.
Qed.

Lemma insert_present_after_inserts keys min0 max0 k :
  (forall k', In k' keys -> in_universe k') -> In k keys ->
  exists d, inserts keys (DynIndex_new min0 max0) = Some d /\
    insert k d = Some (tt, d).
Proof.
  intros Hu Hk. destruct (built_Rep keys min0 max0 Hu) as (d & addr & Hd & R).
  exists d. split; [assumption|].
  apply (insert_present_gen (rev keys) addr); [assumption|now apply -> in_rev].
Qed.

End Idempotent_set.

End Index.

(** ** The list bucket on its own *)

(** C4. [bucket_list::pred(i)] on a bucket with prefix [p], [prev_pred] [q]
    and stored suffixes [L] returns [q] when no element of [L] is at most
    [i], and otherwise [(p << b_wordl) + m] for the greatest element [m] of
    [L] that is at most [i]; the sum is the 64-bit one, which is
    [p * 2^b_wordl + m] whenever that value fits in 64 bits. *)
Theorem list_pred_greatest_not_above (b : bucket_list) (i : Z) :
  ((forall e, In e (payload b) -> i < e) -> list_pred b i = prev_pred b) /\
  (forall m, In m (payload b) -> m <= i ->
     (forall e, In e (payload b) -> e <= i -> e <= m) ->
     list_pred b i = add64 (shl64 (bprefix b) b_wordl) m /\
     (0 <= t_sampling -> 0 <= bprefix b -> 0 <= m ->
      bprefix b * 2 ^ t_sampling + m < 2 ^ 64 ->
      list_pred b i = bprefix b * 2 ^ t_sampling + m)).
Proof.
  split.
  - apply list_pred_none.
  - intros m Hin Hle Hmax. rewrite (list_pred_some b i m Hin Hle Hmax).
    split; [reflexivity|]. intros Hs Hp Hm Hfit.
    unfold add64, shl64, b_wordl. rewrite Z.shiftl_mul_pow2 by lia.
    assert (0 < 2 ^ t_sampling) by (apply Z.pow_pos_nonneg; lia).
    rewrite (u64_small (bprefix b * 2 ^ t_sampling)) by (unfold is_u64; nia).
    apply u64_small. unfold is_u64. nia.
Qed.

(** ** Two indexes over the same keys *)

Lemma list_max_le_ext l1 l2 i :
  (forall v, In v l1 <-> In v l2) -> list_max_le l1 i = list_max_le l2 i.
Proof.
  intros H.
  destruct (list_max_le l1 i) as [m1|] eqn:E1; destruct (list_max_le l2 i) as [m2|] eqn:E2.
  - destruct (list_max_le_Some _ _ _ E1) as (Hin1 & Hle1 & Hmax1).
    destruct (list_max_le_Some _ _ _ E2) as (Hin2 & Hle2 & Hmax2).
    pose proof (Hmax1 m2 (proj2 (H m2) Hin2) Hle2).
    pose proof (Hmax2 m1 (proj1 (H m1) Hin1) Hle1). f_equal. lia.
  - destruct (list_max_le_Some _ _ _ E1) as (Hin1 & Hle1 & _).
    pose proof (list_max_le_None _ _ E2 m1 (proj1 (H m1) Hin1)). lia.
  - destruct (list_max_le_Some _ _ _ E2) as (Hin2 & Hle2 & _).
    pose proof (list_max_le_None _ _ E1 m2 (proj2 (H m2) Hin2)). lia.
  - reflexivity.
Qed.

Section Compare.

Context {C1 C2 : Type} {rep1 : BucketRep C1} {rep2 : BucketRep C2}.
Context {laws1 : BucketLaws C1} {laws2 : BucketLaws C2}.

Hypothesis Hsampling : 0 <= t_sampling <= 40.

(** Both representations record the same value for every suffix. *)
Hypothesis Hstored : forall i, 0 <= i < 2 ^ t_sampling ->
  stored (BucketRep := rep1) i = stored (BucketRep := rep2) i.

Lemma predecessor_of_agree S1 S2 x :
  (forall k, In k S1 <-> In k S2) ->
  predecessor_of (rep := rep1) S1 x = predecessor_of (rep := rep2) S2 x.
Proof.
  intros Hsame. unfold predecessor_of.
  destruct (kmin S1) as [mn|] eqn:Emn.
  - rewrite (kmin_ext S1 S2 Hsame mn Emn).
    destruct (kmax S1) as [mx|] eqn:Emx.
    + rewrite (kmax_ext S1 S2 Hsame mx Emx).
      destruct (x <? mn); [reflexivity|]. destruct (mx <=? x); [reflexivity|].
      destruct (prefix_le S1 (prefix x)) as [q|] eqn:Eq.
      * rewrite (prefix_le_ext S1 S2 Hsame _ q Eq). f_equal.
        unfold pred_of.
        rewrite (key_below_ext S1 S2 q Hsame).
        rewrite (list_max_le_ext (bucket_values (rep := rep1) S1 q)
                   (bucket_values (rep := rep2) S2 q)); [reflexivity|].
        intros v. rewrite !in_bucket_values. split.
        -- intros (k & Hin & Hp & Hv). exists k.
           split; [now apply Hsame|]. split; [assumption|].
           rewrite <- Hv. symmetry. apply Hstored. now apply suffix_range.
        -- intros (k & Hin & Hp & Hv). exists k.
           split; [now apply Hsame|]. split; [assumption|].
           rewrite <- Hv. apply Hstored. now apply suffix_range.
      * destruct (prefix_le S2 (prefix x)) as [q|] eqn:Eq2; [|reflexivity].
        rewrite (prefix_le_ext S2 S1 (fun k => iff_sym (Hsame k)) _ q Eq2) in Eq.
        discriminate.
    + destruct S1; discriminate.
  - destruct S1 as [|? ?]; [|discriminate].
    destruct S2 as [|k ?]; [reflexivity|].
    destruct (proj2 (Hsame k) (or_introl eq_refl)).
Qed.

Lemma predecessor_agree keys1 keys2 min1 max1 min2 max2 :
  (forall k, In k keys1 -> in_universe k) ->
  (forall k, In k keys1 <-> In k keys2) ->
  exists d1 d2,
    inserts (rep := rep1) keys1 (DynIndex_new min1 max1) = Some d1 /\
    inserts (rep := rep2) keys2 (DynIndex_new min2 max2) = Some d2 /\
    forall x, predecessor (rep := rep1) x d1 = predecessor (rep := rep2) x d2.
Proof.
  intros Hu Hsame.
  destruct (built_Rep (rep := rep1) Hsampling keys1 min1 max1 Hu) as (d1 & a1 & H1 & R1).
  destruct (built_Rep (rep := rep2) Hsampling keys2 min2 max2) as (d2 & a2 & H2 & R2).
  { intros k Hk. apply Hu. now apply Hsame. }
  exists d1, d2. split; [assumption|]. split; [assumption|]. intros x.
  rewrite (predecessor_Rep Hsampling _ _ _ x R1), (predecessor_Rep Hsampling _ _ _ x R2).
  f_equal. apply predecessor_of_agree.
  intros k. rewrite <- !in_rev. apply Hsame.
Qed.

End Compare.


(** ** Further properties of the two bucket kinds *)


Lemma setbit_same a i : 0 <= i -> Z.testbit a i = true -> Z.setbit a i = a.
Proof.
  intros Hi H. apply Z.bits_inj'. intros n Hn.
  rewrite Z.setbit_eqb by assumption.
  destruct (Z.eqb_spec i n) as [->|]; [now rewrite H|reflexivity].
Qed.

Lemma bv_set_same i (b : bucket_bv) :
  0 <= i ->
  holds (BucketRep := bv_rep) (payload b) (stored (BucketRep := bv_rep) i) ->
  set (BucketRep := bv_rep) i b = b.
Proof.
  intros Hi H. simpl in *. unfold bv_set, set_payload.
  rewrite setbit_same by assumption. now destruct b.
Qed.

Lemma list_stores_suffix i :
  0 <= t_sampling <= 16 -> 0 <= i < 2 ^ t_sampling ->
  stored (BucketRep := list_rep) i = i.
Proof.
  intros Hs Hi. simpl. unfold u16. apply Z.mod_small.
  assert (2 ^ t_sampling <= 2 ^ 16) by (apply Z.pow_le_mono_r; lia). lia.
Qed.

(** X5. The answers of an index depend on the set of inserted keys only:
    inserting the same keys in another order, or some of them several
    times, changes no answer.  This holds for either bucket kind. *)
Theorem predecessor_depends_on_key_set {C} {rep : BucketRep C} {laws : BucketLaws C}
    keys1 keys2 min1 max1 min2 max2 :
  0 <= t_sampling <= 40 ->
  (forall k, In k keys1 -> in_universe k) ->
  (forall k, In k keys1 <-> In k keys2) ->
  exists d1 d2,
    inserts keys1 (DynIndex_new min1 max1) = Some d1 /\
    inserts keys2 (DynIndex_new min2 max2) = Some d2 /\
    forall x, predecessor x d1 = predecessor x d2.
Proof.
  intros Hs Hu Hsame. apply (predecessor_agree (rep1 := rep) (rep2 := rep)); auto.
Qed.

(** X3. When some inserted key has the prefix of the query [x], the answer is
    the predecessor [y] of [x] among the inserted keys: for the bitset index
    with every sampling parameter, for the list index when the sampling
    parameter is at most 16. *)
Theorem predecessor_right_when_prefix_occupied keys min0 max0 x y :
  0 <= t_sampling <= 40 ->
  (forall k, In k keys -> in_universe k) ->
  occupied keys (prefix x) -> greatest_le keys x y ->
  (exists d, inserts (rep := bv_rep) keys (DynIndex_new min0 max0) = Some d /\
     predecessor (rep := bv_rep) x d = Some (mkResult true y)) /\
  (t_sampling <= 16 ->
   exists d, inserts (rep := list_rep) keys (DynIndex_new min0 max0) = Some d /\
     predecessor (rep := list_rep) x d = Some (mkResult true y)).
Proof.
  intros Hs Hu Hocc Hy. split.
  - apply (predecessor_occupied_gen (rep := bv_rep)); auto.
  - intros H16. apply (predecessor_occupied_gen (rep := list_rep)); auto.
    intros i Hi. apply list_stores_suffix; lia.
Qed.

(** X4. Insert and look up: a query for an inserted key returns that key, for
    the bitset index with every sampling parameter and for the list index
    when the sampling parameter is at most 16. *)
Theorem predecessor_of_inserted_key keys min0 max0 k :
  0 <= t_sampling <= 40 ->
  (forall k', In k' keys -> in_universe k') -> In k keys ->
  (exists d, inserts (rep := bv_rep) keys (DynIndex_new min0 max0) = Some d /\
     predecessor (rep := bv_rep) k d = Some (mkResult true k)) /\
  (t_sampling <= 16 ->
   exists d, inserts (rep := list_rep) keys (DynIndex_new min0 max0) = Some d /\
     predecessor (rep := list_rep) k d = Some (mkResult true k)).
Proof.
  intros Hs Hu Hk. split.
  - apply (predecessor_inserted_gen (rep := bv_rep)); auto.
  - intros H16. apply (predecessor_inserted_gen (rep := list_rep)); auto.
    intros i Hi. apply list_stores_suffix; lia.
Qed.

(** X6. Inserting a key that is already present leaves the bitset index
    exactly as it is. *)
Theorem bitset_reinsert_changes_nothing keys min0 max0 k :
  0 <= t_sampling <= 40 ->
  (forall k', In k' keys -> in_universe k') -> In k keys ->
  exists d, inserts (rep := bv_rep) keys (DynIndex_new min0 max0) = Some d /\
    insert (rep := bv_rep) k d = Some (tt, d).
Proof.
  intros Hs Hu Hk. apply (insert_present_after_inserts (rep := bv_rep)); auto.
  intros i b. apply bv_set_same.
Qed.

(** X21. When the answer is the predecessor.  For a query [x] whose
    predecessor among the inserted keys is [y], [predecessor(x)] returns
    [{true, y}] exactly when some inserted key has the prefix of [x], or
    the suffix of [y] is at most the suffix of [x], or no inserted key is
    above [x]; in every other case the answer is another value.  For the
    bitset index with every sampling parameter, for the list index when the
    sampling parameter is at most 16. *)
Theorem predecessor_right_exactly_when keys min0 max0 x y :
  0 <= t_sampling <= 40 ->
  (forall k, In k keys -> in_universe k) -> greatest_le keys x y ->
  (exists d, inserts (rep := bv_rep) keys (DynIndex_new min0 max0) = Some d /\
     (predecessor (rep := bv_rep) x d = Some (mkResult true y) <->
      occupied keys (prefix x) \/ suffix y <= suffix x \/
      forall k, In k keys -> k <= x)) /\
  (t_sampling <= 16 ->
   exists d, inserts (rep := list_rep) keys (DynIndex_new min0 max0) = Some d /\
     (predecessor (rep := list_rep) x d = Some (mkResult true y) <->
      occupied keys (prefix x) \/ suffix y <= suffix x \/
      forall k, In k keys -> k <= x)).
Proof.
  intros Hs Hu Hy. split.
  - apply (predecessor_right_iff_gen (rep := bv_rep)); auto.
  - intros H16. apply (predecessor_right_iff_gen (rep := list_rep)); auto.
    intros i Hi. apply list_stores_suffix; lia.
Qed.


End Sampling.

(** * The hash map [tdc::hash::Map<K, V>]

    An open-addressing table.  The hash and probe functions are the
    [std::function] members of the map; their results are read as [size_t],
    hence wrapped with [u64].  The two [double] computations of [init] are
    the functions [load_of] (for [size_t(m_load_factor * (double)m_cap)]) and
    [growth_of] (for [size_t((double)m_cap * m_growth_factor)]).  The
    diagnostics compiled in without [NDEBUG] do not influence any result and
    are left out.

    A function returns [None] when the C++ code has no result: a modulo by a
    zero capacity, a vector indexed out of range, or, for the [while] loop
    of [insert_internal], more iterations than the given fuel. *)

Module Hash.

Section Map.

Context {K V : Type} `{EqDecision K}.
Variables (default_K : K) (default_V : V).
Variable m_hash_func : K -> Z.
Variable m_probe_func : Z -> Z.
Variables load_of growth_of : Z -> Z.

Record Map := mkMap {
  m_cap : Z;
  m_size : Z;
  m_probe_max : Z;
  m_used : list bool;
  m_keys : list K;
  m_values : list V;
  m_size_max : Z;
  m_size_grow : Z
}.

(** An accessor is invalid ([m_map == nullptr]) or names a position. *)
Inductive Accessor := Invalid | At (m_pos : Z).

Definition exists_ (a : Accessor) : bool :=
  match a with Invalid => false | At _ => true end.

Definition init (capacity : Z) : Map :=
  let size_max := u64 (load_of capacity) in
  mkMap capacity 0 0
        (replicate (Z.to_nat capacity) false)
        (replicate (Z.to_nat capacity) default_K)
        (replicate (Z.to_nat capacity) default_V)
        size_max
        (Z.max (add64 size_max 1) (u64 (growth_of capacity))).

Definition hash (m : Map) (key : K) : option Z :=
  if m_cap m =? 0 then None else Some (u64 (m_hash_func key) mod m_cap m).

(** The [while (m_used[h])] loop of [insert_internal]: the free position
    and the number of probe steps taken. *)
Fixpoint probe_free (fuel : nat) (m : Map) (hkey h i probe : Z) : option (Z * Z) :=
  match m_used m !! Z.to_nat h with
  | None => None
  | Some false => Some (h, probe)
  | Some true =>
      match fuel with
      | O => None
      | S fuel' =>
          let i' := u64 (m_probe_func i) in
          probe_free fuel' m hkey (add64 hkey i' mod m_cap m) i' (add64 probe 1)
      end
  end.

Definition store (m : Map) (h probe : Z) (key : K) (value : V) : option Map :=
  match m_keys m !! Z.to_nat h, m_values m !! Z.to_nat h with
  | Some _, Some _ =>
      Some (mkMap (m_cap m) (add64 (m_size m) 1) (Z.max (m_probe_max m) probe)
                  (<[Z.to_nat h := true]> (m_used m))
                  (<[Z.to_nat h := key]> (m_keys m))
                  (<[Z.to_nat h := value]> (m_values m))
                  (m_size_max m) (m_size_grow m))
  | _, _ => None
  end.

Definition insert_internal (fuel : nat) (key : K) (value : V) (m : Map) : option Map :=
  match hash m key with
  | None => None
  | Some hkey =>
      match probe_free fuel m hkey hkey 0 0 with
      | None => None
      | Some (h, probe) => store m h probe key value
      end
  end.

(** The loop of [resize] over the old table, [n] positions from [i] on. *)
Fixpoint resize_loop (fuel n i : nat) (used : list bool) (keys : list K)
    (values : list V) (m : Map) : option Map :=
  match n with
  | O => Some m
  | S n' =>
      match used !! i with
      | None => None
      | Some false => resize_loop fuel n' (S i) used keys values m
      | Some true =>
          match keys !! i, values !! i with
          | Some k, Some v =>
              match insert_internal fuel k v m with
              | None => None
              | Some m' => resize_loop fuel n' (S i) used keys values m'
              end
          | _, _ => None
          end
      end
  end.

Definition resize (fuel : nat) (new_cap : Z) (m : Map) : option Map :=
  resize_loop fuel (Z.to_nat (m_cap m)) 0 (m_used m) (m_keys m) (m_values m)
              (init new_cap).

Definition insert (fuel : nat) (key : K) (value : V) (m : Map) : option Map :=
  if add64 (m_size m) 1 >? m_size_max m then
    match resize fuel (m_size_grow m) m with
    | None => None
    | Some m' => insert_internal fuel key value m'
    end
  else insert_internal fuel key value m.

(** [m_used[h] && m_keys[h] == key]. *)
Definition used_with (m : Map) (h : Z) (key : K) : option bool :=
  match m_used m !! Z.to_nat h with
  | None => None
  | Some false => Some false
  | Some true =>
      match m_keys m !! Z.to_nat h with
      | None => None
      | Some k => Some (bool_decide (k = key))
      end
  end.

(** The [for] loop of [find], with [n] iterations left. *)
Fixpoint find_loop (n : nat) (m : Map) (key : K) (hkey i : Z) : option Accessor :=
  match n with
  | O => Some Invalid
  | S n' =>
      let i' := u64 (m_probe_func i) in
      let h := add64 hkey i' mod m_cap m in
      match m_used m !! Z.to_nat h with
      | None => None
      | Some false => Some Invalid
      | Some true =>
          match m_keys m !! Z.to_nat h with
          | None => None
          | Some k =>
              if decide (k = key) then Some (At h) else find_loop n' m key hkey i'
          end
      end
  end.

Definition find (key : K) (m : Map) : option Accessor :=
  match hash m key with
  | None => None
  | Some hkey =>
      match used_with m hkey key with
      | None => None
      | Some true => Some (At hkey)
      | Some false => find_loop (Z.to_nat (m_probe_max m)) m key hkey 0
      end
  end.

Definition erase (a : Accessor) (m : Map) : option Map :=
  match a with
  | Invalid => Some m
  | At pos =>
      match m_used m !! Z.to_nat pos with
      | None => None
      | Some _ =>
          Some (mkMap (m_cap m) (m_size m) (m_probe_max m)
                      (<[Z.to_nat pos := false]> (m_used m))
                      (m_keys m) (m_values m) (m_size_max m) (m_size_grow m))
      end
  end.

Definition erase_key (key : K) (m : Map) : option Map :=
  match find key m with
  | None => None
  | Some a => erase a m
  end.

(** Accessor::key and Accessor::value read the map the accessor points to. *)
Definition key_of (m : Map) (a : Accessor) : option K :=
  match a with Invalid => None | At pos => m_keys m !! Z.to_nat pos end.

Definition value_of (m : Map) (a : Accessor) : option V :=
  match a with Invalid => None | At pos => m_values m !! Z.to_nat pos end.

(** *** The probe sequence and the shape of a table *)

(** The offset [i] after [n] calls of the probe function, and the position
    probed then. *)
Fixpoint offset (n : nat) : Z :=
  match n with
  | O => 0
  | S n' => u64 (m_probe_func (offset n'))
  end.

Definition slot (m : Map) (hkey : Z) (n : nat) : Z :=
  add64 hkey (offset n) mod m_cap m.

Definition used_at (m : Map) (h : Z) : Prop := m_used m !! Z.to_nat h = Some true.
Definition free_at (m : Map) (h : Z) : Prop := m_used m !! Z.to_nat h = Some false.
Definition key_at (m : Map) (h : Z) (k : K) : Prop := m_keys m !! Z.to_nat h = Some k.

(** A used position holds the key. *)
Definition holds_key (m : Map) (k : K) : Prop :=
  exists h, used_at m h /\ key_at m h k.

Record wf (m : Map) : Prop := {
  wf_cap : 0 < m_cap m < 2 ^ 64;
  wf_used : length (m_used m) = Z.to_nat (m_cap m);
  wf_keys : length (m_keys m) = Z.to_nat (m_cap m);
  wf_values : length (m_values m) = Z.to_nat (m_cap m);
  wf_probe : 0 <= m_probe_max m
}.

(** The probe sequence of a key first meets a free position after [n] steps. *)
Definition first_free (m : Map) (hkey : Z) (n : nat) : Prop :=
  (forall s, (s < n)%nat -> used_at m (slot m hkey s)) /\ free_at m (slot m hkey n).

(** The table [insert_internal] leaves when it has found position [h]
    after [probe] steps. *)
Definition put (m : Map) (h probe : Z) (key : K) (value : V) : Map :=
  mkMap (m_cap m) (add64 (m_size m) 1) (Z.max (m_probe_max m) probe)
        (<[Z.to_nat h := true]> (m_used m))
        (<[Z.to_nat h := key]> (m_keys m))
        (<[Z.to_nat h := value]> (m_values m))
        (m_size_max m) (m_size_grow m).

Lemma hash_some m key :
  wf m -> exists hkey, hash m key = Some hkey /\ 0 <= hkey < m_cap m.
Proof.
  intros Hw. destruct (wf_cap m Hw) as [Hc _]. unfold hash.
  destruct (Z.eqb_spec (m_cap m) 0) as [E|E]; [lia|].
  eexists. split; [reflexivity|]. apply Z.mod_pos_bound. lia.
Qed.

Lemma hash_range m key hkey : hash m key = Some hkey -> 0 <= hkey < m_cap m \/ m_cap m < 0.
Proof.
  unfold hash. destruct (Z.eqb_spec (m_cap m) 0) as [E|E]; [discriminate|].
  intros [= <-]. destruct (Z.lt_trichotomy (m_cap m) 0) as [H0|[H0|H0]]; [right; lia|lia|].
  left. apply Z.mod_pos_bound. lia.
Qed.

Lemma hash_in m key hkey : wf m -> hash m key = Some hkey -> 0 <= hkey < m_cap m.
Proof.
  intros Hw Hh. destruct (hash_range _ _ _ Hh) as [H0|H0]; [exact H0|].
  destruct (wf_cap m Hw). lia.
Qed.

Lemma slot_S m hkey n :
  slot m hkey (S n) = add64 hkey (u64 (m_probe_func (offset n))) mod m_cap m.
Proof. reflexivity. Qed.

Lemma slot_0 m hkey : wf m -> 0 <= hkey < m_cap m -> slot m hkey 0 = hkey.
Proof.
  intros Hw Hh. destruct (wf_cap m Hw). unfold slot, add64, u64. simpl offset.
  rewrite Z.add_0_r, (Z.mod_small hkey (2 ^ 64)) by lia. apply Z.mod_small. lia.
Qed.

Lemma slot_range m hkey n : wf m -> 0 <= slot m hkey n < m_cap m.
Proof. intros Hw. destruct (wf_cap m Hw). apply Z.mod_pos_bound. lia. Qed.

Lemma used_or_free m h :
  wf m -> 0 <= h < m_cap m -> used_at m h \/ free_at m h.
Proof.
  intros Hw Hh. unfold used_at, free_at.
  destruct (lookup_lt_is_Some_2 (m_used m) (Z.to_nat h)) as [b Hb].
  { rewrite (wf_used m Hw). lia. }
  rewrite Hb. destruct b; auto.
Qed.

Lemma key_at_some m h : wf m -> 0 <= h < m_cap m -> exists k, key_at m h k.
Proof.
  intros Hw Hh. apply (lookup_lt_is_Some_2 (m_keys m) (Z.to_nat h)).
  rewrite (wf_keys m Hw). lia.
Qed.

Lemma value_at_some m h :
  wf m -> 0 <= h < m_cap m -> exists v, m_values m !! Z.to_nat h = Some v.
Proof.
  intros Hw Hh. apply (lookup_lt_is_Some_2 (m_values m) (Z.to_nat h)).
  rewrite (wf_values m Hw). lia.
Qed.

Lemma probe_free_steps m hkey n :
  forall fuel j probe,
    (forall s, (j <= s < j + n)%nat -> used_at m (slot m hkey s)) ->
    free_at m (slot m hkey (j + n)) ->
    (n <= fuel)%nat ->
    probe_free fuel m hkey (slot m hkey j) (offset j) (u64 probe)
    = Some (slot m hkey (j + n)%nat, u64 (probe + Z.of_nat n)).
Proof.
  induction n as [|n IH]; intros fuel j probe Hu Hf Hle.
  - rewrite Nat.add_0_r in *. rewrite Z.add_0_r.
    destruct fuel; simpl; unfold free_at in Hf; rewrite Hf; reflexivity.
  - destruct fuel as [|fuel]; [lia|]. simpl probe_free.
    pose proof (Hu j ltac:(lia)) as Hj. unfold used_at in Hj. rewrite Hj.
    rewrite <- slot_S.
    replace (add64 (u64 probe) 1) with (u64 (probe + 1)).
    2:{ unfold add64, u64. rewrite Zplus_mod_idemp_l. reflexivity. }
    change (u64 (m_probe_func (offset j))) with (offset (S j)).
    rewrite (IH fuel (S j) (probe + 1)).
    + f_equal. f_equal; [f_equal; lia|f_equal; lia].
    + intros s Hs. apply Hu. lia.
    + replace (S j + n)%nat with (j + S n)%nat by lia. exact Hf.
    + lia.
Qed.

Lemma probe_free_found m hkey :
  forall fuel j probe h p,
    probe_free fuel m hkey (slot m hkey j) (offset j) (u64 probe) = Some (h, p) ->
    exists n, (n <= fuel)%nat /\
      (forall s, (j <= s < j + n)%nat -> used_at m (slot m hkey s)) /\
      free_at m (slot m hkey (j + n)) /\
      h = slot m hkey (j + n) /\ p = u64 (probe + Z.of_nat n).
Proof.
  induction fuel as [|fuel IH]; intros j probe h p; simpl probe_free.
  - destruct (m_used m !! Z.to_nat (slot m hkey j)) as [[|]|] eqn:E; try discriminate.
    intros [= <- <-]. exists 0%nat. rewrite Nat.add_0_r, Z.add_0_r.
    split; [lia|]. split; [intros s Hs; lia|]. split; [exact E|]. split; reflexivity.
  - destruct (m_used m !! Z.to_nat (slot m hkey j)) as [[|]|] eqn:E; try discriminate.
    + rewrite <- slot_S.
      replace (add64 (u64 probe) 1) with (u64 (probe + 1)).
      2:{ unfold add64, u64. rewrite Zplus_mod_idemp_l. reflexivity. }
      change (u64 (m_probe_func (offset j))) with (offset (S j)).
      intros Hr. destruct (IH _ _ _ _ Hr) as (n & Hn & Hu & Hf & -> & ->).
      exists (S n). replace (j + S n)%nat with (S j + n)%nat by lia.
      split; [lia|]. split.
      { intros s Hs. destruct (decide (s = j)) as [->|Hne]; [exact E|]. apply Hu. lia. }
      split; [exact Hf|]. split; [reflexivity|]. f_equal. lia.
    + intros [= <- <-]. exists 0%nat. rewrite Nat.add_0_r, Z.add_0_r.
      split; [lia|]. split; [intros s Hs; lia|]. split; [exact E|]. split; reflexivity.
Qed.

Lemma store_put m h probe key value :
  wf m -> 0 <= h < m_cap m -> store m h probe key value = Some (put m h probe key value).
Proof.
  intros Hw Hh. unfold store.
  destruct (key_at_some m h Hw Hh) as [k Hk]. unfold key_at in Hk. rewrite Hk.
  destruct (value_at_some m h Hw Hh) as [v Hv]. rewrite Hv. reflexivity.
Qed.

Lemma insert_internal_steps fuel key value m hkey n :
  wf m -> hash m key = Some hkey -> first_free m hkey n -> (n <= fuel)%nat ->
  insert_internal fuel key value m
  = Some (put m (slot m hkey n) (u64 (Z.of_nat n)) key value).
Proof.
  intros Hw Hh [Hu Hf] Hle. unfold insert_internal. rewrite Hh.
  pose proof (hash_in _ _ _ Hw Hh) as Hr.
  pose proof (probe_free_steps m hkey n fuel 0 0) as Hp.
  rewrite (slot_0 m hkey Hw Hr) in Hp. simpl offset in Hp.
  change (u64 0) with 0 in Hp. rewrite Hp.
  - simpl. apply store_put; [exact Hw|apply slot_range, Hw].
  - intros s Hs. apply Hu. lia.
  - exact Hf.
  - exact Hle.
Qed.

Lemma insert_internal_found fuel key value m m' :
  wf m -> insert_internal fuel key value m = Some m' ->
  exists hkey n, hash m key = Some hkey /\ (n <= fuel)%nat /\ first_free m hkey n /\
    m' = put m (slot m hkey n) (u64 (Z.of_nat n)) key value.
Proof.
  intros Hw. unfold insert_internal.
  destruct (hash m key) as [hkey|] eqn:Hh; [|discriminate].
  pose proof (hash_in _ _ _ Hw Hh) as Hr.
  destruct (probe_free fuel m hkey hkey 0 0) as [[h p]|] eqn:Hp; [|discriminate].
  pose proof (probe_free_found m hkey fuel 0 0 h p) as Hf.
  rewrite (slot_0 m hkey Hw Hr) in Hf. simpl offset in Hf. change (u64 0) with 0 in Hf.
  destruct (Hf Hp) as (n & Hn & Hu & Hfr & -> & ->). simpl in *.
  rewrite store_put by (try exact Hw; apply slot_range, Hw). intros [= <-].
  exists hkey, n. split; [reflexivity|]. split; [exact Hn|]. split; [|reflexivity].
  split; [|exact Hfr]. intros s Hs. apply Hu. lia.
Qed.

Lemma put_wf m h probe key value :
  wf m -> 0 <= probe -> wf (put m h probe key value).
Proof.
  intros [Hc Hu Hk Hv Hp] H0. split; simpl; rewrite ?length_insert; auto. lia.
Qed.

(** *** The search loop *)

(** A position holds some key other than [key]. *)
Definition other_at (m : Map) (h : Z) (key : K) : Prop :=
  exists k, key_at m h k /\ k <> key.

Lemma find_loop_hit m key hkey :
  forall n j t,
    (1 <= t <= n)%nat ->
    (forall s, (j < s < j + t)%nat ->
       used_at m (slot m hkey s) /\ other_at m (slot m hkey s) key) ->
    used_at m (slot m hkey (j + t)) -> key_at m (slot m hkey (j + t)) key ->
    find_loop n m key hkey (offset j) = Some (At (slot m hkey (j + t))).
Proof.
  induction n as [|n IH]; intros j t Ht Hs Hu Hk; [lia|].
  simpl find_loop. rewrite <- slot_S.
  change (u64 (m_probe_func (offset j))) with (offset (S j)).
  destruct (decide (t = 1%nat)) as [->|Hne].
  - replace (j + 1)%nat with (S j) in * by lia.
    unfold used_at in Hu. unfold key_at in Hk. rewrite Hu, Hk.
    destruct (decide (key = key)); [reflexivity|congruence].
  - destruct (Hs (S j) ltac:(lia)) as [Hu1 (k & Hk1 & Hne1)].
    unfold used_at in Hu1. unfold key_at in Hk1. rewrite Hu1, Hk1.
    destruct (decide (k = key)); [congruence|].
    replace (j + t)%nat with (S j + (t - 1))%nat in * by lia.
    apply IH; auto; [lia|]. intros s Hs'. apply Hs. lia.
Qed.

Lemma find_loop_found m key hkey :
  forall n j p,
    find_loop n m key hkey (offset j) = Some (At p) ->
    exists t, (1 <= t <= n)%nat /\ p = slot m hkey (j + t) /\
      (forall s, (j < s < j + t)%nat ->
         used_at m (slot m hkey s) /\ other_at m (slot m hkey s) key) /\
      used_at m p /\ key_at m p key.
Proof.
  induction n as [|n IH]; intros j p; simpl find_loop; [discriminate|].
  rewrite <- slot_S. change (u64 (m_probe_func (offset j))) with (offset (S j)).
  destruct (m_used m !! Z.to_nat (slot m hkey (S j))) as [[|]|] eqn:Eu; try discriminate.
  destruct (m_keys m !! Z.to_nat (slot m hkey (S j))) as [k|] eqn:Ek; try discriminate.
  destruct (decide (k = key)) as [->|Hne].
  - intros [= <-]. exists 1%nat. replace (j + 1)%nat with (S j) by lia.
    split; [lia|]. split; [reflexivity|]. split; [intros s Hs; lia|]. split; assumption.
  - intros Hr. destruct (IH _ _ Hr) as (t & Ht & -> & Hs & Hu & Hk).
    exists (S t). replace (j + S t)%nat with (S j + t)%nat by lia.
    split; [lia|]. split; [reflexivity|]. split; [|split; assumption].
    intros s Hs'. destruct (decide (s = S j)) as [->|Hn].
    + split; [exact Eu|]. exists k. split; [exact Ek|exact Hne].
    + apply Hs. lia.
Qed.

Lemma find_loop_miss m key hkey :
  forall n j t,
    (1 <= t <= n)%nat ->
    (forall s, (j < s < j + t)%nat ->
       used_at m (slot m hkey s) /\ other_at m (slot m hkey s) key) ->
    free_at m (slot m hkey (j + t)) ->
    find_loop n m key hkey (offset j) = Some Invalid.
Proof.
  induction n as [|n IH]; intros j t Ht Hs Hf; [lia|].
  simpl find_loop. rewrite <- slot_S.
  change (u64 (m_probe_func (offset j))) with (offset (S j)).
  destruct (decide (t = 1%nat)) as [->|Hne].
  - replace (j + 1)%nat with (S j) in * by lia.
    unfold free_at in Hf. rewrite Hf. reflexivity.
  - destruct (Hs (S j) ltac:(lia)) as [Hu1 (k & Hk1 & Hne1)].
    unfold used_at in Hu1. unfold key_at in Hk1. rewrite Hu1, Hk1.
    destruct (decide (k = key)); [congruence|].
    replace (j + t)%nat with (S j + (t - 1))%nat in * by lia.
    apply (IH (S j) (t - 1)%nat); auto; [lia|]. intros s Hs'. apply Hs. lia.
Qed.

Lemma find_loop_reaches m key hkey :
  wf m ->
  forall n j t,
    (1 <= t <= n)%nat ->
    (forall s, (j < s <= j + t)%nat -> used_at m (slot m hkey s)) ->
    key_at m (slot m hkey (j + t)) key ->
    exists p, find_loop n m key hkey (offset j) = Some (At p).
Proof.
  intros Hw. induction n as [|n IH]; intros j t Ht Hs Hk; [lia|].
  simpl find_loop. rewrite <- slot_S.
  change (u64 (m_probe_func (offset j))) with (offset (S j)).
  pose proof (Hs (S j) ltac:(lia)) as Hu1. unfold used_at in Hu1. rewrite Hu1.
  destruct (key_at_some m (slot m hkey (S j)) Hw (slot_range _ _ _ Hw)) as [k Hk1].
  unfold key_at in Hk1. rewrite Hk1.
  destruct (decide (k = key)) as [->|Hne]; [eexists; reflexivity|].
  destruct (decide (t = 1%nat)) as [->|Hne1].
  - replace (j + 1)%nat with (S j) in * by lia. unfold key_at in Hk. congruence.
  - replace (j + t)%nat with (S j + (t - 1))%nat in * by lia.
    apply (IH (S j) (t - 1)%nat); auto; [lia|]. intros s Hs'. apply Hs. lia.
Qed.

Lemma find_loop_total m key hkey :
  wf m -> forall n i, exists a, find_loop n m key hkey i = Some a.
Proof.
  intros Hw. destruct (wf_cap m Hw) as [Hc _].
  induction n as [|n IH]; intros i; simpl find_loop; [eexists; reflexivity|].
  set (h := add64 hkey (u64 (m_probe_func i)) mod m_cap m).
  assert (Hh : 0 <= h < m_cap m) by (apply Z.mod_pos_bound; lia).
  destruct (used_or_free m h Hw Hh) as [Hu|Hf].
  - unfold used_at in Hu. rewrite Hu.
    destruct (key_at_some m h Hw Hh) as [k Hk]. unfold key_at in Hk. rewrite Hk.
    destruct (decide (k = key)); [eexists; reflexivity|apply IH].
  - unfold free_at in Hf. rewrite Hf. eexists; reflexivity.
Qed.

Lemma used_with_true m h key :
  used_with m h key = Some true <-> used_at m h /\ key_at m h key.
Proof.
  unfold used_with, used_at, key_at.
  destruct (m_used m !! Z.to_nat h) as [[|]|]; [|split; [discriminate|intros [? _]; discriminate]..].
  destruct (m_keys m !! Z.to_nat h) as [k|]; [|split; [discriminate|intros [_ ?]; discriminate]].
  destruct (bool_decide_reflect (k = key)) as [->|Hne].
  - split; auto.
  - split; [discriminate|]. intros [_ [= E]]. contradiction.
Qed.

Lemma used_with_false m h key :
  wf m -> 0 <= h < m_cap m ->
  (used_with m h key = Some false <-> free_at m h \/ (used_at m h /\ other_at m h key)).
Proof.
  intros Hw Hh. unfold used_with, used_at, free_at, other_at, key_at.
  destruct (key_at_some m h Hw Hh) as [k Hk]. unfold key_at in Hk.
  destruct (used_or_free m h Hw Hh) as [Hu|Hf].
  - unfold used_at in Hu. rewrite Hu, Hk.
    destruct (bool_decide_reflect (k = key)) as [->|Hne].
    + split; [discriminate|]. intros [?|[_ (k' & [= <-] & Hn)]]; [discriminate|contradiction].
    + split; [|reflexivity]. intros _. right. split; [reflexivity|].
      exists k. split; [reflexivity|exact Hne].
  - unfold free_at in Hf. rewrite Hf. split; [left; reflexivity|reflexivity].
Qed.

(** [find] always has a result on a well-formed table. *)
Lemma find_total key m : wf m -> exists a, find key m = Some a.
Proof.
  intros Hw. unfold find. destruct (hash_some m key Hw) as (hkey & -> & Hr).
  destruct (used_or_free m hkey Hw Hr) as [Hu|Hf];
    destruct (key_at_some m hkey Hw Hr) as [k Hk];
    unfold used_with; unfold used_at, free_at in *; unfold key_at in Hk.
  - rewrite Hu, Hk. destruct (bool_decide (k = key)); [eexists; reflexivity|].
    apply find_loop_total, Hw.
  - rewrite Hf. apply find_loop_total, Hw.
Qed.

(** *** What [insert_internal] changes *)

Lemma put_same m h probe key value :
  wf m -> 0 <= h < m_cap m ->
  used_at (put m h probe key value) h /\ key_at (put m h probe key value) h key /\
  m_values (put m h probe key value) !! Z.to_nat h = Some value.
Proof.
  intros Hw Hh. unfold used_at, key_at, put. simpl.
  rewrite !list_lookup_insert_eq; auto.
  - rewrite (wf_values m Hw). lia.
  - rewrite (wf_keys m Hw). lia.
  - rewrite (wf_used m Hw). lia.
Qed.

Lemma put_other m h probe key value h' :
  Z.to_nat h <> Z.to_nat h' ->
  m_used (put m h probe key value) !! Z.to_nat h' = m_used m !! Z.to_nat h' /\
  m_keys (put m h probe key value) !! Z.to_nat h' = m_keys m !! Z.to_nat h' /\
  m_values (put m h probe key value) !! Z.to_nat h' = m_values m !! Z.to_nat h'.
Proof. intros Hne. simpl. rewrite !list_lookup_insert_ne; auto. Qed.

Lemma free_not_used m h h' : free_at m h -> used_at m h' -> Z.to_nat h <> Z.to_nat h'.
Proof. unfold free_at, used_at. intros Hf Hu E. rewrite E in Hf. congruence. Qed.

Lemma put_keeps m q probe key value h :
  free_at m q -> used_at m h ->
  used_at (put m q probe key value) h /\
  (forall k, key_at m h k -> key_at (put m q probe key value) h k) /\
  m_values (put m q probe key value) !! Z.to_nat h = m_values m !! Z.to_nat h.
Proof.
  intros Hf Hu. pose proof (free_not_used _ _ _ Hf Hu) as Hne.
  destruct (put_other m q probe key value h Hne) as (E1 & E2 & E3).
  unfold used_at, key_at. rewrite E1, E2, E3. auto.
Qed.

Lemma put_keeps_other m q probe key value h k :
  free_at m q -> used_at m h -> other_at m h k -> other_at (put m q probe key value) h k.
Proof.
  intros Hf Hu (k' & Hk & Hne). exists k'. split; [|exact Hne].
  apply (put_keeps m q probe key value h Hf Hu), Hk.
Qed.

Lemma hash_put m q probe key value k :
  hash (put m q probe key value) k = hash m k.
Proof. reflexivity. Qed.

Lemma slot_put m q probe key value hkey n :
  slot (put m q probe key value) hkey n = slot m hkey n.
Proof. reflexivity. Qed.

Lemma used_with_some m h key :
  wf m -> 0 <= h < m_cap m -> exists b, used_with m h key = Some b.
Proof.
  intros Hw Hh. unfold used_with.
  destruct (used_or_free m h Hw Hh) as [Hu|Hf]; unfold used_at, free_at in *.
  - rewrite Hu. destruct (key_at_some m h Hw Hh) as [k Hk]. unfold key_at in Hk.
    rewrite Hk. eexists; reflexivity.
  - rewrite Hf. eexists; reflexivity.
Qed.

Lemma find_sound key m p :
  wf m -> find key m = Some (At p) ->
  0 <= p < m_cap m /\ used_at m p /\ key_at m p key.
Proof.
  intros Hw. unfold find. destruct (hash m key) as [hkey|] eqn:Hh; [|discriminate].
  pose proof (hash_in _ _ _ Hw Hh) as Hr.
  destruct (used_with m hkey key) as [[|]|] eqn:Eu; try discriminate.
  - intros [= <-]. split; [exact Hr|]. apply used_with_true, Eu.
  - intros Hf. change 0 with (offset 0) in Hf.
    destruct (find_loop_found _ _ _ _ _ _ Hf) as (t & Ht & -> & _ & Hu & Hk).
    split; [apply slot_range, Hw|]. split; assumption.
Qed.

(** The table after [insert_internal] has placed [key] at step [n]. *)
Lemma find_in_put key value m hkey n :
  wf m -> hash m key = Some hkey -> first_free m hkey n -> Z.of_nat n < 2 ^ 64 ->
  exists p, find key (put m (slot m hkey n) (u64 (Z.of_nat n)) key value) = Some (At p).
Proof.
  intros Hw Hh [Hu Hf] Hn. set (q := slot m hkey n).
  set (m' := put m q (u64 (Z.of_nat n)) key value).
  pose proof (hash_in _ _ _ Hw Hh) as Hr.
  assert (Hq : 0 <= q < m_cap m) by apply slot_range, Hw.
  assert (Hw' : wf m').
  { apply put_wf; [exact Hw|]. apply Z.mod_pos_bound. lia. }
  destruct (put_same m q (u64 (Z.of_nat n)) key value Hw Hq) as (Hqu & Hqk & _).
  fold m' in Hqu, Hqk. unfold find. change (hash m' key) with (hash m key). rewrite Hh.
  destruct (used_with_some m' hkey key Hw' Hr) as [[|] Eb]; rewrite Eb.
  - eexists; reflexivity.
  - destruct (decide (n = 0%nat)) as [->|Hn0].
    + exfalso. assert (E : q = hkey) by apply (slot_0 m hkey Hw Hr).
      rewrite E in Hqu, Hqk.
      assert (used_with m' hkey key = Some true) by (apply used_with_true; auto).
      congruence.
    + change 0 with (offset 0).
      apply (find_loop_reaches m' key hkey Hw' _ 0%nat n).
      * split; [lia|]. change (m_probe_max m') with (Z.max (m_probe_max m) (u64 (Z.of_nat n))).
        unfold u64. rewrite (Z.mod_small (Z.of_nat n)) by lia. lia.
      * intros s Hs. change (slot m' hkey s) with (slot m hkey s).
        destruct (decide (s = n)) as [->|Hne]; [exact Hqu|].
        apply (put_keeps m q _ key value _ Hf). apply Hu. lia.
      * exact Hqk.
Qed.

(** *** Properties of [insert_internal] and [find] *)

(** X9. [insert_internal] stops at the first free position of the probe
    sequence of the key: with fuel for the [n] steps up to it, it returns the
    table in which that position is used and holds the key and the value,
    the size is one more, the maximal probe length covers [n], and every
    other position is as before. *)
Theorem insert_internal_takes_first_free_slot fuel key value m hkey n :
  wf m -> hash m key = Some hkey -> first_free m hkey n -> (n <= fuel)%nat ->
  exists m',
    insert_internal fuel key value m = Some m' /\ wf m' /\
    m_cap m' = m_cap m /\ m_size m' = add64 (m_size m) 1 /\
    m_probe_max m' = Z.max (m_probe_max m) (u64 (Z.of_nat n)) /\
    used_at m' (slot m hkey n) /\ key_at m' (slot m hkey n) key /\
    value_of m' (At (slot m hkey n)) = Some value /\
    forall h, Z.to_nat h <> Z.to_nat (slot m hkey n) ->
      m_used m' !! Z.to_nat h = m_used m !! Z.to_nat h /\
      m_keys m' !! Z.to_nat h = m_keys m !! Z.to_nat h /\
      m_values m' !! Z.to_nat h = m_values m !! Z.to_nat h.
Proof.
  intros Hw Hh Hff Hle. eexists. split; [apply (insert_internal_steps _ _ _ _ _ _ Hw Hh Hff Hle)|].
  assert (Hq : 0 <= slot m hkey n < m_cap m) by apply slot_range, Hw.
  destruct (put_same m _ (u64 (Z.of_nat n)) key value Hw Hq) as (Hu & Hk & Hv).
  split. { apply put_wf; [exact Hw|]. apply Z.mod_pos_bound. lia. }
  do 3 (split; [reflexivity|]). split; [exact Hu|]. split; [exact Hk|]. split; [exact Hv|].
  intros h Hne. apply put_other. congruence.
Qed.

(** X10. [find] has a result on every well-formed table, and an accessor it
    returns names a used position of the table that holds the key asked
    for. *)
Theorem find_returns_used_position_of_key key m :
  wf m ->
  exists a, find key m = Some a /\
    forall p, a = At p -> 0 <= p < m_cap m /\ used_at m p /\ key_of m a = Some key.
Proof.
  intros Hw. destruct (find_total key m Hw) as [a Ha]. exists a. split; [exact Ha|].
  intros p ->. destruct (find_sound key m p Hw Ha) as (Hr & Hu & Hk). auto.
Qed.

(** X11. A key is found right after [insert_internal] has stored it (with fewer
    than 2^64 probe steps, so that the step counter has not wrapped). *)
Theorem find_after_insert_internal fuel key value m m' :
  wf m -> Z.of_nat fuel < 2 ^ 64 ->
  insert_internal fuel key value m = Some m' ->
  exists p, find key m' = Some (At p) /\ key_of m' (At p) = Some key.
Proof.
  intros Hw Hfuel Hi.
  destruct (insert_internal_found _ _ _ _ _ Hw Hi) as (hkey & n & Hh & Hn & Hff & ->).
  destruct (find_in_put key value m hkey n Hw Hh Hff ltac:(lia)) as [p Hp].
  exists p. split; [exact Hp|]. apply find_sound in Hp; [apply Hp|].
  apply put_wf; [exact Hw|]. apply Z.mod_pos_bound. lia.
Qed.

(** X12. If no used position held the key before, the accessor found after
    [insert_internal] gives the value just stored. *)
Theorem find_fresh_key_gives_stored_value fuel key value m m' :
  wf m -> Z.of_nat fuel < 2 ^ 64 -> ~ holds_key m key ->
  insert_internal fuel key value m = Some m' ->
  exists a, find key m' = Some a /\ exists_ a = true /\
    key_of m' a = Some key /\ value_of m' a = Some value.
Proof.
  intros Hw Hfuel Hfresh Hi.
  destruct (insert_internal_found _ _ _ _ _ Hw Hi) as (hkey & n & Hh & Hn & Hff & ->).
  destruct (find_in_put key value m hkey n Hw Hh Hff ltac:(lia)) as [p Hp].
  set (q := slot m hkey n) in *. set (m' := put m q (u64 (Z.of_nat n)) key value) in *.
  assert (Hw' : wf m') by (apply put_wf; [exact Hw|]; apply Z.mod_pos_bound; lia).
  assert (Hq : 0 <= q < m_cap m) by apply slot_range, Hw.
  destruct (find_sound key m' p Hw' Hp) as (Hr & Hu & Hk).
  exists (At p). split; [exact Hp|]. split; [reflexivity|]. split; [exact Hk|].
  destruct (decide (Z.to_nat q = Z.to_nat p)) as [E|Hne].
  - simpl. rewrite <- E. apply (put_same m q (u64 (Z.of_nat n)) key value Hw Hq).
  - exfalso. apply Hfresh. exists p.
    destruct (put_other m q (u64 (Z.of_nat n)) key value p Hne) as (E1 & E2 & _).
    unfold used_at, key_at in *. fold m' in E1, E2. rewrite <- E1, <- E2. auto.
Qed.

Lemma find_kept key value m hkey n k p :
  wf m -> k <> key -> first_free m hkey n ->
  find k m = Some (At p) ->
  find k (put m (slot m hkey n) (u64 (Z.of_nat n)) key value) = Some (At p).
Proof.
  intros Hw Hne [Hus Hfr] Hfind.
  set (q := slot m hkey n) in *. set (m' := put m q (u64 (Z.of_nat n)) key value).
  assert (Hw' : wf m') by (apply put_wf; [exact Hw|]; apply Z.mod_pos_bound; lia).
  assert (Hq : 0 <= q < m_cap m) by apply slot_range, Hw.
  destruct (find_sound k m p Hw Hfind) as (Hr & Hu & Hk).
  revert Hfind. unfold find. change (hash m' k) with (hash m k).
  destruct (hash m k) as [hk|] eqn:Hhk; [|discriminate].
  pose proof (hash_in _ _ _ Hw Hhk) as Hrk.
  destruct (used_with m hk k) as [[|]|] eqn:Eu; try discriminate.
  - intros [= <-]. apply used_with_true in Eu. destruct Eu as [Hu1 Hk1].
    assert (E : used_with m' hk k = Some true).
    { apply used_with_true. split; apply (put_keeps m q _ key value hk Hfr Hu1); auto. }
    rewrite E. reflexivity.
  - intros Hl. change 0 with (offset 0) in Hl.
    destruct (find_loop_found _ _ _ _ _ _ Hl) as (t & Ht & -> & Hs & _ & _).
    assert (E : used_with m' hk k = Some false).
    { apply (used_with_false m' hk k Hw' Hrk).
      apply (used_with_false m hk k Hw Hrk) in Eu. destruct Eu as [Hf|[Hu1 Ho1]].
      - destruct (decide (Z.to_nat q = Z.to_nat hk)) as [Eq|Hd].
        + right. destruct (put_same m q (u64 (Z.of_nat n)) key value Hw Hq) as (Hqu & Hqk & _).
          unfold used_at, other_at, key_at in *. fold m' in Hqu, Hqk. rewrite <- Eq.
          split; [exact Hqu|]. exists key. split; [exact Hqk|congruence].
        + left. destruct (put_other m q (u64 (Z.of_nat n)) key value hk Hd) as (E1 & _).
          unfold free_at. fold m' in E1. rewrite E1. exact Hf.
      - right. split; [apply (put_keeps m q _ key value hk Hfr Hu1)|].
        apply put_keeps_other; assumption. }
    rewrite E. change 0 with (offset 0).
    change (slot m hk (0 + t)) with (slot m' hk (0 + t)).
    apply find_loop_hit.
    + change (m_probe_max m') with (Z.max (m_probe_max m) (u64 (Z.of_nat n))). lia.
    + intros s Hs'. destruct (Hs s Hs') as [Hus' Hos].
      split; [apply (put_keeps m q _ key value _ Hfr Hus')|].
      apply (put_keeps_other m q _ key value _ k Hfr Hus' Hos).
    + apply (put_keeps m q _ key value _ Hfr Hu).
    + apply (put_keeps m q _ key value _ Hfr Hu), Hk.
Qed.

(** X13. [insert_internal] of one key does not disturb the search for another:
    a different key found before is found at the same position, with the
    same value, afterwards. *)
Theorem find_other_key_unchanged fuel key value m m' k p :
  wf m -> k <> key ->
  insert_internal fuel key value m = Some m' ->
  find k m = Some (At p) ->
  find k m' = Some (At p) /\ value_of m' (At p) = value_of m (At p).
Proof.
  intros Hw Hne Hi Hfind.
  destruct (insert_internal_found _ _ _ _ _ Hw Hi) as (hkey & n & Hh & Hn & Hff & ->).
  split; [apply find_kept; assumption|].
  destruct (find_sound k m p Hw Hfind) as (Hr & Hu & Hk).
  apply (put_keeps m _ (u64 (Z.of_nat n)) key value p (proj2 Hff) Hu).
Qed.

(** *** Erasing *)

(** The table [erase] leaves for a valid accessor. *)
Definition clear (m : Map) (pos : Z) : Map :=
  mkMap (m_cap m) (m_size m) (m_probe_max m) (<[Z.to_nat pos := false]> (m_used m))
        (m_keys m) (m_values m) (m_size_max m) (m_size_grow m).

Lemma erase_clear m pos :
  wf m -> 0 <= pos < m_cap m -> erase (At pos) m = Some (clear m pos).
Proof.
  intros Hw Hp. unfold erase.
  destruct (used_or_free m pos Hw Hp) as [H0|H0]; unfold used_at, free_at in H0;
    rewrite H0; reflexivity.
Qed.

Lemma clear_wf m pos : wf m -> wf (clear m pos).
Proof. intros [Hc Hu Hk Hv Hp]. split; simpl; rewrite ?length_insert; auto. Qed.

Lemma clear_same m pos : wf m -> 0 <= pos < m_cap m -> free_at (clear m pos) pos.
Proof.
  intros Hw Hp. unfold free_at, clear. simpl. apply list_lookup_insert_eq.
  rewrite (wf_used m Hw). lia.
Qed.

Lemma clear_other m pos h :
  Z.to_nat pos <> Z.to_nat h -> m_used (clear m pos) !! Z.to_nat h = m_used m !! Z.to_nat h.
Proof. intros Hne. simpl. apply list_lookup_insert_ne, Hne. Qed.

Lemma clear_used m pos h : used_at (clear m pos) h -> used_at m h.
Proof.
  unfold used_at. intros Hu. destruct (decide (Z.to_nat pos = Z.to_nat h)) as [E|Hne].
  - simpl in Hu. rewrite E in Hu.
    destruct (decide (Z.to_nat h < length (m_used m))%nat) as [Hl|Hl].
    + rewrite list_lookup_insert_eq in Hu by exact Hl. discriminate.
    + rewrite lookup_ge_None_2 in Hu; [discriminate|]. rewrite length_insert. lia.
  - rewrite clear_other in Hu by exact Hne. exact Hu.
Qed.

(** The key is held by at most one used position. *)
Definition at_most_once (m : Map) (key : K) : Prop :=
  forall h h', 0 <= h -> 0 <= h' ->
    used_at m h -> key_at m h key -> used_at m h' -> key_at m h' key -> h = h'.

(** X14. Erasing a key that the table holds at most once: the key is not found
    afterwards; the size the map reports is not decreased. *)
Theorem erase_key_then_not_found key m :
  wf m -> at_most_once m key ->
  exists m', erase_key key m = Some m' /\ wf m' /\
    find key m' = Some Invalid /\ m_size m' = m_size m.
Proof.
  intros Hw Hone. unfold erase_key.
  destruct (find_total key m Hw) as [[|p] Ha]; rewrite Ha.
  - exists m. split; [reflexivity|]. split; [exact Hw|]. split; [exact Ha|reflexivity].
  - destruct (find_sound key m p Hw Ha) as (Hr & Hu & Hk).
    rewrite (erase_clear m p Hw Hr). exists (clear m p).
    split; [reflexivity|]. pose proof (clear_wf m p Hw) as Hw'. split; [exact Hw'|].
    split; [|reflexivity].
    destruct (find_total key (clear m p) Hw') as [[|p'] Ha']; [exact Ha'|].
    exfalso. destruct (find_sound key _ p' Hw' Ha') as (Hr' & Hu' & Hk').
    assert (p' = p).
    { apply Hone; try lia; auto. apply (clear_used m p p' Hu'). }
    subst p'. pose proof (clear_same m p Hw Hr) as Hf.
    unfold used_at, free_at in *. congruence.
Qed.

Lemma find_fresh_position key value m hkey n :
  wf m -> hash m key = Some hkey -> first_free m hkey n -> Z.of_nat n < 2 ^ 64 ->
  ~ holds_key m key ->
  find key (put m (slot m hkey n) (u64 (Z.of_nat n)) key value) = Some (At (slot m hkey n)).
Proof.
  intros Hw Hh Hff Hn Hfresh.
  destruct (find_in_put key value m hkey n Hw Hh Hff Hn) as [p Hp].
  set (q := slot m hkey n) in *. set (m' := put m q (u64 (Z.of_nat n)) key value) in *.
  assert (Hw' : wf m') by (apply put_wf; [exact Hw|]; apply Z.mod_pos_bound; lia).
  assert (Hq : 0 <= q < m_cap m) by apply slot_range, Hw.
  destruct (find_sound key m' p Hw' Hp) as (Hr & Hu & Hk).
  destruct (decide (Z.to_nat q = Z.to_nat p)) as [E|Hne].
  - rewrite Hp. do 2 f_equal. change (m_cap m') with (m_cap m) in Hr. lia.
  - exfalso. apply Hfresh. exists p.
    destruct (put_other m q (u64 (Z.of_nat n)) key value p Hne) as (E1 & E2 & _).
    unfold used_at, key_at in *. fold m' in E1, E2. rewrite <- E1, <- E2. auto.
Qed.

Lemma fresh_other m key h :
  wf m -> 0 <= h < m_cap m -> ~ holds_key m key -> used_at m h -> other_at m h key.
Proof.
  intros Hw Hh Hfresh Hu. destruct (key_at_some m h Hw Hh) as [k Hk].
  exists k. split; [exact Hk|]. intros ->. apply Hfresh. exists h. auto.
Qed.

Lemma put_fresh_other m q probe key value k :
  wf m -> 0 <= q < m_cap m -> k <> key -> ~ holds_key m k ->
  ~ holds_key (put m q probe key value) k.
Proof.
  intros Hw Hq Hne Hfresh (h & Hu & Hk). apply Hfresh. exists h.
  destruct (decide (Z.to_nat q = Z.to_nat h)) as [E|Hd].
  - exfalso. destruct (put_same m q probe key value Hw Hq) as (_ & Hqk & _).
    unfold key_at in *. rewrite E in Hqk. congruence.
  - destruct (put_other m q probe key value h Hd) as (E1 & E2 & _).
    unfold used_at, key_at in *. rewrite <- E1, <- E2. auto.
Qed.

(** X15. Erasing leaves a hole in the probe sequences that ran over the erased
    position.  Two keys with the same home position, neither in the table,
    the home position taken: after both are inserted the second is found
    with its value; once the first is erased the second is no longer found,
    although it was never erased. *)
Theorem erase_hides_colliding_key fuel a va b vb m m1 m2 m3 hkey :
  wf m -> Z.of_nat fuel < 2 ^ 64 -> a <> b ->
  hash m a = Some hkey -> hash m b = Some hkey -> used_at m hkey ->
  ~ holds_key m a -> ~ holds_key m b ->
  insert_internal fuel a va m = Some m1 ->
  insert_internal fuel b vb m1 = Some m2 ->
  erase_key a m2 = Some m3 ->
  (exists p, find b m2 = Some (At p) /\ value_of m2 (At p) = Some vb) /\
  find b m3 = Some Invalid.
Proof.
  intros Hw Hfuel Hab Hha Hhb Hhome Hfa Hfb Hi1 Hi2 He.
  pose proof (hash_in _ _ _ Hw Hha) as Hr.
  destruct (insert_internal_found _ _ _ _ _ Hw Hi1) as (hk1 & n1 & Hh1 & Hn1 & Hff1 & ->).
  assert (hk1 = hkey) by congruence. subst hk1.
  set (q1 := slot m hkey n1) in *. set (m1 := put m q1 (u64 (Z.of_nat n1)) a va) in *.
  assert (Hq1 : 0 <= q1 < m_cap m) by apply slot_range, Hw.
  assert (Hw1 : wf m1) by (apply put_wf; [exact Hw|]; apply Z.mod_pos_bound; lia).
  assert (Hn1' : n1 <> 0%nat).
  { intros ->. destruct Hff1 as [_ Hf]. unfold q1 in *. rewrite (slot_0 m hkey Hw Hr) in Hf.
    unfold used_at, free_at in *. congruence. }
  destruct (insert_internal_found _ _ _ _ _ Hw1 Hi2) as (hk2 & n2 & Hh2 & Hn2 & Hff2 & ->).
  change (hash m1 b) with (hash m b) in Hh2.
  assert (hk2 = hkey) by congruence. subst hk2.
  set (q2 := slot m1 hkey n2) in *. set (m2 := put m1 q2 (u64 (Z.of_nat n2)) b vb) in *.
  assert (Hq2 : 0 <= q2 < m_cap m1) by apply slot_range, Hw1.
  assert (Hw2 : wf m2) by (apply put_wf; [exact Hw1|]; apply Z.mod_pos_bound; lia).
  assert (Hfb1 : ~ holds_key m1 b) by (apply put_fresh_other; auto).
  assert (Hfind_b : find b m2 = Some (At q2)).
  { apply find_fresh_position; auto. lia. }
  assert (Hfind_a : find a m2 = Some (At q1)).
  { apply find_kept; auto. apply find_fresh_position; auto. lia. }
  split.
  { exists q2. split; [exact Hfind_b|]. apply (put_same m1 q2 (u64 (Z.of_nat n2)) b vb Hw1 Hq2). }
  unfold erase_key in He. rewrite Hfind_a in He.
  rewrite (erase_clear m2 q1 Hw2 Hq1) in He. injection He as <-.
  set (m3 := clear m2 q1).
  assert (Hw3 : wf m3) by apply clear_wf, Hw2.
  destruct Hff1 as [Hus1 Hfr1]. destruct Hff2 as [Hus2 Hfr2].
  (* positions used in the first table are untouched *)
  assert (Hkeep : forall h, 0 <= h < m_cap m -> used_at m h ->
                            used_at m3 h /\ other_at m3 h b).
  { intros h Hh Hu.
    pose proof (fresh_other m b h Hw Hh Hfb Hu) as Ho.
    pose proof (free_not_used _ _ _ Hfr1 Hu) as Hne1.
    destruct (put_keeps m q1 (u64 (Z.of_nat n1)) a va h Hfr1 Hu) as (Hu1 & _).
    fold m1 in Hu1.
    pose proof (put_keeps_other m q1 (u64 (Z.of_nat n1)) a va h b Hfr1 Hu Ho) as Ho1.
    fold m1 in Ho1.
    destruct (put_keeps m1 q2 (u64 (Z.of_nat n2)) b vb h Hfr2 Hu1) as (Hu2 & _).
    fold m2 in Hu2.
    pose proof (put_keeps_other m1 q2 (u64 (Z.of_nat n2)) b vb h b Hfr2 Hu1 Ho1) as Ho2.
    fold m2 in Ho2.
    split; [|exact Ho2].
    unfold used_at. unfold m3. rewrite clear_other by exact Hne1. exact Hu2. }
  unfold find. change (hash m3 b) with (hash m b). rewrite Hhb.
  destruct (Hkeep hkey Hr Hhome) as [Hu0 Ho0].
  assert (E : used_with m3 hkey b = Some false).
  { apply (used_with_false m3 hkey b Hw3 Hr). right. split; assumption. }
  rewrite E. change 0 with (offset 0).
  apply (find_loop_miss m3 b hkey _ 0%nat n1).
  - split; [lia|].
    change (m_probe_max m3)
      with (Z.max (Z.max (m_probe_max m) (u64 (Z.of_nat n1))) (u64 (Z.of_nat n2))).
    unfold u64 at 1. rewrite (Z.mod_small (Z.of_nat n1)) by lia. lia.
  - intros s Hs. change (slot m3 hkey s) with (slot m hkey s).
    apply Hkeep; [apply slot_range, Hw|]. apply Hus1. lia.
  - change (slot m3 hkey (0 + n1)) with q1. apply (clear_same m2 q1 Hw2 Hq1).
Qed.

(** X20. [insert_internal] does not look for the key: inserting a key that
    [find] already locates, in a table whose home position for the key is
    used, stores a second entry (the size grows by one) that the search
    never reaches; [find] returns the same position and the old value. *)
Theorem insert_present_key_keeps_first_value fuel key value m m' hkey p :
  wf m -> hash m key = Some hkey -> used_at m hkey ->
  find key m = Some (At p) ->
  insert_internal fuel key value m = Some m' ->
  find key m' = Some (At p) /\ value_of m' (At p) = value_of m (At p) /\
  m_size m' = add64 (m_size m) 1 /\
  exists q, q <> p /\ used_at m' q /\ key_at m' q key /\ value_of m' (At q) = Some value.
Proof.
  intros Hw Hh Hhome Hfind Hi.
  destruct (insert_internal_found _ _ _ _ _ Hw Hi) as (hk & n & Hh' & Hn & [Hus Hfr] & ->).
  assert (hk = hkey) by congruence. subst hk.
  set (q := slot m hkey n) in *. set (m' := put m q (u64 (Z.of_nat n)) key value).
  assert (Hw' : wf m') by (apply put_wf; [exact Hw|]; apply Z.mod_pos_bound; lia).
  assert (Hq : 0 <= q < m_cap m) by apply slot_range, Hw.
  pose proof (hash_in _ _ _ Hw Hh) as Hr.
  destruct (find_sound key m p Hw Hfind) as (Hrp & Hu & Hk).
  destruct (put_same m q (u64 (Z.of_nat n)) key value Hw Hq) as (Hqu & Hqk & Hqv).
  split; [|split; [apply (put_keeps m q (u64 (Z.of_nat n)) key value p Hfr Hu)|]].
  2:{ split; [reflexivity|]. exists q. split; [|split; [exact Hqu|split; [exact Hqk|exact Hqv]]].
      intros ->. unfold used_at, free_at in *. congruence. }
  revert Hfind. unfold find. change (hash m' key) with (hash m key). rewrite Hh.
  destruct (used_with m hkey key) as [[|]|] eqn:Eu; try discriminate.
  - intros [= <-]. apply used_with_true in Eu. destruct Eu as [Hu1 Hk1].
    assert (E : used_with m' hkey key = Some true).
    { apply used_with_true. split; apply (put_keeps m q _ key value hkey Hfr Hu1); auto. }
    rewrite E. reflexivity.
  - intros Hl. change 0 with (offset 0) in Hl.
    destruct (find_loop_found _ _ _ _ _ _ Hl) as (t & Ht & -> & Hs & _ & _).
    assert (E : used_with m' hkey key = Some false).
    { apply (used_with_false m' hkey key Hw' Hr).
      apply (used_with_false m hkey key Hw Hr) in Eu. destruct Eu as [Hf|[Hu1 Ho1]].
      - unfold used_at, free_at in *. congruence.
      - right. split; [apply (put_keeps m q _ key value hkey Hfr Hu1)|].
        apply put_keeps_other; assumption. }
    rewrite E. change 0 with (offset 0).
    change (slot m hkey (0 + t)) with (slot m' hkey (0 + t)).
    apply find_loop_hit.
    + change (m_probe_max m') with (Z.max (m_probe_max m) (u64 (Z.of_nat n))). lia.
    + intros s Hs'. destruct (Hs s Hs') as [Hus' Hos].
      split; [apply (put_keeps m q _ key value _ Hfr Hus')|].
      apply (put_keeps_other m q _ key value _ key Hfr Hus' Hos).
    + apply (put_keeps m q _ key value _ Hfr Hu).
    + apply (put_keeps m q _ key value _ Hfr Hu), Hk.
Qed.

(** *** Counting used positions *)

Fixpoint count_true (l : list bool) : nat :=
  match l with
  | [] => 0
  | b :: r => ((if b then 1 else 0) + count_true r)%nat
  end.

Definition count_used (m : Map) : nat := count_true (m_used m).

Lemma count_true_le l : (count_true l <= length l)%nat.
Proof. induction l as [|[|] l IH]; simpl; lia. Qed.

Lemma count_true_replicate n : count_true (replicate n false) = 0%nat.
Proof. induction n; simpl; auto. Qed.



Lemma count_true_clear l : forall i, (count_true (<[i := false]> l) <= count_true l)%nat.
Proof.
  induction l as [|b l IH]; intros [|i]; simpl; try lia.
  specialize (IH i). destruct b; lia.
Qed.

(** *** A new table *)

Lemma init_wf capacity : 0 < capacity < 2 ^ 64 -> wf (init capacity).
Proof.
  intros Hc. split; simpl; rewrite ?length_replicate; auto; lia.
Qed.

Lemma init_free capacity h : 0 <= h < capacity -> free_at (init capacity) h.
Proof.
  intros Hh. unfold free_at. simpl. apply lookup_replicate_2. lia.
Qed.

(** X16. A table just initialised holds nothing: its size is 0, no position is
    used, and [find] returns the invalid accessor for every key. *)
Theorem find_in_new_table capacity key :
  0 < capacity < 2 ^ 64 ->
  wf (init capacity) /\ m_size (init capacity) = 0 /\ count_used (init capacity) = 0%nat /\
  find key (init capacity) = Some Invalid.
Proof.
  intros Hc. pose proof (init_wf capacity Hc) as Hw. split; [exact Hw|].
  split; [reflexivity|]. split; [apply count_true_replicate|].
  unfold find. destruct (hash_some (init capacity) key Hw) as (hkey & -> & Hr).
  assert (E : used_with (init capacity) hkey key = Some false).
  { apply (used_with_false _ _ _ Hw Hr). left. apply init_free, Hr. }
  rewrite E. reflexivity.
Qed.

(** *** Linear probing *)

Section Linear.

Hypothesis Hlinear : forall i, m_probe_func i = i + 1.











Hypothesis Hload : forall c, 0 <= c -> 0 <= load_of c <= c.
Hypothesis Hgrowth : forall c, 0 < c <= 2 ^ 62 -> c < growth_of c <= 2 ^ 63.





End Linear.

End Map.


(** *** Sample tables

    Keys and values are integers, the hash function is the identity, the
    probe function is linear probing, the load factor is 1 and the growth
    factor 2.  [sample1] holds key 1 at its home position; 5 and 9 have the
    same home position in a table of capacity 4. *)

Definition id_hash (k : Z) : Z := k.
Definition linear (i : Z) : Z := i + 1.
Definition load_1 (c : Z) : Z := c.
Definition growth_2 (c : Z) : Z := 2 * c.

Definition sample0 : @Map Z Z := init 0 0 load_1 growth_2 4.
Definition sample1 : @Map Z Z := put sample0 1 0 1 10.
Definition sample2 : @Map Z Z := put sample1 2 1 5 50.
Definition sample3 : @Map Z Z := put sample2 3 2 9 90.
Definition sample4 : @Map Z Z := clear sample3 2.

Lemma sample_wf :
  wf sample0 /\ wf sample1 /\ wf sample2 /\ wf sample3.
Proof. repeat split; simpl; try reflexivity; lia. Qed.

Lemma sample1_first_free : first_free linear sample1 1 1.
Proof.
  split; [|reflexivity]. intros s Hs. assert (s = 0%nat) as -> by lia. reflexivity.
Qed.

Lemma sample1_fresh k : k <> 1 -> ~ holds_key sample1 k.
Proof.
  intros Hk (h & Hu & Hh). unfold used_at, key_at in *.
  destruct (Z.to_nat h) as [|[|[|[|i]]]]; vm_compute in Hu; vm_compute in Hh; congruence.
Qed.

Lemma insert_internal_takes_first_free_slot_witness :
  wf sample1 /\ hash id_hash sample1 5 = Some 1 /\ first_free linear sample1 1 1 /\
  (1 <= 4)%nat /\
  exists m',
    insert_internal id_hash linear 4 5 50 sample1 = Some m' /\ wf m' /\
    m_cap m' = m_cap sample1 /\ m_size m' = add64 (m_size sample1) 1 /\
    m_probe_max m' = Z.max (m_probe_max sample1) (u64 (Z.of_nat 1)) /\
    used_at m' (slot linear sample1 1 1) /\ key_at m' (slot linear sample1 1 1) 5 /\
    value_of m' (At (slot linear sample1 1 1)) = Some 50 /\
    forall h, Z.to_nat h <> Z.to_nat (slot linear sample1 1 1) ->
      m_used m' !! Z.to_nat h = m_used sample1 !! Z.to_nat h /\
      m_keys m' !! Z.to_nat h = m_keys sample1 !! Z.to_nat h /\
      m_values m' !! Z.to_nat h = m_values sample1 !! Z.to_nat h.
Proof.
  split; [apply sample_wf|]. split; [reflexivity|]. split; [apply sample1_first_free|].
  split; [lia|].
  apply insert_internal_takes_first_free_slot;
    [apply sample_wf|reflexivity|apply sample1_first_free|lia].
Defined.

Lemma find_returns_used_position_of_key_witness :
  wf sample3 /\
  exists a, find id_hash linear 9 sample3 = Some a /\
    forall p, a = At p -> 0 <= p < m_cap sample3 /\ used_at sample3 p /\
                          key_of sample3 a = Some 9.
Proof.
  split; [apply sample_wf|]. apply find_returns_used_position_of_key, sample_wf.
Defined.

Lemma find_after_insert_internal_witness :
  wf sample1 /\ Z.of_nat 4 < 2 ^ 64 /\
  insert_internal id_hash linear 4 5 50 sample1 = Some sample2 /\
  exists p, find id_hash linear 5 sample2 = Some (At p) /\
            key_of sample2 (At p) = Some 5.
Proof.
  split; [apply sample_wf|]. split; [lia|]. split; [reflexivity|].
  apply (find_after_insert_internal id_hash linear 4 5 50 sample1 sample2);
    [apply sample_wf|lia|reflexivity].
Defined.

Lemma find_fresh_key_gives_stored_value_witness :
  wf sample1 /\ Z.of_nat 4 < 2 ^ 64 /\ ~ holds_key sample1 5 /\
  insert_internal id_hash linear 4 5 50 sample1 = Some sample2 /\
  exists a, find id_hash linear 5 sample2 = Some a /\ exists_ a = true /\
    key_of sample2 a = Some 5 /\ value_of sample2 a = Some 50.
Proof.
  assert (Hf : ~ holds_key sample1 5) by (apply sample1_fresh; lia).
  split; [apply sample_wf|]. split; [lia|]. split; [exact Hf|]. split; [reflexivity|].
  apply (find_fresh_key_gives_stored_value id_hash linear 4 5 50 sample1 sample2);
    [apply sample_wf|lia|exact Hf|reflexivity].
Defined.

Lemma find_other_key_unchanged_witness :
  wf sample1 /\ 1 <> 5 /\
  insert_internal id_hash linear 4 5 50 sample1 = Some sample2 /\
  find id_hash linear 1 sample1 = Some (At 1) /\
  find id_hash linear 1 sample2 = Some (At 1) /\
  value_of sample2 (At 1) = value_of sample1 (At 1).
Proof.
  split; [apply sample_wf|]. split; [lia|]. split; [reflexivity|]. split; [reflexivity|].
  apply (find_other_key_unchanged id_hash linear 4 5 50 sample1 sample2 1 1);
    [apply sample_wf|lia|reflexivity|reflexivity].
Defined.

Lemma sample3_once : at_most_once sample3 5.
Proof.
  intros h h' Hh Hh' Hu Hk Hu' Hk'. unfold used_at, key_at in *.
  assert (Z.to_nat h = 2%nat).
  { destruct (Z.to_nat h) as [|[|[|[|i]]]]; vm_compute in Hu; vm_compute in Hk;
      congruence. }
  assert (Z.to_nat h' = 2%nat).
  { destruct (Z.to_nat h') as [|[|[|[|i]]]]; vm_compute in Hu'; vm_compute in Hk';
      congruence. }
  lia.
Qed.

Lemma erase_key_then_not_found_witness :
  wf sample3 /\ at_most_once sample3 5 /\
  exists m', erase_key id_hash linear 5 sample3 = Some m' /\ wf m' /\
    find id_hash linear 5 m' = Some Invalid /\ m_size m' = m_size sample3.
Proof.
  split; [apply sample_wf|]. split; [apply sample3_once|].
  apply erase_key_then_not_found; [apply sample_wf|apply sample3_once].
Defined.

Lemma erase_hides_colliding_key_witness :
  wf sample1 /\ Z.of_nat 4 < 2 ^ 64 /\ 5 <> 9 /\
  hash id_hash sample1 5 = Some 1 /\ hash id_hash sample1 9 = Some 1 /\
  used_at sample1 1 /\ ~ holds_key sample1 5 /\ ~ holds_key sample1 9 /\
  insert_internal id_hash linear 4 5 50 sample1 = Some sample2 /\
  insert_internal id_hash linear 4 9 90 sample2 = Some sample3 /\
  erase_key id_hash linear 5 sample3 = Some sample4 /\
  (exists p, find id_hash linear 9 sample3 = Some (At p) /\
             value_of sample3 (At p) = Some 90) /\
  find id_hash linear 9 sample4 = Some Invalid.
Proof.
  assert (Hf5 : ~ holds_key sample1 5) by (apply sample1_fresh; lia).
  assert (Hf9 : ~ holds_key sample1 9) by (apply sample1_fresh; lia).
  split; [apply sample_wf|]. split; [lia|]. split; [lia|].
  do 3 (split; [reflexivity|]). split; [exact Hf5|]. split; [exact Hf9|].
  do 3 (split; [reflexivity|]).
  apply (erase_hides_colliding_key id_hash linear 4 5 50 9 90
           sample1 sample2 sample3 sample4 1);
    [apply sample_wf|lia|lia|reflexivity|reflexivity|reflexivity|exact Hf5|exact Hf9|
     reflexivity|reflexivity|reflexivity].
Defined.

Lemma find_in_new_table_witness :
  0 < 4 < 2 ^ 64 /\
  wf sample0 /\ m_size sample0 = 0 /\ count_used sample0 = 0%nat /\
  find id_hash linear 7 sample0 = Some Invalid.
Proof.
  split; [lia|]. apply (find_in_new_table 0 0 id_hash linear load_1 growth_2 4 7). lia.
Defined.







Lemma insert_present_key_keeps_first_value_witness :
  wf sample2 /\ hash id_hash sample2 5 = Some 1 /\ used_at sample2 1 /\
  find id_hash linear 5 sample2 = Some (At 2) /\
  insert_internal id_hash linear 4 5 55 sample2 = Some (put sample2 3 2 5 55) /\
  find id_hash linear 5 (put sample2 3 2 5 55) = Some (At 2) /\
  value_of (put sample2 3 2 5 55) (At 2) = value_of sample2 (At 2) /\
  m_size (put sample2 3 2 5 55) = add64 (m_size sample2) 1 /\
  exists q, q <> 2 /\ used_at (put sample2 3 2 5 55) q /\
    key_at (put sample2 3 2 5 55) q 5 /\
    value_of (put sample2 3 2 5 55) (At q) = Some 55.
Proof.
  split; [apply sample_wf|]. do 4 (split; [reflexivity|]).
  apply (insert_present_key_keeps_first_value id_hash linear 4 5 55 sample2
           (put sample2 3 2 5 55) 1 2);
    [apply sample_wf|reflexivity|reflexivity|reflexivity|reflexivity].
Defined.

End Hash.


(** * The bit output stream [tdc::io::BitOStream]

    The stream buffers one byte [m_next] and writes bits into it from bit
    [MSB] downwards; [m_cursor] is the next bit position and is signed (the
    code tests [m_cursor < 0]).  The underlying [std::ostream] is the list
    of the bytes put so far.  The constant [MSB] is declared in the class
    header; here it is a parameter, and the properties are proved for every
    value that fits a byte.  [m_next] is a byte ([u8]), the counter
    [m_bits_written] a [size_t]. *)

Module Io.

Definition u8 (x : Z) : Z := x mod 2 ^ 8.

Section BitOStream.

Variable MSB : Z.

Record BitOStream := mkBitOStream {
  m_stream : list Z;
  m_next : Z;
  m_cursor : Z;
  m_bits_written : Z
}.

Definition reset (s : BitOStream) : BitOStream :=
  mkBitOStream (m_stream s) 0 MSB (m_bits_written s).

Definition write_next (s : BitOStream) : BitOStream :=
  reset (mkBitOStream (m_stream s ++ [u8 (m_next s)]) (m_next s) (m_cursor s)
                      (m_bits_written s)).

(** The constructor, on a stream that holds [stream] already. *)
Definition BitOStream_new (stream : list Z) (bits_written : Z) : BitOStream :=
  reset (mkBitOStream stream 0 0 bits_written).

Definition write_bit (b : bool) (s : BitOStream) : BitOStream :=
  let next := u8 (Z.lor (m_next s) (Z.shiftl (Z.b2z b) (m_cursor s))) in
  let cursor := m_cursor s - 1 in
  let s1 := mkBitOStream (m_stream s) next cursor (m_bits_written s) in
  let s2 := if cursor <? 0 then write_next s1 else s1 in
  mkBitOStream (m_stream s2) (m_next s2) (m_cursor s2) (add64 (m_bits_written s2) 1).

(** The destructor; the result is the final content of the stream. *)
Definition BitOStream_delete (s : BitOStream) : list Z :=
  let set_bits := u8 (MSB - m_cursor s) in
  if m_cursor s >=? 2 then
    m_stream (write_next (mkBitOStream (m_stream s) (u8 (Z.lor (m_next s) set_bits))
                                       (m_cursor s) (m_bits_written s)))
  else
    let s1 := write_next s in
    m_stream (write_next (mkBitOStream (m_stream s1) set_bits (m_cursor s1)
                                       (m_bits_written s1))).

(** A sequence of calls of [write_bit]. *)
Definition write_bits (bs : list bool) (s : BitOStream) : BitOStream :=
  fold_left (fun s b => write_bit b s) bs s.

(** Bits per byte of the stream. *)
Definition width : Z := MSB + 1.

(** The stream [s] holds the bits [bs] after the bytes [out0]: whole bytes
    in the underlying stream, the rest in the buffer, bit [i] at position
    [MSB - i mod width] of byte [i / width]. *)
Definition holds_bits (out0 : list Z) (w0 : Z) (bs : list bool) (s : BitOStream) : Prop :=
  let len := Z.of_nat (length bs) in
  exists bytes,
    m_stream s = out0 ++ bytes /\
    Z.of_nat (length bytes) = len / width /\
    m_cursor s = MSB - len mod width /\
    m_bits_written s = u64 (w0 + len) /\
    (forall j, 0 <= j -> j <= m_cursor s \/ MSB < j -> Z.testbit (m_next s) j = false) /\
    (forall i, 0 <= i < len ->
       Z.testbit (nth (Z.to_nat (i / width)) (bytes ++ [m_next s]) 0) (MSB - i mod width)
       = nth (Z.to_nat i) bs false) /\
    List.Forall (fun x => 0 <= x < 256) bytes.

Lemma testbit_u8 x j :
  0 <= j -> Z.testbit (u8 x) j = if j <? 8 then Z.testbit x j else false.
Proof.
  intros Hj. unfold u8. destruct (Z.ltb_spec j 8).
  - apply Z.mod_pow2_bits_low. lia.
  - apply Z.mod_pow2_bits_high. lia.
Qed.

Lemma testbit_b2z_shift (b : bool) c j :
  0 <= c -> 0 <= j -> Z.testbit (Z.shiftl (Z.b2z b) c) j = b && (j =? c).
Proof.
  intros Hc Hj. rewrite Z.shiftl_spec by lia.
  destruct (Z.eqb_spec j c) as [->|Hne].
  - rewrite Z.sub_diag, Z.b2z_bit0, andb_true_r. reflexivity.
  - rewrite andb_false_r. destruct (Z.lt_trichotomy j c) as [H|[H|H]]; [|lia|].
    + apply Z.testbit_neg_r. lia.
    + destruct b; simpl Z.b2z; [|apply Z.bits_0].
      destruct (j - c) eqn:E; try lia. reflexivity.
Qed.

Lemma u8_range x : 0 <= u8 x < 256.
Proof. apply Z.mod_pos_bound. lia. Qed.

(** A byte whose bits above [MSB] are clear is not changed by [u8]. *)
Lemma u8_id x :
  MSB <= 7 -> (forall j, MSB < j -> Z.testbit x j = false) -> u8 x = x.
Proof.
  intros HM Hx. apply Z.bits_inj'. intros j Hj. rewrite testbit_u8 by lia.
  destruct (Z.ltb_spec j 8); [reflexivity|]. symmetry. apply Hx. lia.
Qed.

Hypothesis HMSB : 0 <= MSB <= 7.

Lemma holds_bits_new out0 w0 :
  is_u64 w0 -> holds_bits out0 w0 [] (BitOStream_new out0 w0).
Proof.
  intros Hw0. exists []. unfold width. simpl.
  rewrite app_nil_r, Z.add_0_r, Z.div_0_l, Z.mod_0_l, Z.sub_0_r by lia.
  split; [reflexivity|]. split; [reflexivity|]. split; [reflexivity|].
  split; [symmetry; apply u64_small, Hw0|]. split; [intros j _ _; apply Z.bits_0|].
  split; [intros i Hi; lia|]. apply List.Forall_nil.
Qed.

Lemma succ_div_mod len W :
  0 < W -> 0 <= len ->
  (len mod W < W - 1 /\ (len + 1) / W = len / W /\ (len + 1) mod W = len mod W + 1) \/
  (len mod W = W - 1 /\ (len + 1) / W = len / W + 1 /\ (len + 1) mod W = 0).
Proof.
  intros HW Hlen. pose proof (Z.div_mod len W ltac:(lia)) as E.
  pose proof (Z.mod_pos_bound len W HW) as Hr.
  destruct (decide (len mod W < W - 1)) as [Hlt|Hge]; [left|right].
  - split; [exact Hlt|]. split.
    + symmetry. apply (Z.div_unique _ _ _ (len mod W + 1)); lia.
    + symmetry. apply (Z.mod_unique _ _ (len / W)); lia.
  - split; [lia|]. split.
    + symmetry. apply (Z.div_unique _ _ _ 0); lia.
    + symmetry. apply (Z.mod_unique _ _ (len / W + 1)); lia.
Qed.

Lemma holds_bits_write_bit out0 w0 bs b s :
  holds_bits out0 w0 bs s -> holds_bits out0 w0 (bs ++ [b]) (write_bit b s).
Proof.
  intros (bytes & Hst & Hlen & Hcur & Hw & Hclear & Hbits & Hrange).
  unfold holds_bits. rewrite length_app. simpl length.
  replace (Z.of_nat (length bs + 1)) with (Z.of_nat (length bs) + 1) by lia.
  set (len := Z.of_nat (length bs)) in *.
  assert (HW : 0 < width) by (unfold width; lia).
  assert (Hlen0 : 0 <= len) by (unfold len; lia).
  pose proof (Z.mod_pos_bound len width HW) as Hr.
  pose proof (Z.div_mod len width ltac:(lia)) as Hdm.
  assert (Hq0 : 0 <= len / width) by (apply Z.div_pos; lia).
  set (c := m_cursor s) in *.
  assert (Hc : 0 <= c <= MSB) by (unfold width in *; lia).
  set (nx := Z.lor (m_next s) (Z.shiftl (Z.b2z b) c)).
  assert (Hnx : forall j, 0 <= j ->
            Z.testbit nx j = Z.testbit (m_next s) j || (b && (j =? c))).
  { intros j Hj. unfold nx. rewrite Z.lor_spec, testbit_b2z_shift by lia. reflexivity. }
  assert (Hu8 : u8 nx = nx).
  { apply u8_id; [lia|]. intros j Hj. rewrite Hnx by lia.
    rewrite Hclear by lia. destruct (Z.eqb_spec j c); [lia|]. rewrite andb_false_r.
    reflexivity. }
  (* the bits written, with the new bit in the buffered byte *)
  assert (Hnew : forall i, 0 <= i < len + 1 ->
            Z.testbit (nth (Z.to_nat (i / width)) (bytes ++ [nx]) 0) (MSB - i mod width)
            = nth (Z.to_nat i) (bs ++ [b]) false).
  { intros i Hi.
    pose proof (Z.mod_pos_bound i width HW) as Hri.
    pose proof (Z.div_mod i width ltac:(lia)) as Hdi.
    assert (Hqi : 0 <= i / width) by (apply Z.div_pos; lia).
    assert (Hqle : i / width <= len / width) by (apply Z.div_le_mono; lia).
    destruct (decide (i / width < len / width)) as [Hlow|Hhigh].
    - assert (Hil : i < len) by nia.
      rewrite app_nth1 by lia. rewrite (app_nth1 bs) by lia.
      rewrite <- (Hbits i) by lia. rewrite app_nth1 by lia. reflexivity.
    - assert (Hqe : i / width = len / width) by lia.
      replace (Z.to_nat (i / width)) with (length bytes) by lia.
      rewrite nth_middle, Hnx by (unfold width in *; lia).
      destruct (decide (i = len)) as [->|Hne].
      + replace (Z.to_nat len) with (length bs) by lia. rewrite nth_middle.
        rewrite Hclear by lia.
        replace (MSB - len mod width =? c) with true by (symmetry; apply Z.eqb_eq; lia).
        rewrite andb_true_r. reflexivity.
      + assert (Hil : i < len) by lia. rewrite (app_nth1 bs) by lia.
        rewrite <- (Hbits i) by lia.
        replace (Z.to_nat (i / width)) with (length bytes) by lia.
        rewrite nth_middle.
        assert (Hlt : i mod width < len mod width) by nia.
        destruct (Z.eqb_spec (MSB - i mod width) c); [lia|].
        rewrite andb_false_r, orb_false_r. reflexivity. }
  unfold write_bit. fold c. fold nx. rewrite Hu8. simpl.
  destruct (succ_div_mod len width HW Hlen0) as [(Hlt & Ed & Em)|(Hlt & Ed & Em)];
    rewrite Ed, Em.
  - destruct (Z.ltb_spec (c - 1) 0) as [Hneg|Hpos]; [unfold width in *; lia|]. simpl.
    exists bytes. split; [exact Hst|]. split; [exact Hlen|]. split; [lia|].
    split. { rewrite Hw. unfold add64, u64. rewrite Zplus_mod_idemp_l. f_equal. lia. }
    split.
    { intros j Hj Hjc. rewrite Hnx, Hclear by lia.
      destruct (Z.eqb_spec j c); [lia|]. rewrite andb_false_r. reflexivity. }
    split; [exact Hnew|exact Hrange].
  - destruct (Z.ltb_spec (c - 1) 0) as [Hneg|Hpos]; [|unfold width in *; lia]. simpl.
    rewrite Hu8. exists (bytes ++ [nx]).
    split; [rewrite Hst, app_assoc; reflexivity|].
    split; [rewrite length_app; simpl; lia|]. split; [lia|].
    split. { rewrite Hw. unfold add64, u64. rewrite Zplus_mod_idemp_l. f_equal. lia. }
    split; [intros j _ _; apply Z.bits_0|].
    split.
    { intros i Hi. rewrite <- (Hnew i Hi).
      assert (Hqle : i / width <= len / width) by (apply Z.div_le_mono; lia).
      assert (Hqi : 0 <= i / width) by (apply Z.div_pos; lia).
      rewrite app_nth1; [reflexivity|]. rewrite length_app. simpl. lia. }
    apply Forall_app. split; [exact Hrange|]. apply List.Forall_cons; [|apply List.Forall_nil].
    rewrite <- Hu8. apply u8_range.
Qed.

Lemma write_bits_snoc bs b s : write_bits (bs ++ [b]) s = write_bit b (write_bits bs s).
Proof. unfold write_bits. rewrite fold_left_app. reflexivity. Qed.

Lemma holds_bits_write_bits out0 w0 bs :
  is_u64 w0 -> holds_bits out0 w0 bs (write_bits bs (BitOStream_new out0 w0)).
Proof.
  intros Hw0. induction bs as [|b bs IH] using rev_ind.
  - apply holds_bits_new, Hw0.
  - rewrite write_bits_snoc. apply holds_bits_write_bit, IH.
Qed.

Lemma small_high_bits r j : 0 <= r < 8 -> 3 <= j -> Z.testbit r j = false.
Proof.
  intros Hr Hj. rewrite <- (Z.mod_small r (2 ^ 3)) by (change (2 ^ 3) with 8; lia).
  apply Z.mod_pow2_bits_high. lia.
Qed.

Lemma land_7 x : Z.land x 7 = x mod 2 ^ 3.
Proof. change 7 with (Z.ones 3). apply Z.land_ones. lia. Qed.

(** X18. Bits written one after the other are packed from bit [MSB] downwards:
    after [write_bit] for each bit of [bs] on a new stream, the underlying
    stream has gained one byte per [MSB + 1] bits, the cursor stands at the
    next free position, the counter has advanced by the number of bits, and
    bit [i] is bit [MSB - i mod (MSB + 1)] of byte [i / (MSB + 1)], the
    buffered byte counting as the last one; the buffer is clear from the
    cursor downwards. *)
Theorem write_bit_packs_from_msb out0 w0 bs :
  is_u64 w0 ->
  let s := write_bits bs (BitOStream_new out0 w0) in
  let len := Z.of_nat (length bs) in
  exists bytes,
    m_stream s = out0 ++ bytes /\
    Z.of_nat (length bytes) = len / (MSB + 1) /\
    m_cursor s = MSB - len mod (MSB + 1) /\
    m_bits_written s = u64 (w0 + len) /\
    (forall j, 0 <= j <= m_cursor s -> Z.testbit (m_next s) j = false) /\
    (forall i, 0 <= i < len ->
       Z.testbit (nth (Z.to_nat (i / (MSB + 1))) (bytes ++ [m_next s]) 0)
                 (MSB - i mod (MSB + 1))
       = nth (Z.to_nat i) bs false) /\
    List.Forall (fun x => 0 <= x < 256) bytes.
Proof.
  intros Hw0 s len.
  destruct (holds_bits_write_bits out0 w0 bs Hw0)
    as (bytes & Hst & Hlen & Hcur & Hw & Hclear & Hbits & Hrange).
  exists bytes. split; [exact Hst|]. split; [exact Hlen|]. split; [exact Hcur|].
  split; [exact Hw|]. split; [|split; [exact Hbits|exact Hrange]].
  intros j Hj. unfold s in Hj. apply Hclear; lia.
Qed.

(** X19. The destructor ends the stream with the number of bits used in the last
    data byte: the final stream is the bytes before, the data bytes and a
    last byte whose three low bits are [length bs mod (MSB + 1)]; the count
    shares the last data byte when at least three of its bits are free
    and takes a byte of its own otherwise; every bit written is still at its
    place. *)
Theorem delete_appends_bit_count out0 w0 bs :
  is_u64 w0 ->
  let len := Z.of_nat (length bs) in
  let r := len mod (MSB + 1) in
  exists bytes last,
    BitOStream_delete (write_bits bs (BitOStream_new out0 w0)) = out0 ++ bytes ++ [last] /\
    Z.land last 7 = r /\
    Z.of_nat (length bytes) = len / (MSB + 1) + (if r <=? MSB - 2 then 0 else 1) /\
    forall i, 0 <= i < len ->
      Z.testbit (nth (Z.to_nat (i / (MSB + 1))) (bytes ++ [last]) 0)
                (MSB - i mod (MSB + 1))
      = nth (Z.to_nat i) bs false.
Proof.
  intros Hw0 len r.
  destruct (holds_bits_write_bits out0 w0 bs Hw0)
    as (bytes & Hst & Hlen & Hcur & Hw & Hclear & Hbits & Hrange).
  set (s := write_bits bs (BitOStream_new out0 w0)) in *.
  fold len in Hlen, Hcur, Hbits. unfold width in *. fold r in Hcur.
  assert (HW : 0 < MSB + 1) by lia.
  pose proof (Z.mod_pos_bound len (MSB + 1) HW) as Hr. fold r in Hr.
  assert (Hset : u8 (MSB - m_cursor s) = r).
  { rewrite Hcur. replace (MSB - (MSB - r)) with r by lia.
    apply Z.mod_small. change (2 ^ 8) with 256. lia. }
  assert (Hnext : u8 (m_next s) = m_next s).
  { apply u8_id; [lia|]. intros j Hj. apply Hclear; lia. }
  unfold BitOStream_delete. rewrite Hset, Z.geb_leb.
  destruct (Z.leb_spec 2 (m_cursor s)) as [Hfree|Hfull].
  - (* the count goes into the last data byte *)
    destruct (Z.leb_spec r (MSB - 2)) as [_|Hc]; [|lia].
    set (last := Z.lor (m_next s) r).
    assert (Hlast : forall j, 0 <= j ->
              Z.testbit last j = Z.testbit (m_next s) j || Z.testbit r j).
    { intros j Hj. apply Z.lor_spec. }
    assert (Hu8 : u8 last = last).
    { apply u8_id; [lia|]. intros j Hj. rewrite Hlast by lia.
      rewrite Hclear by lia. apply small_high_bits; lia. }
    exists bytes, last. simpl. rewrite Hu8, Hu8, Hst.
    split; [rewrite <- app_assoc; reflexivity|]. split.
    { rewrite land_7. transitivity (r mod 2 ^ 3);
        [|apply Z.mod_small; change (2 ^ 3) with 8; lia].
      apply Z.bits_inj'. intros j Hj.
      destruct (Z.ltb_spec j 3) as [Hlo|Hhi].
      - rewrite !Z.mod_pow2_bits_low by lia. rewrite Hlast by lia.
        rewrite Hclear by lia. reflexivity.
      - rewrite !Z.mod_pow2_bits_high by lia. reflexivity. }
    split; [lia|].
    intros i Hi. rewrite <- (Hbits i Hi).
    pose proof (Z.mod_pos_bound i (MSB + 1) HW) as Hri.
    pose proof (Z.div_mod i (MSB + 1) ltac:(lia)) as Hdi.
    pose proof (Z.div_mod len (MSB + 1) ltac:(lia)) as Hdl. fold r in Hdl.
    assert (Hqi : 0 <= i / (MSB + 1)) by (apply Z.div_pos; lia).
    assert (Hqle : i / (MSB + 1) <= len / (MSB + 1)) by (apply Z.div_le_mono; lia).
    destruct (decide (i / (MSB + 1) < len / (MSB + 1))) as [Hlow|Hhigh].
    + rewrite !app_nth1 by lia. reflexivity.
    + replace (Z.to_nat (i / (MSB + 1))) with (length bytes) by lia.
      rewrite !nth_middle. rewrite Hlast by lia.
      assert (Hlt : i mod (MSB + 1) < r) by nia.
      rewrite (small_high_bits r) by lia. apply orb_false_r.
  - (* the count takes a byte of its own *)
    destruct (Z.leb_spec r (MSB - 2)) as [Hc|_]; [lia|].
    assert (Hu8 : u8 r = r) by (apply Z.mod_small; change (2 ^ 8) with 256; lia).
    exists (bytes ++ [m_next s]), r. simpl. rewrite Hu8, Hnext, Hst.
    split; [rewrite <- !app_assoc; reflexivity|]. split.
    { rewrite land_7. apply Z.mod_small. change (2 ^ 3) with 8. lia. }
    split; [rewrite length_app; simpl; lia|].
    intros i Hi. rewrite <- (Hbits i Hi).
    assert (Hqi : 0 <= i / (MSB + 1)) by (apply Z.div_pos; lia).
    assert (Hqle : i / (MSB + 1) <= len / (MSB + 1)) by (apply Z.div_le_mono; lia).
    rewrite (app_nth1 (bytes ++ [m_next s])); [reflexivity|].
    rewrite length_app. simpl. lia.
Qed.

End BitOStream.


(** Ten bits written to a new stream of bytes. *)
Definition sample_bits : list bool :=
  [true; false; true; true; false; false; true; false; true; true].

Lemma write_bit_packs_from_msb_witness :
  0 <= 7 <= 7 /\ is_u64 0 /\
  let s := write_bits 7 sample_bits (BitOStream_new 7 [] 0) in
  let len := Z.of_nat (length sample_bits) in
  exists bytes,
    m_stream s = [] ++ bytes /\
    Z.of_nat (length bytes) = len / (7 + 1) /\
    m_cursor s = 7 - len mod (7 + 1) /\
    m_bits_written s = u64 (0 + len) /\
    (forall j, 0 <= j <= m_cursor s -> Z.testbit (m_next s) j = false) /\
    (forall i, 0 <= i < len ->
       Z.testbit (nth (Z.to_nat (i / (7 + 1))) (bytes ++ [m_next s]) 0)
                 (7 - i mod (7 + 1))
       = nth (Z.to_nat i) sample_bits false) /\
    List.Forall (fun x => 0 <= x < 256) bytes.
Proof.
  assert (H7 : 0 <= 7 <= 7) by lia.
  assert (H0 : is_u64 0) by (unfold is_u64; lia).
  split; [exact H7|]. split; [exact H0|].
  exact (write_bit_packs_from_msb 7 H7 [] 0 sample_bits H0).
Defined.

Lemma delete_appends_bit_count_witness :
  0 <= 7 <= 7 /\ is_u64 0 /\
  let len := Z.of_nat (length sample_bits) in
  let r := len mod (7 + 1) in
  exists bytes last,
    BitOStream_delete 7 (write_bits 7 sample_bits (BitOStream_new 7 [] 0))
    = [] ++ bytes ++ [last] /\
    Z.land last 7 = r /\
    Z.of_nat (length bytes) = len / (7 + 1) + (if r <=? 7 - 2 then 0 else 1) /\
    forall i, 0 <= i < len ->
      Z.testbit (nth (Z.to_nat (i / (7 + 1))) (bytes ++ [last]) 0)
                (7 - i mod (7 + 1))
      = nth (Z.to_nat i) sample_bits false.
Proof.
  assert (H7 : 0 <= 7 <= 7) by lia.
  assert (H0 : is_u64 0) by (unfold is_u64; lia).
  split; [exact H7|]. split; [exact H0|].
  exact (delete_appends_bit_count 7 H7 [] 0 sample_bits H0).
Defined.

(** The bytes of the sample: 1011 0010, then 11 and the count 2 in one byte. *)
Example delete_sample :
  BitOStream_delete 7 (write_bits 7 sample_bits (BitOStream_new 7 [] 0)) = [178; 194].
Proof. reflexivity. Qed.

End Io.


(** * Concrete runs *)

Ltac in_universe_list :=
  intros ? ?;
  repeat match goal with
         | H : In _ _ |- _ => simpl in H
         | H : _ \/ _ |- _ => destruct H
         | H : False |- _ => destruct H
         | H : _ = _ |- _ => subst
         end;
  unfold in_universe; change word_size with (2 ^ 40); lia.

(** C1. The index does not always return the predecessor.  With sampling
    parameter 6, after inserting 5 and 200 the query 65 is answered with
    [{true, 0}] by the bitset index and by the list index, although the
    greatest inserted key not above 65 is 5: position 1 of [m_xf] points to
    the bucket of prefix 0, and [pred] is run on that bucket with the suffix
    of the query instead of returning its greatest key. *)
Theorem predecessor_misses_key_in_lower_bucket :
  predecessor_after (rep := bv_rep 6) 6 0 0 [5; 200] 65 = Some (mkResult true 0) /\
  predecessor_after (rep := list_rep 6) 6 0 0 [5; 200] 65 = Some (mkResult true 0) /\
  (In 5 [5; 200] /\ 5 <= 65 /\ forall z, In z [5; 200] -> z <= 65 -> z <= 5).
Proof.
  split; [vm_compute; reflexivity|]. split; [vm_compute; reflexivity|].
  split; [now left|]. split; [lia|]. intros z [<-|[<-|[]]]; lia.
Qed.


(** ** The general theorems at concrete inputs *)

Lemma predecessor_boundaries_witness :
  0 <= 6 <= 40 /\ (forall k, In k [5; 200] -> in_universe k) /\
  exists d, inserts (rep := bv_rep 6) 6 [5; 200] (DynIndex_new 0 0) = Some d /\
    ([5; 200] = [] -> forall x, predecessor (rep := bv_rep 6) 6 x d = Some (mkResult false 1)) /\
    (forall x mn, In mn [5; 200] -> (forall k, In k [5; 200] -> mn <= k) -> x < mn ->
       predecessor (rep := bv_rep 6) 6 x d = Some (mkResult false 0)) /\
    (forall x mx, In mx [5; 200] -> (forall k, In k [5; 200] -> k <= mx) -> mx <= x ->
       predecessor (rep := bv_rep 6) 6 x d = Some (mkResult true mx)).
Proof.
  split; [lia|]. split; [in_universe_list|].
  apply (@predecessor_boundaries 6 Z (bv_rep 6) (bv_laws 6)); [lia|in_universe_list].
Defined.

Lemma m_size_counts_first_insert_only_witness :
  0 <= 6 <= 40 /\ (forall k, In k [5; 200; 70] -> in_universe k) /\
  exists d, inserts (rep := list_rep 6) 6 [5; 200; 70] (DynIndex_new 0 0) = Some d /\
    m_size d = 1 /\
    forall x, predecessor (rep := list_rep 6) 6 x d = Some (mkResult false 1)
              <-> [5; 200; 70] = [].
Proof.
  split; [lia|]. split; [in_universe_list|].
  apply (@m_size_counts_first_insert_only 6 (list Z) (list_rep 6) (list_laws 6));
    [lia|in_universe_list].
Defined.

Lemma gap_case_next_bucket_exists_witness :
  0 <= 6 <= 40 /\ (forall k, In k [5; 200] -> in_universe k) /\ in_universe 70 /\
  exists d, inserts (rep := bv_rep 6) 6 [5; 200] (DynIndex_new 0 0) = Some d /\
    ([5; 200] <> [] -> exists a b, last (m_xf d) = Some (Some a) /\
       m_heap d !! a = Some b /\ bprefix b = xf_size d - 1) /\
    (forall a kb, prefix 6 70 < xf_size d -> prefix 6 (m_min d) <= prefix 6 70 ->
       m_xf d !! Z.to_nat (prefix 6 70) = Some (Some a) ->
       m_heap d !! a = Some kb -> bprefix kb < prefix 6 70 ->
       exists a' nb, next_b kb = Some a' /\ m_heap d !! a' = Some nb) /\
    exists d', insert (rep := bv_rep 6) 6 70 d = Some (tt, d').
Proof.
  split; [lia|]. split; [in_universe_list|].
  split; [unfold in_universe; change word_size with (2 ^ 40); lia|].
  apply (@gap_case_next_bucket_exists 6 Z (bv_rep 6) (bv_laws 6));
    [lia|in_universe_list|unfold in_universe; change word_size with (2 ^ 40); lia].
Defined.

Lemma top_array_is_step_function_witness :
  0 <= 6 <= 40 /\ (forall k, In k [5; 200] -> in_universe k) /\ [5; 200] <> [] /\
  exists d, inserts (rep := bv_rep 6) 6 [5; 200] (DynIndex_new 0 0) = Some d /\
    In (m_min d) [5; 200] /\ (forall k, In k [5; 200] -> m_min d <= k) /\
    forall p, 0 <= p < xf_size d ->
      (p < prefix 6 (m_min d) -> m_xf d !! Z.to_nat p = Some None) /\
      (prefix 6 (m_min d) <= p ->
         exists a b, m_xf d !! Z.to_nat p = Some (Some a) /\
           m_heap d !! a = Some b /\
           bprefix b <= p /\ occupied 6 [5; 200] (bprefix b) /\
           (forall q, occupied 6 [5; 200] q -> q <= p -> q <= bprefix b) /\
           m_xf d !! Z.to_nat (bprefix b) = Some (Some a)).
Proof.
  split; [lia|]. split; [in_universe_list|]. split; [discriminate|].
  apply (@top_array_is_step_function 6 Z (bv_rep 6) (bv_laws 6));
    [lia|in_universe_list|discriminate].
Defined.

Lemma buckets_linked_ascending_with_prev_pred_witness :
  0 <= 6 <= 40 /\ (forall k, In k [200; 5; 70] -> in_universe k) /\
  exists d bs, inserts (rep := bv_rep 6) 6 [200; 5; 70] (DynIndex_new 0 0) = Some d /\
    chain (m_heap d) (m_first_b d) bs /\
    StronglySorted Z.lt (map bprefix bs) /\
    (forall q, In q (map bprefix bs) <-> occupied 6 [200; 5; 70] q) /\
    (forall b m, In b bs -> In m [200; 5; 70] -> prefix 6 m = bprefix b ->
       (forall k, In k [200; 5; 70] -> prefix 6 k = bprefix b -> m <= k) ->
       prev_pred_of [200; 5; 70] m (prev_pred b)) /\
    (forall b bs', bs = b :: bs' -> prev_pred b = 0).
Proof.
  split; [lia|]. split; [in_universe_list|].
  apply (@buckets_linked_ascending_with_prev_pred 6 Z (bv_rep 6) (bv_laws 6));
    [lia|in_universe_list].
Defined.

Lemma list_pred_greatest_not_above_witness :
  (In 9 [12; 5; 9; 70] /\ 9 <= 10 /\
   (forall e, In e [12; 5; 9; 70] -> e <= 10 -> e <= 9) /\
   0 <= 6 /\ 0 <= 3 /\ 0 <= 9 /\ 3 * 2 ^ 6 + 9 < 2 ^ 64) /\
  list_pred 6 (Bucket 3 77 None [12; 5; 9; 70]) 10 = 3 * 2 ^ 6 + 9.
Proof.
  assert (H : forall e, In e [12; 5; 9; 70] -> e <= 10 -> e <= 9)
    by (intros e [<-|[<-|[<-|[<-|[]]]]]; lia).
  split.
  - split; [simpl; tauto|]. split; [lia|]. split; [exact H|]. lia.
  - apply (proj2 (list_pred_greatest_not_above 6 (Bucket 3 77 None [12; 5; 9; 70]) 10) 9);
      simpl; try lia; try tauto.
Defined.


Lemma predecessor_defined_and_exists_flag_right_witness :
  0 <= 6 <= 40 /\ (forall k, In k [5; 200] -> in_universe k) /\
  exists d, inserts (rep := list_rep 6) 6 [5; 200] (DynIndex_new 0 0) = Some d /\
    forall x, exists r, predecessor (rep := list_rep 6) 6 x d = Some r /\
      (r_exists r = true <-> exists k, In k [5; 200] /\ k <= x).
Proof.
  split; [lia|]. split; [in_universe_list|].
  apply (@predecessor_defined_and_exists_flag_right 6 (list Z) (list_rep 6) (list_laws 6));
    [lia|in_universe_list].
Defined.

Lemma min_max_and_top_array_size_witness :
  0 <= 6 <= 40 /\ (forall k, In k [200; 5; 70] -> in_universe k) /\ [200; 5; 70] <> [] /\
  exists d, inserts (rep := bv_rep 6) 6 [200; 5; 70] (DynIndex_new 0 0) = Some d /\
    In (m_min d) [200; 5; 70] /\ (forall k, In k [200; 5; 70] -> m_min d <= k) /\
    In (m_max d) [200; 5; 70] /\ (forall k, In k [200; 5; 70] -> k <= m_max d) /\
    xf_size d = prefix 6 (m_max d) + 1.
Proof.
  split; [lia|]. split; [in_universe_list|]. split; [discriminate|].
  apply (@min_max_and_top_array_size 6 Z (bv_rep 6) (bv_laws 6));
    [lia|in_universe_list|discriminate].
Defined.


Lemma predecessor_depends_on_key_set_witness :
  0 <= 20 <= 40 /\ (forall k, In k [65536; 2097152; 9] -> in_universe k) /\
  (forall k, In k [65536; 2097152; 9] <-> In k [9; 65536; 9; 2097152]) /\
  exists d1 d2,
    inserts (rep := list_rep 20) 20 [65536; 2097152; 9] (DynIndex_new 0 0) = Some d1 /\
    inserts (rep := list_rep 20) 20 [9; 65536; 9; 2097152] (DynIndex_new 0 0) = Some d2 /\
    forall x, predecessor (rep := list_rep 20) 20 x d1 =
              predecessor (rep := list_rep 20) 20 x d2.
Proof.
  assert (Hsame : forall k, In k [65536; 2097152; 9] <-> In k [9; 65536; 9; 2097152])
    by (intros k; simpl; tauto).
  split; [lia|]. split; [in_universe_list|]. split; [exact Hsame|].
  apply (@predecessor_depends_on_key_set 20 (list Z) (list_rep 20) (list_laws 20));
    [lia|in_universe_list|exact Hsame].
Defined.

Lemma predecessor_right_when_prefix_occupied_witness :
  0 <= 6 <= 40 /\ (forall k, In k [5; 200; 70] -> in_universe k) /\
  occupied 6 [5; 200; 70] (prefix 6 66) /\ greatest_le [5; 200; 70] 66 5 /\
  (exists d, inserts (rep := bv_rep 6) 6 [5; 200; 70] (DynIndex_new 0 0) = Some d /\
     predecessor (rep := bv_rep 6) 6 66 d = Some (mkResult true 5)) /\
  (6 <= 16 ->
   exists d, inserts (rep := list_rep 6) 6 [5; 200; 70] (DynIndex_new 0 0) = Some d /\
     predecessor (rep := list_rep 6) 6 66 d = Some (mkResult true 5)).
Proof.
  assert (Hocc : occupied 6 [5; 200; 70] (prefix 6 66))
    by (exists 70; split; [simpl; tauto|reflexivity]).
  assert (Hy : greatest_le [5; 200; 70] 66 5).
  { split; [simpl; tauto|]. split; [lia|]. intros k Hk. simpl in Hk. lia. }
  split; [lia|]. split; [in_universe_list|]. split; [exact Hocc|]. split; [exact Hy|].
  apply (predecessor_right_when_prefix_occupied 6); [lia|in_universe_list|exact Hocc|exact Hy].
Defined.

Lemma predecessor_of_inserted_key_witness :
  0 <= 6 <= 40 /\ (forall k, In k [5; 200; 70] -> in_universe k) /\ In 70 [5; 200; 70] /\
  (exists d, inserts (rep := bv_rep 6) 6 [5; 200; 70] (DynIndex_new 0 0) = Some d /\
     predecessor (rep := bv_rep 6) 6 70 d = Some (mkResult true 70)) /\
  (6 <= 16 ->
   exists d, inserts (rep := list_rep 6) 6 [5; 200; 70] (DynIndex_new 0 0) = Some d /\
     predecessor (rep := list_rep 6) 6 70 d = Some (mkResult true 70)).
Proof.
  split; [lia|]. split; [in_universe_list|]. split; [simpl; tauto|].
  apply (predecessor_of_inserted_key 6); [lia|in_universe_list|simpl; tauto].
Defined.

Lemma bitset_reinsert_changes_nothing_witness :
  0 <= 6 <= 40 /\ (forall k, In k [5; 200; 70] -> in_universe k) /\ In 200 [5; 200; 70] /\
  exists d, inserts (rep := bv_rep 6) 6 [5; 200; 70] (DynIndex_new 0 0) = Some d /\
    insert (rep := bv_rep 6) 6 200 d = Some (tt, d).
Proof.
  split; [lia|]. split; [in_universe_list|]. split; [simpl; tauto|].
  apply (bitset_reinsert_changes_nothing 6); [lia|in_universe_list|simpl; tauto].
Defined.

Lemma predecessor_right_exactly_when_witness :
  0 <= 6 <= 40 /\ (forall k, In k [5; 200] -> in_universe k) /\
  greatest_le [5; 200] 70 5 /\
  (exists d, inserts (rep := bv_rep 6) 6 [5; 200] (DynIndex_new 0 0) = Some d /\
     (predecessor (rep := bv_rep 6) 6 70 d = Some (mkResult true 5) <->
      occupied 6 [5; 200] (prefix 6 70) \/ suffix 6 5 <= suffix 6 70 \/
      forall k, In k [5; 200] -> k <= 70)) /\
  (6 <= 16 ->
   exists d, inserts (rep := list_rep 6) 6 [5; 200] (DynIndex_new 0 0) = Some d /\
     (predecessor (rep := list_rep 6) 6 70 d = Some (mkResult true 5) <->
      occupied 6 [5; 200] (prefix 6 70) \/ suffix 6 5 <= suffix 6 70 \/
      forall k, In k [5; 200] -> k <= 70)).
Proof.
  assert (Hy : greatest_le [5; 200] 70 5).
  { split; [simpl; tauto|]. split; [lia|]. intros k Hk. simpl in Hk. lia. }
  split; [lia|]. split; [in_universe_list|]. split; [exact Hy|].
  apply (predecessor_right_exactly_when 6); [lia|in_universe_list|exact Hy].
Defined.
